(** * Search cores of the RL repository: 2048 expectimax and NoGo MCTS

  A shallow embedding of the three [agent.h] files of the repository:

  - [2048_expectimax/agent.h]: the n-tuple value estimator, the chance-node
    expansion [expectation], the player's [take_action] and
    [adjust_value], the random environment and the dummy player;
  - [hollow_nogo_MCTS/agent.h]: the MCTS player with RAVE tables;
  - [hollow_nogo_Parallel_MCTS/agent.h]: the root-parallel MCTS player,
    with its vote and [delete_tree];
  - the class [agent] that the three files share, and the constructor of
    the NoGo player.

  Conventions of the embedding.

  - [int] values are [Z]; the counters of the search stay far below 2^31.
  - The 2048 player computes in an arithmetic given by the interfaces
    [Weight] and [Arith], with two instances: the rationals ([Qc]), in
    which nothing is rounded, and [IEEE], the [float] and [double] of the
    machine.
  - The scores of the NoGo players are exact rationals ([Qc]); where the
    code's choice depends on rounding, in the scan of [select_action], the
    rates compared are rounded to binary32.  [Binary32] gives the
    rounding of integers and of quotients.  A division whose divisor is
    zero, and [std::log] of a non-positive count, have no rational value:
    the functions that perform them return [option Qc] and give [None]
    there.
  - [board.h], [action.h] and [weight.h] are not among the sources.  The two
    boards are interfaces ([Board2048], [NoGoBoard]); the weight tables are
    a function from table number and index to a weight.
  - Nodes of the search tree live in an arena ([list node]); a [node*] is an
    index into it and [new node] appends.
  - [std::default_random_engine] with [std::shuffle] is the interface
    [Engine]; [std::log] and [std::sqrt] are the interface [Libm], and
    [std::stod] the interface [Stod].
  - A [std::string] is a list of characters. *)

From Stdlib Require Import ZArith QArith Qcanon Lia.
From Stdlib Require Ascii String SpecFloat.
From stdpp Require Import base tactics numbers option list list_numbers.

Local Open Scope Z_scope.

(** ** Numbers *)

Module Num.

Definition of_int (z : Z) : Qc := Qc_of_Z z.

(** [a < b] on [float]. *)
Definition flt (a b : Qc) : bool :=
  match (a ?= b)%Qc with Lt => true | _ => false end.

(** [std::numeric_limits<float>::max()] = (2^24 - 1) * 2^104. *)
Definition FLT_MAX : Qc := of_int (2 ^ 128 - 2 ^ 104).

(** [a / b]; no value when the divisor is zero. *)
Definition fdiv (a b : Qc) : option Qc :=
  if decide (b = 0%Qc) then None else Some (a / b)%Qc.

(** The literals [0.9], [0.1], [1.5] and [0.5]. *)
Definition c09 : Qc := (of_int 9 / of_int 10)%Qc.
Definition c01 : Qc := (of_int 1 / of_int 10)%Qc.
Definition c15 : Qc := (of_int 3 / of_int 2)%Qc.
Definition c05 : Qc := (of_int 1 / of_int 2)%Qc.

#[global] Arguments of_int : simpl never.
#[global] Arguments fdiv : simpl never.
#[global] Arguments flt : simpl never.
#[global] Arguments FLT_MAX : simpl never.

End Num.

(** The addition of C++ [float] (IEEE 754 binary32, round to nearest, ties to
  even) on operands that are integers: the exact sum, rounded to 24
  significant bits.  Sums beyond [FLT_MAX] are outside the model. *)
Module Binary32.

Definition round (z : Z) : Z :=
  let a := Z.abs z in
  if a <? 2 ^ 24 then z
  else
    let e := Z.log2 a - 23 in
    let q := Z.shiftr a e in
    let r := a - Z.shiftl q e in
    let half := Z.shiftl 1 (e - 1) in
    let q' := if r <? half then q
              else if half <? r then q + 1
              else if Z.even q then q else q + 1 in
    Z.sgn z * Z.shiftl q' e.

Definition add (a b : Z) : Z := round (a + b).

(** The binary32 nearest to the rational [q], ties to even: what a [float]
    division returns when its exact quotient is [q].  [2^k q] is brought
    between 2^23 and 2^24 and rounded to an integer [m'].  The exponent
    range is not modelled: [q] is taken in the range where binary32 is
    normal and finite, as the quotient of two counts is. *)
Definition nearest (q : Qc) : Qc :=
  let a := Z.abs (Qnum q) in
  let b := Z.pos (Qden q) in
  if a =? 0 then 0%Qc
  else
    let k := 24 + Z.log2 b - Z.log2 a in
    let num := a * 2 ^ Z.max k 0 in
    let den := b * 2 ^ Z.max (- k) 0 in
    let '(den, k) :=
      if num / den <? 2 ^ 24 then (den, k) else (2 * den, k - 1) in
    let m := num / den in
    let r := num mod den in
    let m' := if 2 * r <? den then m
              else if den <? 2 * r then m + 1
              else if Z.even m then m else m + 1 in
    if 0 <=? k then (Num.of_int (Z.sgn (Qnum q) * m') / Num.of_int (2 ^ k))%Qc
    else Num.of_int (Z.sgn (Qnum q) * m' * 2 ^ (- k)).

(** [(float)a / b] on two [int]s: [a] and [b] are converted to [float] and
    divided in [float]; no value when the divisor is zero. *)
Definition div_int (a b : Z) : option Qc :=
  q ← Num.fdiv (Num.of_int (round a)) (Num.of_int (round b));
  Some (nearest q).

End Binary32.

(** ** 2048: [2048_expectimax/agent.h] *)

(** The operations of [board] (2048) that [agent.h] calls. *)
Class Board2048 (board : Type) := {
(** [b(pos)]: the cell at [pos], row-major. *)
cell : board → Z → Z;
(** [b.slide(op)]: the reward, or -1 when the board does not change, and
    the board after the call. *)
slide : board → Z → Z * board;
(** [b.place(pos, tile)]: the board after the call. *)
place_tile : board → Z → Z → board;
rotate_right : board → board;
reflect_horizontal : board → board;
}.

(** Modelled from the spec: [rotate_right] and [reflect_horizontal] are
  defined in [board.h], which is not among the sources.  On the 4x4 grid in
  row-major order, [rotate_right] turns the board a quarter turn clockwise
  and [reflect_horizontal] mirrors it left to right: [rot_src pos] and
  [ref_src pos] are the cells whose tiles they move to [pos]. *)
Definition rot_src (pos : Z) : Z := 4 * (3 - pos mod 4) + pos / 4.
Definition ref_src (pos : Z) : Z := 4 * (pos / 4) + (3 - pos mod 4).

Class Board2048Laws (board : Type) `{Board2048 board} : Prop := {
rotate_right_cell (b : board) (pos : Z) :
  0 ≤ pos < 16 → cell (rotate_right b) pos = cell b (rot_src pos);
reflect_horizontal_cell (b : board) (pos : Z) :
  0 ≤ pos < 16 → cell (reflect_horizontal b) pos = cell b (ref_src pos);
}.

(** The arithmetic [estimate_value] needs from the type of weights. *)
Class Weight (F : Type) := {
fzero : F;
fadd : F → F → F;
}.

#[global] Instance Qc_weight : Weight Qc := {| fzero := 0%Qc; fadd := Qcplus |}.

(** [float] restricted to integers, with the rounding of binary32. *)
Definition f32int_weight : Weight Z := {| fzero := 0; fadd := Binary32.add |}.

(** The arithmetic [expectation] and [take_action] need besides the
  addition of [float]: the comparison of two [float]s, the conversions,
  and the operations of [double], the type in which [expectation] computes
  the term of a position before it adds it to a [float]. *)
Class Arith (F : Type) := {
double : Type;
(** The conversion of an [int], as in [reward + ...]. *)
float_of_int : Z → F;
(** [a < b]. *)
float_lt : F → F → bool;
(** [-std::numeric_limits<float>::max()]. *)
float_lowest : F;
(** The promotion of a [float] operand of a [double] operation, and the
    conversion of a [double] assigned to a [float]. *)
float_to_double : F → double;
double_to_float : double → F;
(** The conversion of an [int], as in [... / empty_space]. *)
double_of_int : Z → double;
double_add : double → double → double;
double_mul : double → double → double;
double_div : double → double → double;
(** The literals [0.9] and [0.1]. *)
double_09 : double;
double_01 : double;
}.

(** The arithmetic of the rationals: no rounding, and [double] is [float]. *)
#[global] Instance Qc_arith : Arith Qc := {|
  double := Qc;
  float_of_int := Num.of_int;
  float_lt := Num.flt;
  float_lowest := (- Num.FLT_MAX)%Qc;
  float_to_double := λ x, x;
  double_to_float := λ x, x;
  double_of_int := Num.of_int;
  double_add := Qcplus;
  double_mul := Qcmult;
  double_div := Qcdiv;
  double_09 := Num.c09;
  double_01 := Num.c01;
|}.

Module G2048.

(** What [take_action] leaves in [vs], [r] and [op]; the action it returns is
  [action::slide(op)]. *)
Record choice (F : Type) := Choice { val_max : F; r_max : Z; op : Z }.
Arguments Choice {F}.
Arguments val_max {F}.
Arguments r_max {F}.
Arguments op {F}.

Section Player.
Context {board : Type} `{Board2048 board}.
Context {F : Type} `{Weight F}.

(** [net[t][idx]]: the weight tables. *)
Variable net : Z → Z → F.

Definition extract_feature6 (after : board) (a b c d e f : Z) : Z :=
  cell after a * 16 * 16 * 16 * 16 * 16
  + cell after b * 16 * 16 * 16 * 16
  + cell after c * 16 * 16 * 16
  + cell after d * 16 * 16
  + cell after e * 16
  + cell after f.

(** [net[0][idx0] + net[1][idx1] + net[2][idx2] + net[3][idx3]] on [b]. *)
Definition tuple_sum (b : board) : F :=
  let idx0 := extract_feature6 b 0 1 2 3 4 5 in
  let idx1 := extract_feature6 b 4 5 6 7 8 9 in
  let idx2 := extract_feature6 b 0 1 2 4 5 6 in
  let idx3 := extract_feature6 b 4 5 6 8 9 10 in
  fadd (fadd (fadd (net 0 idx0) (net 1 idx1)) (net 2 idx2)) (net 3 idx3).

(** One [for(int i = 0; i < 4; ++i)] loop of [estimate_value]:
    [sum += ...; b.rotate_right();], [n] times. *)
Fixpoint rotation_pass (n : nat) (sum : F) (b : board) : F * board :=
  match n with
  | O => (sum, b)
  | S n' => rotation_pass n' (fadd sum (tuple_sum b)) (rotate_right b)
  end.

Definition estimate_value (after : board) : F :=
  let '(sum, b) := rotation_pass 4 fzero after in
  let b := reflect_horizontal b in
  let '(sum, b) := rotation_pass 4 sum b in
  sum.

End Player.

Section Expectimax.
Context {board : Type} `{Board2048 board}.
Context {F : Type} `{Weight F} `{Arith F}.
Variable net : Z → Z → F.

Definition positions : list Z := seqZ 0 16.
Definition directions : list Z := seqZ 0 4.

(** [std::max(a, b)]: [(a < b) ? b : a]. *)
Definition fmax (a b : F) : F := if float_lt a b then b else a.

(** The inner loop of [expectation] over the four directions, started at
    [-FLT_MAX]; [reward] is converted to [float] and added to the
    estimate. *)
Definition best_slide (b : board) : F :=
  foldl (λ val_max i,
           let '(reward, b_tmp) := slide b i in
           if reward =? -1 then val_max
           else
             let v := fadd (float_of_int reward) (estimate_value net b_tmp) in
             fmax val_max v)
        float_lowest directions.

Definition count_empty (after : board) : Z :=
  foldl (λ empty_space pos,
           if cell after pos =? 0 then empty_space + 1 else empty_space)
        0 positions.

(** [result += ((val_max1 * 0.9 + val_max2 * 0.1) / empty_space)]: the
    operands are promoted to [double], the term and the sum are computed
    in [double], and the sum is converted to the [float] [result]. *)
Definition expectation (after : board) : F :=
  let empty_space := count_empty after in
  foldl (λ result pos,
           if negb (cell after pos =? 0) then result
           else
             let val_max1 := best_slide (place_tile after pos 1) in
             let val_max2 := best_slide (place_tile after pos 2) in
             double_to_float
               (double_add (float_to_double result)
                  (double_div
                     (double_add
                        (double_mul (float_to_double val_max1) double_09)
                        (double_mul (float_to_double val_max2) double_01))
                     (double_of_int empty_space))))
        fzero positions.

Definition take_action (before : board) : choice F :=
  foldl (λ acc i,
           let '(reward, b) := slide before i in
           if reward =? -1 then acc
           else
             let v := fadd (float_of_int reward) (expectation b) in
             if float_lt (val_max acc) v then Choice v reward i else acc)
        (Choice float_lowest (-2147483648) (-1)) directions.

End Expectimax.
End G2048.

(** The arithmetic of the machine: [float] and [double] are the binary32
  and binary64 numbers of IEEE 754, as [SpecFloat] of the Standard Library
  defines them: signed zeros, infinities and NaN, every operation rounded
  to the nearest number, ties to even.  (The operations on [float] are
  taken to be computed in [float], as on x86-64.) *)
Module IEEE.
Import SpecFloat.

(** The conversion between the two formats: the number rounded to the
    precision [prec]. *)
Definition convert (prec emax : Z) (x : spec_float) : spec_float :=
  match x with
  | S754_finite s m e => binary_normalize prec emax (cond_Zopp s (Z.pos m)) e s
  | _ => x
  end.

Definition of_int (prec emax : Z) (z : Z) : spec_float :=
  binary_normalize prec emax z 0 false.

(** [std::numeric_limits<float>::max()] = (2^24 - 1) * 2^104. *)
Definition FLT_MAX : spec_float := S754_finite false (2 ^ 24 - 1) 104.

(** The rational that a finite number denotes, in lowest terms. *)
Definition value (x : spec_float) : option Q :=
  match x with
  | S754_zero _ => Some (Qred 0)
  | S754_finite s m e =>
      let z := cond_Zopp s (Z.pos m) in
      Some (Qred (if 0 <=? e then inject_Z (z * 2 ^ e)
                  else Qmake z (Z.to_pos (2 ^ (- e)))))
  | _ => None
  end.

#[global] Instance float_weight : Weight spec_float := {|
  fzero := S754_zero false;
  fadd := SFadd 24 128;
|}.

#[global] Instance float_arith : Arith spec_float := {|
  double := spec_float;
  float_of_int := of_int 24 128;
  float_lt := SFltb;
  float_lowest := SFopp FLT_MAX;
  float_to_double := convert 53 1024;
  double_to_float := convert 24 128;
  double_of_int := of_int 53 1024;
  double_add := SFadd 53 1024;
  double_mul := SFmul 53 1024;
  double_div := SFdiv 53 1024;
  double_09 := SFdiv 53 1024 (of_int 53 1024 9) (of_int 53 1024 10);
  double_01 := SFdiv 53 1024 (of_int 53 1024 1) (of_int 53 1024 10);
|}.

End IEEE.

(** ** A 2048 board

  Modelled from the spec: [board.h] of the 2048 framework is not among the
  sources.  The board is its sixteen cells in row-major order; a slide
  moves the tiles of each line towards one side and merges equal
  neighbours once, the reward being the sum of the merged tiles' values
  (a cell [k > 0] holds the tile [2^k]); directions are 0 up, 1 right,
  2 down, 3 left. *)
Module Board16.

Abbreviation board := (list Z).

Definition cell (b : board) (pos : Z) : Z :=
  if 0 <=? pos then default 0 (b !! Z.to_nat pos) else 0.

Definition permute (src : Z → Z) (b : board) : board :=
  (λ pos, cell b (src pos)) <$> seqZ 0 16.

Definition rotate_right (b : board) : board := permute rot_src b.
Definition reflect_horizontal (b : board) : board := permute ref_src b.
Definition rotate_left (b : board) : board :=
  rotate_right (rotate_right (rotate_right b)).

(** Merge equal neighbours of a line without gaps, from its head. *)
Fixpoint merge (l : list Z) : list Z * Z :=
  match l with
  | a :: (b :: rest) as tl =>
      if a =? b then
        let '(r, s) := merge rest in ((a + 1) :: r, s + 2 ^ (a + 1))
      else
        let '(r, s) := merge tl in (a :: r, s)
  | _ => (l, 0)
  end.

Definition slide_row (row : list Z) : list Z * Z :=
  let '(m, s) := merge (filter (λ t, t ≠ 0) row) in
  (m ++ replicate (4 - length m) 0, s).

Definition rows (b : board) : list (list Z) :=
  [take 4 b; take 4 (drop 4 b); take 4 (drop 8 b); take 4 (drop 12 b)].

(** The tiles after a slide to the left, and the sum of the merges. *)
Definition move_left (b : board) : board * Z :=
  let rs := slide_row <$> rows b in
  (concat (fst <$> rs), foldr Z.add 0 (snd <$> rs)).

Definition move (op : Z) (b : board) : option (board * Z) :=
  match op with
  | 0 => let '(b', s) := move_left (reflect_horizontal (rotate_right b)) in
         Some (rotate_left (reflect_horizontal b'), s)
  | 1 => let '(b', s) := move_left (reflect_horizontal b) in
         Some (reflect_horizontal b', s)
  | 2 => let '(b', s) := move_left (rotate_right b) in
         Some (rotate_left b', s)
  | 3 => Some (move_left b)
  | _ => None
  end.

Definition slide (b : board) (op : Z) : Z * board :=
  match move op b with
  | Some (b', s) => if decide (b' = b) then (-1, b) else (s, b')
  | None => (-1, b)
  end.

Definition place_tile (b : board) (pos tile : Z) : board :=
  if 0 <=? pos then <[Z.to_nat pos := tile]> b else b.

#[global] Instance board16 : Board2048 board :=
  Build_Board2048 board cell slide place_tile rotate_right reflect_horizontal.

End Board16.

(** ** NoGo: what both MCTS players share

  [hollow_nogo_MCTS/agent.h] and [hollow_nogo_Parallel_MCTS/agent.h] define
  [node] with the same fields and the same [is_leaf], [all_space],
  [expand_from_leaf], [simulate_winner] and [select_root_to_leaf]; they
  differ in the scores, in [back_propagate] and in what [MCTS] returns. *)

(** The operations of [board] (NoGo) that [agent.h] calls. *)
Class NoGoBoard (board : Type) := {
(** [b.place(pos)]: [Some] of the board after the move when the result is
    [board::legal], [None] otherwise (the board is then unchanged). *)
place : board → Z → option board;
(** [b.info().who_take_turns]. *)
who_take_turns : board → Z;
}.

(** [std::default_random_engine] under [std::shuffle]: the shuffled vector
  and the engine after the call.  A shuffle permutes. *)
Class Engine (engine : Type) := {
shuffle : engine → list Z → list Z * engine;
shuffle_perm : ∀ e l, (shuffle e l).1 ≡ₚ l;
}.

(** [std::log] on a count and [std::sqrt]: both leave the rationals, so the
  embedding takes them as given. *)
Class Libm := {
flog : Z → Qc;
fsqrt : Qc → Qc;
}.

Module NoGo.

(** [board::black] and [board::white].  Modelled from the spec: [board.h]
    is not among the sources; the piece constants are [empty = 0], then
    [black], then [white]. *)
Definition black : Z := 1.
Definition white : Z := 2.

(** [class node : board]; [nboard] is the base object, [child] and [parent]
    hold arena indices. *)
Record node (board : Type) := Node {
  nboard : board;
  win_cnt : Z;
  total_cnt : Z;
  place_pos : Z;
  child : list nat;
  parent : option nat;
}.
Arguments Node {board}.
Arguments nboard {board}.
Arguments win_cnt {board}.
Arguments total_cnt {board}.
Arguments place_pos {board}.
Arguments child {board}.
Arguments parent {board}.

(** [node(state, m)]; the root is [node(state)], with [m = -1]. *)
Definition new_node {board} (state : board) (m : Z) : node board :=
  Node state 0 0 m [] None.

Definition add_child {board} (n : node board) (c : nat) : node board :=
  Node (nboard n) (win_cnt n) (total_cnt n) (place_pos n) (child n ++ [c])
       (parent n).
Definition set_parent {board} (n : node board) (p : nat) : node board :=
  Node (nboard n) (win_cnt n) (total_cnt n) (place_pos n) (child n) (Some p).
(** [n->total_cnt++] and [n->win_cnt++]. *)
Definition incr_total {board} (n : node board) : node board :=
  Node (nboard n) (win_cnt n) (total_cnt n + 1) (place_pos n) (child n)
       (parent n).
Definition incr_win {board} (n : node board) : node board :=
  Node (nboard n) (win_cnt n + 1) (total_cnt n) (place_pos n) (child n)
       (parent n).

(** [v[i]] on a [std::vector<int>] with an [int] index: no value outside
    the vector. *)
Definition lookupZ (l : list Z) (i : Z) : option Z :=
  if 0 <=? i then l !! Z.to_nat i else None.

(** [v[i]++].  An index outside the vector is undefined behaviour in C++:
    the embedding leaves the vector as it is and records the index in
    [oob], so that the rest of the loop can still be followed. *)
Definition bump (l oob : list Z) (i : Z) : list Z * list Z :=
  match lookupZ l i with
  | Some x => (<[Z.to_nat i := x + 1]> l, oob)
  | None => (l, oob ++ [i])
  end.

(** The scan [for i: if (tmp > max_score) { max_score = tmp; c = ...; }]
    started at [-FLT_MAX] with [c] not initialised: the first child with
    the largest score.  [None] when a score has no value or [c] is never
    assigned. *)
Definition best_child (score : nat → option Qc) (children : list nat)
  : option nat :=
  '(_, c) ← foldl (λ acc ci,
                     '(max_score, c) ← acc;
                     tmp ← score ci;
                     Some (if Num.flt max_score tmp then (tmp, Some ci)
                           else (max_score, c)))
                  (Some ((- Num.FLT_MAX)%Qc, None)) children;
  c.

Section Tree.
Context {board : Type} `{NoGoBoard board}.
Context {engine : Type} `{Engine engine}.

Abbreviation tree := (list (node board)).

Definition legal (b : board) (i : Z) : bool :=
  match place b i with Some _ => true | None => false end.

Definition is_leaf (n : node board) : bool :=
  let cnt := length (filter (λ i, legal (nboard n) i = true) (seqZ 0 81)) in
  negb (bool_decide (0 < cnt)%nat && bool_decide (length (child n) = cnt)).

Definition all_space (e : engine) : list Z * engine := shuffle e (seqZ 0 81).

(** The scan of [expand_from_leaf]: the first entry of [vec] that [b]
    accepts, with [b] after the move. *)
Fixpoint first_legal (b : board) (vec : list Z) : option (Z * board) :=
  match vec with
  | [] => None
  | i :: vec' =>
      match place b i with
      | Some b' => Some (i, b')
      | None => first_legal b vec'
      end
  end.

(** [this->expand_from_leaf(engine)]: the tree, the node returned and the
    engine after the call. *)
Definition expand_from_leaf (t : tree) (this : nat) (e : engine)
  : option (tree * nat * engine) :=
  n ← t !! this;
  let '(vec, e') := all_space e in
  match first_legal (nboard n) vec with
  | Some (pos, b) =>
      let new_id := length t in
      Some (<[this := add_child n new_id]> t
              ++ [set_parent (new_node b pos) this],
            new_id, e')
  | None => Some (t, this, e')
  end.

(** The loop of [simulate_winner] over the queue [q], with [cnt] the
    number of refusals since the last move; [fuel] bounds its turns. *)
Fixpoint playout (fuel : nat) (b : board) (q : list Z) (cnt : nat)
  : option board :=
  if decide (cnt = length q) then Some b
  else
    match fuel with
    | O => None
    | S fuel' =>
        match q with
        | [] => None
        | i :: q' =>
            match place b i with
            | Some b' => playout fuel' b' q' 0
            | None => playout fuel' b (q' ++ [i]) (S cnt)
            end
        end
    end.

(** Enough turns for a queue of [len] positions (see [playout_total]). *)
Definition playout_fuel (len : nat) : nat := len * len + len.

Definition simulate_winner (n : node board) (e : engine)
  : option (Z * engine) :=
  let '(vec, e') := all_space e in
  b ← playout (playout_fuel (length vec)) (nboard n) vec 0;
  Some (if decide (who_take_turns b = white) then black else white, e').

(** [c * std::sqrt(std::log(parent->total_cnt) / total_cnt)], the second
    summand of [ucb] and [ucb_opponent] in both files. *)
Definition exploration `{Libm} (t : tree) (n : node board) : option Qc :=
  p ← parent n;
  pn ← t !! p;
  if total_cnt pn <=? 0 then None
  else
    ratio ← Num.fdiv (flog (total_cnt pn)) (Num.of_int (total_cnt n));
    Some (Num.c15 * fsqrt ratio)%Qc.

(** [select_root_to_leaf], given the two scores of a child.  [fuel] bounds
    the descent: a child is created after its parent, so a walk visits at
    most as many nodes as the arena holds. *)
Section Select.
Variables ucb ucb_opponent : tree → nat → option Qc.

Fixpoint select_from (fuel : nat) (t : tree) (who : Z) (curr : nat)
  (vec : list nat) : option (list nat) :=
  n ← t !! curr;
  if is_leaf n then Some vec
  else
    match fuel with
    | O => None
    | S fuel' =>
        match child n with
        | [] => Some vec
        | _ =>
            c ← best_child
                  (λ ci, if decide (who = who_take_turns (nboard n))
                         then ucb t ci else ucb_opponent t ci)
                  (child n);
            select_from fuel' t who c (vec ++ [c])
        end
    end.

Definition select_root_to_leaf (t : tree) (this : nat) (who : Z)
  : option (list nat) :=
  select_from (length t) t who this [this].
End Select.

End Tree.

(** [action()] and [action::place(pos, who)]. *)
Inductive action := action_null | action_place (pos who : Z).

End NoGo.

(** ** [hollow_nogo_MCTS/agent.h]: MCTS with RAVE *)
Module Rave.
Import NoGo.

(** The player's [rave_total] and [rave_win], with the indices that fell
    outside them. *)
Record tables := Tables {
  rave_total : list Z;
  rave_win : list Z;
  oob : list Z;
}.

(** [RAVE_Beta]: every node is built with 0.5 and nothing assigns it. *)
Definition RAVE_Beta : Qc := Num.c05.

Section Search.
Context {board : Type} `{NoGoBoard board}.
Context {engine : Type} `{Engine engine}.
Context `{Libm}.

Abbreviation tree := (list (node board)).

Definition win_rate (n : node board) (tb : tables) : option Qc :=
  if (win_cnt n =? 0) && (total_cnt n =? 0) then Some 0%Qc
  else
    q ← Num.fdiv (Num.of_int (win_cnt n)) (Num.of_int (total_cnt n));
    rw ← lookupZ (rave_win tb) (place_pos n);
    rt ← lookupZ (rave_total tb) (place_pos n);
    rq ← Num.fdiv (Num.of_int rw) (Num.of_int rt);
    Some ((1 - RAVE_Beta) * q + RAVE_Beta * rq)%Qc.

Definition ucb (tb : tables) (t : tree) (ci : nat) : option Qc :=
  n ← t !! ci;
  wr ← win_rate n tb;
  x ← exploration t n;
  Some (wr + x)%Qc.

Definition ucb_opponent (tb : tables) (t : tree) (ci : nat) : option Qc :=
  n ← t !! ci;
  wr ← win_rate n tb;
  x ← exploration t n;
  Some ((1 - wr) + x)%Qc.

(** One turn of the loop of [back_propagate], for [path[i] = id]; [this] is
    the node [back_propagate] is called on, whose [info()] the loop reads. *)
Definition backup_step (this : nat) (winner : Z) (acc : option (tree * tables))
  (id : nat) : option (tree * tables) :=
  '(t, tb) ← acc;
  n ← t !! id;
  let t := <[id := incr_total n]> t in
  let '(rtot, o) := bump (rave_total tb) (oob tb) (place_pos n) in
  root ← t !! this;
  if decide (winner = who_take_turns (nboard root)) then
    let '(rwin, o) := bump (rave_win tb) o (place_pos n) in
    n ← t !! id;
    Some (<[id := incr_win n]> t, Tables rtot rwin o)
  else Some (t, Tables rtot (rave_win tb) o).

Definition back_propagate (this : nat) (path : list nat) (winner : Z)
  (t : tree) (tb : tables) : option (tree * tables) :=
  foldl (backup_step this winner) (Some (t, tb)) path.

(** The tree, the tables and the engine during [MCTS]. *)
Record search := Search { nodes : tree; tabs : tables; eng : engine }.

(** [if(expand_node != leaf) path.push_back(expand_node);] *)
Definition extend_path (path : list nat) (leaf expand_node : nat)
  : list nat :=
  if decide (expand_node = leaf) then path else path ++ [expand_node].

(** Simulation and backup on [path], the last two phases of a turn. *)
Definition simulate_and_backup (this : nat) (path : list nat) (t : tree)
  (tb : tables) (e : engine) : option search :=
  back ← last path;
  n ← t !! back;
  '(winner, e) ← simulate_winner n e;
  '(t, tb) ← back_propagate this path winner t tb;
  Some (Search t tb e).

(** One turn of the loop of [MCTS], called on the node [this]. *)
Definition iteration (this : nat) (s : search) : option search :=
  root ← nodes s !! this;
  path ← select_root_to_leaf (ucb (tabs s)) (ucb_opponent (tabs s))
           (nodes s) this (who_take_turns (nboard root));
  leaf ← last path;
  '(t, expand_node, e) ← expand_from_leaf (nodes s) leaf (eng s);
  simulate_and_backup this (extend_path path leaf expand_node) t (tabs s) e.

Fixpoint iterations (N : nat) (this : nat) (s : search) : option search :=
  match N with
  | O => Some s
  | S N' => s' ← iteration this s; iterations N' this s'
  end.

(** [win_rate] as the [float] it returns: [win_rate] above is the blend
    of the two quotients, and the code computes each quotient, each
    product and the sum in [float], so each is the binary32 nearest to
    its exact value; [1 - RAVE_Beta] is 0.5 without rounding. *)
Definition win_rate_binary32 (n : node board) (tb : tables) : option Qc :=
  if (win_cnt n =? 0) && (total_cnt n =? 0) then Some 0%Qc
  else
    q ← Binary32.div_int (win_cnt n) (total_cnt n);
    rw ← lookupZ (rave_win tb) (place_pos n);
    rt ← lookupZ (rave_total tb) (place_pos n);
    rq ← Binary32.div_int rw rt;
    Some (Binary32.nearest
            (Binary32.nearest ((1 - RAVE_Beta) * q)
             + Binary32.nearest (RAVE_Beta * rq)))%Qc.

(** The scan of [select_action] compares the [float]s that [win_rate]
    returns, so the child it keeps is decided by the rounded rates. *)
Definition select_action (this : nat) (s : search) : option action :=
  root ← nodes s !! this;
  match child root with
  | [] => Some action_null
  | _ =>
      c ← best_child (λ ci, n ← nodes s !! ci; win_rate_binary32 n (tabs s))
            (child root);
      cn ← nodes s !! c;
      Some (action_place (place_pos cn) (who_take_turns (nboard root)))
  end.

(** [for(int i = 0; i < N; ++i)] with [int N]: [N] turns, and none when
    [N] is zero or negative. *)
Definition MCTS (N : Z) (this : nat) (s : search) : option action :=
  s' ← iterations (Z.to_nat N) this s;
  select_action this s'.

(** What [take_action] sets up when [N] is not zero: the root
    [node(state)] and both tables assigned 81 zeros. *)
Definition start (state : board) (e : engine) : search :=
  Search [new_node state (-1)]
         (Tables (replicate 81 0) (replicate 81 0) []) e.

(** [take_action] on the branch [if(N)], taken when [N], the [int] read
    from [meta], is not zero; it may be negative.  (With [N] zero the
    player places at random through [action::place::apply], of
    [action.h].) *)
Definition take_action (N : Z) (state : board) (e : engine)
  : option action :=
  MCTS N 0 (start state e).

End Search.
End Rave.

(** ** [hollow_nogo_Parallel_MCTS/agent.h]: root-parallel MCTS *)
Module Par.
Import NoGo.

Section Search.
Context {board : Type} `{NoGoBoard board}.
Context {engine : Type} `{Engine engine}.
Context `{Libm}.

Abbreviation tree := (list (node board)).

Definition win_rate (n : node board) : option Qc :=
  if (win_cnt n =? 0) && (total_cnt n =? 0) then Some 0%Qc
  else Num.fdiv (Num.of_int (win_cnt n)) (Num.of_int (total_cnt n)).

Definition ucb (t : tree) (ci : nat) : option Qc :=
  n ← t !! ci;
  p ← parent n;
  pn ← t !! p;
  if (total_cnt pn =? 0) || (total_cnt n =? 0) then win_rate n
  else
    wr ← win_rate n;
    x ← exploration t n;
    Some (wr + x)%Qc.

Definition ucb_opponent (t : tree) (ci : nat) : option Qc :=
  n ← t !! ci;
  p ← parent n;
  pn ← t !! p;
  if (total_cnt pn =? 0) || (total_cnt n =? 0) then
    wr ← win_rate n; Some (1 - wr)%Qc
  else
    wr ← win_rate n;
    x ← exploration t n;
    Some ((1 - wr) + x)%Qc.

(** One turn of the loop of [back_propagate], for [path[i] = id]. *)
Definition backup_step (this : nat) (winner : Z) (acc : option tree)
  (id : nat) : option tree :=
  t ← acc;
  n ← t !! id;
  let t := <[id := incr_total n]> t in
  root ← t !! this;
  if decide (winner = who_take_turns (nboard root)) then
    n ← t !! id;
    Some (<[id := incr_win n]> t)
  else Some t.

Definition back_propagate (this : nat) (path : list nat) (winner : Z)
  (t : tree) : option tree :=
  foldl (backup_step this winner) (Some t) path.

Record search := Search { nodes : tree; eng : engine }.

Definition extend_path (path : list nat) (leaf expand_node : nat)
  : list nat :=
  if decide (expand_node = leaf) then path else path ++ [expand_node].

Definition simulate_and_backup (this : nat) (path : list nat) (t : tree)
  (e : engine) : option search :=
  back ← last path;
  n ← t !! back;
  '(winner, e) ← simulate_winner n e;
  t ← back_propagate this path winner t;
  Some (Search t e).

Definition iteration (this : nat) (s : search) : option search :=
  root ← nodes s !! this;
  path ← select_root_to_leaf ucb ucb_opponent (nodes s) this
           (who_take_turns (nboard root));
  leaf ← last path;
  '(t, expand_node, e) ← expand_from_leaf (nodes s) leaf (eng s);
  simulate_and_backup this (extend_path path leaf expand_node) t e.

Fixpoint iterations (N : nat) (this : nat) (s : search) : option search :=
  match N with
  | O => Some s
  | S N' => s' ← iteration this s; iterations N' this s'
  end.

(** [win_rate()] as the [float] it returns: [win_rate] above is the
    quotient itself, and [(float)win_cnt / total_cnt] is the binary32
    nearest to the quotient of the two counts converted to [float].  Two
    quotients that differ may give the same [float]. *)
Definition win_rate_binary32 (n : node board) : option Qc :=
  if (win_cnt n =? 0) && (total_cnt n =? 0) then Some 0%Qc
  else Binary32.div_int (win_cnt n) (total_cnt n).

(** The scan of [select_action] compares the [float]s that [win_rate]
    returns, so the child it keeps is decided by the rounded rates. *)
Definition select_action (this : nat) (s : search) : option Z :=
  root ← nodes s !! this;
  match child root with
  | [] => Some (-1)
  | _ =>
      c ← best_child (λ ci, n ← nodes s !! ci; win_rate_binary32 n)
            (child root);
      cn ← nodes s !! c;
      Some (place_pos cn)
  end.

(** [for(int i = 0; i < N; ++i)] with [int N]: [N] turns, and none when
    [N] is zero or negative. *)
Definition MCTS (N : Z) (this : nat) (s : search) : option Z :=
  s' ← iterations (Z.to_nat N) this s;
  select_action this s'.

(** A worker's tree before its search: [new node(state)]. *)
Definition start (state : board) (e : engine) : search :=
  Search [new_node state (-1)] e.

End Search.

(** The histogram of [take_action]: [vote_result] after the loop over
    [majority_vote], and the votes that fell outside it. *)
Definition tally (majority_vote : list Z) : list Z * list Z :=
  foldl (λ acc v,
           if decide (v ≠ -1) then bump acc.1 acc.2 v else acc)
        (replicate 81 0, []) majority_vote.

(** [std::max_element]: [largest] moves to [first] when the element at
    [largest] is less than the one at [first]; [l] is the rest of the
    range, [first] being at index [i]. *)
Fixpoint max_element_from (l : list Z) (i largest : nat) (largest_val : Z)
  : nat :=
  match l with
  | [] => largest
  | x :: l' =>
      if largest_val <? x then max_element_from l' (S i) i x
      else max_element_from l' (S i) largest largest_val
  end.

Definition max_element (l : list Z) : nat :=
  match l with
  | [] => 0%nat
  | x :: l' => max_element_from l' 1 0 x
  end.

(** [take_action] after the parallel region, on the workers' results
    [majority_vote]; [who] is [state.info().who_take_turns]. *)
Definition vote (majority_vote : list Z) (who : Z) : action :=
  let vote_result := (tally majority_vote).1 in
  let iter := max_element vote_result in
  if default 0 (vote_result !! iter) =? 0 then action_null
  else action_place (Z.of_nat iter) who.

End Par.

(** The members of [player], in the parallel file, that are not members
  of [node]. *)
Module ParTurn.
Import NoGo.

Section Turn.
Context {board : Type} `{NoGoBoard board}.
Context {engine : Type} `{Engine engine}.
Context `{Libm}.

Abbreviation tree := (list (node board)).

(** [majority_vote[id] = vote_move]; a write outside the vector is
    undefined behaviour, and has no value here. *)
Definition store (majority_vote : list Z) (id : nat) (vote_move : Z)
  : option (list Z) :=
  if decide (id < length majority_vote)%nat
  then Some (<[id := vote_move]> majority_vote) else None.

(** [take_action] on the branch [if(N)], taken when [N], the [int] read
    from [meta], is not zero.  [thread_num] is [omp_get_num_procs()], and
    [majority_vote] is built with [thread_num] slots, all 0.  The parallel
    region is run by a team of threads numbered from 0, which may be
    smaller than [thread_num]: the thread [id] searches a tree of its own
    from [node(state)], deletes it (see [delete_tree]) and writes what
    [MCTS] returned into [majority_vote[id]].  [workers] holds, for the
    threads 0, 1, ... of the team, the engine as the thread's search finds
    it.  A slot that no thread writes keeps its 0, which the count reads
    as a vote for position 0. *)
Definition take_action (N : Z) (state : board) (thread_num : nat)
  (workers : list engine) : option action :=
  results ← mapM (λ e, Par.MCTS N 0 (Par.start state e)) workers;
  majority_vote ←
    foldl (λ acc '(id, vote_move), mv ← acc; store mv id vote_move)
          (Some (replicate thread_num 0))
          (zip (seq 0 (length results)) results);
  Some (Par.vote majority_vote (who_take_turns state)).

(** [delete_tree(root)]: the nodes deleted, in the order of the
    [delete]s; a child pointer is an index of the arena and never null.
    [fuel] bounds the depth of the recursion. *)
Fixpoint delete_tree (fuel : nat) (t : tree) (root : nat)
  : option (list nat) :=
  match fuel with
  | O => None
  | S fuel' =>
      n ← t !! root;
      match child n with
      | [] => Some [root]
      | cs =>
          deleted ← mapM (delete_tree fuel' t) cs;
          Some (concat deleted ++ [root])
      end
  end.

End Turn.
End ParTurn.

(** ** [2048_expectimax/agent.h]: [adjust_value] *)
Module Adjust.
Import G2048.

Section Adjust.
Context {board : Type} `{Board2048 board}.

(** [net[t][idx] += u]. *)
Definition add_weight (net : Z → Z → Qc) (t idx : Z) (u : Qc)
  : Z → Z → Qc :=
  λ t' idx', if decide (t' = t ∧ idx' = idx) then (net t' idx' + u)%Qc
             else net t' idx'.

(** The body of a loop of [adjust_value] on [b]: the four updates, and the
    term that [sum += ...] adds after them. *)
Definition adjust_tuple (net : Z → Z → Qc) (b : board) (u_split : Qc)
  : (Z → Z → Qc) * Qc :=
  let idx0 := extract_feature6 b 0 1 2 3 4 5 in
  let idx1 := extract_feature6 b 4 5 6 7 8 9 in
  let idx2 := extract_feature6 b 0 1 2 4 5 6 in
  let idx3 := extract_feature6 b 4 5 6 8 9 10 in
  let net := add_weight net 0 idx0 u_split in
  let net := add_weight net 1 idx1 u_split in
  let net := add_weight net 2 idx2 u_split in
  let net := add_weight net 3 idx3 u_split in
  (net, (net 0%Z idx0 + net 1%Z idx1 + net 2%Z idx2 + net 3%Z idx3)%Qc).

(** One [for(int i = 0; i < 4; ++i)] loop of [adjust_value], [n] times. *)
Fixpoint adjust_pass (n : nat) (net : Z → Z → Qc) (sum : Qc) (b : board)
  (u_split : Qc) : (Z → Z → Qc) * Qc * board :=
  match n with
  | O => (net, sum, b)
  | S n' =>
      let '(net, s) := adjust_tuple net b u_split in
      adjust_pass n' net (sum + s)%Qc (rotate_right b) u_split
  end.

(** [adjust_value(after, target)]: the tables after the call and the sum
    returned. *)
Definition adjust_value (net : Z → Z → Qc) (after : board) (target : Qc)
  : (Z → Z → Qc) * Qc :=
  let u_split := (target / Num.of_int 32)%Qc in
  let '(net, sum, b) := adjust_pass 4 net 0%Qc after u_split in
  let b := reflect_horizontal b in
  let '(net, sum, b) := adjust_pass 4 net sum b u_split in
  (net, sum).

End Adjust.
End Adjust.

(** ** [2048_expectimax/agent.h]: the random environment and the dummy
    player *)

(** [popup(engine)], of [std::uniform_int_distribution<int> popup(0, 9)]:
  the number drawn and the engine after the draw. *)
Class Popup (engine : Type) := {
popup : engine → Z * engine;
}.

Module Agents.

(** [action()], [action::slide(op)] and [action::place(pos, tile)]. *)
Inductive action :=
  | action_null
  | action_slide (op : Z)
  | action_place (pos tile : Z).

Section Agents.
Context {board : Type} `{Board2048 board}.
Context {engine : Type} `{Engine engine} `{Popup engine}.

(** The members of [rndenv] and of [dummy_player] that [take_action]
    changes: the array it shuffles and the engine. *)
Record agent_state := AgentState { array : list Z; eng : engine }.

(** [rndenv]: [space] is built as 0, 1, ..., 15. *)
Definition rndenv_start (e : engine) : agent_state :=
  AgentState (seqZ 0 16) e.

(** [dummy_player]: [opcode] is built as 0, 1, 2, 3. *)
Definition dummy_start (e : engine) : agent_state :=
  AgentState (seqZ 0 4) e.

(** [for (int pos : space) { if (after(pos) != 0) continue; ... }]: the
    first position of [space] whose cell is empty. *)
Fixpoint first_empty (after : board) (space : list Z) : option Z :=
  match space with
  | [] => None
  | pos :: space' =>
      if negb (cell after pos =? 0) then first_empty after space'
      else Some pos
  end.

(** [rndenv::take_action]: the action and the environment after the
    call. *)
Definition rndenv_take_action (env : agent_state) (after : board)
  : action * agent_state :=
  let '(space, e) := shuffle (eng env) (array env) in
  match first_empty after space with
  | Some pos =>
      let '(x, e) := popup e in
      let tile := if negb (x =? 0) then 1 else 2 in
      (action_place pos tile, AgentState space e)
  | None => (action_null, AgentState space e)
  end.

(** [for (int op : opcode) { ... if (reward != -1) return ...; }]: the
    first direction of [opcode] in which [before] slides. *)
Fixpoint first_slide (before : board) (opcode : list Z) : option Z :=
  match opcode with
  | [] => None
  | op :: opcode' =>
      let reward := (slide before op).1 in
      if negb (reward =? -1) then Some op else first_slide before opcode'
  end.

(** [dummy_player::take_action]. *)
Definition dummy_take_action (pl : agent_state) (before : board)
  : action * agent_state :=
  let '(opcode, e) := shuffle (eng pl) (array pl) in
  match first_slide before opcode with
  | Some op => (action_slide op, AgentState opcode e)
  | None => (action_null, AgentState opcode e)
  end.

End Agents.
End Agents.

(** ** [agent]: the properties given on construction

  The three [agent.h] share the class [agent]; its constructor splits a
  string of [key=value] pairs and stores them in [meta]. *)

Module Meta.
Import Ascii.AsciiSyntax String.StringSyntax.
Local Open Scope char_scope.
Delimit Scope string_scope with string.

Abbreviation char := Ascii.ascii.
#[export] Instance char_eq_dec : EqDecision char := Ascii.ascii_dec.

(** A [std::string], character by character. *)
Abbreviation str := (list char).
Definition lit (s : String.string) : str := String.list_ascii_of_string s.

(** The white space that [operator>>] skips: space, and the characters 9
    to 13. *)
Definition is_space (c : char) : bool :=
  bool_decide (c ∈ ([" "; "009"; "010"; "011"; "012"; "013"] : list char)).

(** [for (std::string pair; ss >> pair; )]: the runs of characters
    between white space, in order; [cur] is the run being read. *)
Fixpoint tokens_from (cur : str) (s : str) : list str :=
  match s with
  | [] => match cur with [] => [] | _ => [cur] end
  | c :: s' =>
      if is_space c then
        match cur with
        | [] => tokens_from [] s'
        | _ => cur :: tokens_from [] s'
        end
      else tokens_from (cur ++ [c]) s'
  end.

Definition tokens (s : str) : list str := tokens_from [] s.

(** [pair.find('=')], [None] for [npos]. *)
Fixpoint find_eq (pair : str) : option nat :=
  match pair with
  | [] => None
  | c :: pair' => if decide (c = "=") then Some 0%nat else S <$> find_eq pair'
  end.

(** [pair.substr(0, pair.find('='))]: up to [npos] is the whole string. *)
Definition key_of (pair : str) : str :=
  match find_eq pair with Some i => take i pair | None => pair end.

(** [pair.substr(pair.find('=') + 1)]: [npos + 1] is 0, the whole string
    again. *)
Definition value_of (pair : str) : str :=
  match find_eq pair with Some i => drop (S i) pair | None => pair end.

(** [std::map<key, value> meta]. *)
Definition meta : Type := str → option str.

(** [meta[key] = { value }]. *)
Definition assign (m : meta) (key value : str) : meta :=
  λ k, if decide (k = key) then Some value else m k.

(** The loop of the constructor over the pairs read. *)
Definition parse_tokens (m : meta) (toks : list str) : meta :=
  foldl (λ m pair, assign m (key_of pair) (value_of pair)) m toks.

(** [agent(args)]. *)
Definition agent (args : str) : meta :=
  parse_tokens (λ _, None)
    (tokens (lit "name=unknown role=unknown "%string ++ args)).

(** [property(key)]: [meta.at(key)], which throws where this is [None]. *)
Definition property (m : meta) (key : str) : option str := m key.
Definition name (m : meta) : option str := property m (lit "name"%string).
Definition role (m : meta) : option str := property m (lit "role"%string).

(** [notify(msg)]. *)
Definition notify (m : meta) (msg : str) : meta :=
  assign m (key_of msg) (value_of msg).

(** [board::piece_type], as far as the player's constructor uses it. *)
Inductive piece_type := empty | black | white.

(** What [std::stod] does with a string: it throws
    ([std::invalid_argument] when it finds no number to convert,
    [std::out_of_range]), or it returns a [double], which is a rational or,
    for an infinity or a NaN, is not. *)
Inductive converted :=
  | stod_throws
  | stod_finite (d : Qc)
  | stod_not_finite.

(** [std::stod], which [agent.h] calls and the C++ library defines. *)
Class Stod := {
stod : str → converted;
}.

(** [int(meta[key])], which is [int(std::stod(value))].  The conversion
    of a [double] to [int] drops the fraction, and is undefined when the
    result does not fit an [int].  [None] where [std::stod] throws or the
    conversion is undefined. *)
Definition to_int `{Stod} (value : str) : option Z :=
  match stod value with
  | stod_finite d =>
      let z := Z.quot (Qnum d) (Z.pos (Qden d)) in
      if (-2147483648 <=? z) && (z <=? 2147483647) then Some z else None
  | _ => None
  end.

(** [random_agent(args)], in the two NoGo files: [meta], and the seed
    given to the engine, [None] standing for [(unsigned)time(NULL)], which
    is used when the arguments hold no seed. *)
Definition random_agent `{Stod} (args : str) : option (meta * option Z) :=
  let m := agent args in
  match m (lit "seed"%string) with
  | Some value => seed ← to_int value; Some (m, Some seed)
  | None => Some (m, None)
  end.

(** The constructor of the NoGo [player], without the vector [space]:
    [meta], the seed of the engine and [who].  [None] where the
    constructor of [random_agent] has no result or the body throws
    [std::invalid_argument]. *)
Definition player `{Stod} (args : str)
  : option (meta * option Z * piece_type) :=
  '(m, seed) ← random_agent
                 (lit "name=random role=unknown N=0 "%string ++ args);
  n ← name m;
  if existsb (λ c, bool_decide (c ∈ lit "[]():; "%string)) n then None
  else
    r ← role m;
    let who := empty in
    let who := if decide (r = lit "black"%string) then black else who in
    let who := if decide (r = lit "white"%string) then white else who in
    match who with empty => None | _ => Some (m, seed, who) end.

End Meta.

(** ** A NoGo board, an engine and a libm to run the search on *)

(** Modelled from the spec: [board.h] of the NoGo framework is not among the
  sources.  A 9x9 board on which the side to move may play every empty
  cell: a legal placement puts its stone and flips the turn, any other
  leaves the board unchanged.  (The liberty rule of NoGo, which refuses
  more placements, is in the missing file.) *)
Module Open81.

Record board := Board { stones : list Z; turn : Z }.

Definition empty_board : board := Board (replicate 81 0) NoGo.black.

Definition place (b : board) (pos : Z) : option board :=
  if (0 <=? pos) && (pos <? 81)
     && (default 1 (stones b !! Z.to_nat pos) =? 0)
  then Some (Board (<[Z.to_nat pos := turn b]> (stones b)) (3 - turn b))
  else None.

#[global] Instance open81 : NoGoBoard board :=
  Build_NoGoBoard board place turn.

End Open81.

(** An engine that follows a script: each shuffle rotates the vector by the
  next offset of the script (and leaves it as it is once the script has
  run out). *)
Module Script.

Definition engine : Type := list nat.

Definition shuffle (e : engine) (l : list Z) : list Z * engine :=
  match e with
  | [] => (l, [])
  | k :: e' => (drop k l ++ take k l, e')
  end.

Lemma shuffle_perm (e : engine) (l : list Z) : (shuffle e l).1 ≡ₚ l.
Proof.
  destruct e as [|k e]; simpl; [done|].
  rewrite Permutation_app_comm. by rewrite take_drop.
Qed.

#[global] Instance script : Engine engine :=
  Build_Engine engine shuffle shuffle_perm.

End Script.

(** Rational stand-ins for [std::log] and [std::sqrt]. *)
Definition coarse_libm : Libm :=
{| flog := λ z, Num.of_int (Z.log2 z);
   fsqrt := λ q, Num.of_int (Z.sqrt (Qnum q / Z.pos (Qden q))) |}.

(** A stand-in for [std::stod] on the strings used below: a string of
  decimal digits converts to the number it writes, and every other string
  makes it throw.  (The library function converts more strings than
  these.) *)
Module Decimal.
Import Meta.

Definition digit (c : char) : option Z :=
  let n := Z.of_nat (Ascii.nat_of_ascii c) in
  if (48 <=? n) && (n <=? 57) then Some (n - 48) else None.

Definition stod (s : str) : converted :=
  match s, mapM digit s with
  | _ :: _, Some ds => stod_finite (Num.of_int (foldl (λ a d, 10 * a + d) 0 ds))
  | _, _ => stod_throws
  end.

Definition decimal_stod : Stod := {| Meta.stod := stod |}.

End Decimal.

(** * Properties *)

(** ** The value estimator and the symmetries of the board *)

Module D4.
Import G2048.

(** The generators of the dihedral group, as [estimate_value] applies
    them; a word is a composition, its head applied first. *)
Inductive gen := RotateRight | ReflectHorizontal.

Definition apply1 `{Board2048 board} (g : gen) (b : board) : board :=
  match g with
  | RotateRight => rotate_right b
  | ReflectHorizontal => reflect_horizontal b
  end.

Definition act `{Board2048 board} (w : list gen) (b : board) : board :=
  foldl (λ b g, apply1 g b) b w.

Definition gsrc (g : gen) : Z → Z :=
  match g with RotateRight => rot_src | ReflectHorizontal => ref_src end.

(** The cell of [b] that [act w b] shows at [pos]. *)
Fixpoint src (w : list gen) (pos : Z) : Z :=
  match w with
  | [] => pos
  | g :: w' => gsrc g (src w' pos)
  end.

(** Two words that move the sixteen cells alike. *)
Definition same_src (w1 w2 : list gen) : bool :=
  forallb (λ pos, src w1 pos =? src w2 pos) (seqZ 0 16).

(** The words of the eight boards [estimate_value] looks at, in its
    order: four quarter turns, the mirror, four quarter turns. *)
Definition view_words : list (list gen) :=
  let R := RotateRight in
  let F := ReflectHorizontal in
  [ []; [R]; [R; R]; [R; R; R];
    [R; R; R; R; F]; [R; R; R; R; F; R]; [R; R; R; R; F; R; R];
    [R; R; R; R; F; R; R; R] ].

(** [view_words] in the order in which the views of [apply1 g b] show
    them. *)
Definition turned_words (g : gen) : list (list gen) :=
  match g, view_words with
  | RotateRight, [w0; w1; w2; w3; w4; w5; w6; w7] =>
      [w1; w2; w3; w0; w7; w4; w5; w6]
  | ReflectHorizontal, [w0; w1; w2; w3; w4; w5; w6; w7] =>
      [w4; w5; w6; w7; w0; w1; w2; w3]
  | _, _ => []
  end.

Lemma turned_perm (g : gen) : turned_words g ≡ₚ view_words.
Proof.
  destruct g; unfold turned_words, view_words.
  - match goal with |- [?a; ?b; ?c; ?d; ?e; ?f; ?g; ?h] ≡ₚ _ =>
      change (([a; b; c] ++ [d]) ++ ([e] ++ [f; g; h])
              ≡ₚ ([d] ++ [a; b; c]) ++ ([f; g; h] ++ [e]))
    end.
    apply Permutation_app; apply Permutation_app_comm.
  - match goal with |- [?a; ?b; ?c; ?d; ?e; ?f; ?g; ?h] ≡ₚ _ =>
      change ([a; b; c; d] ++ [e; f; g; h] ≡ₚ [e; f; g; h] ++ [a; b; c; d])
    end.
    apply Permutation_app_comm.
Qed.

Lemma turned_same (g : gen) :
  Forall2 (λ w w', same_src (g :: w) w' = true)
          view_words (turned_words g).
Proof. destruct g; repeat constructor. Qed.

Section Invariance.
Context {board : Type} `{Board2048Laws board}.
Context {F : Type} `{Weight F}.
Variable net : Z → Z → F.

Lemma in_grid (pos : Z) :
  0 ≤ pos < 16 → pos ∈ seqZ 0 16.
Proof. intros. apply elem_of_seqZ. lia. Qed.

Lemma gsrc_range (g : gen) (pos : Z) :
  0 ≤ pos < 16 → 0 ≤ gsrc g pos < 16.
Proof.
  intros Hpos. destruct g; unfold gsrc, rot_src, ref_src.
  - pose proof (Z.mod_pos_bound pos 4). 
    assert (0 ≤ pos / 4 < 4) by (split; [apply Z.div_pos|apply Z.div_lt_upper_bound]; lia).
    lia.
  - pose proof (Z.mod_pos_bound pos 4).
    assert (0 ≤ pos / 4 < 4) by (split; [apply Z.div_pos|apply Z.div_lt_upper_bound]; lia).
    lia.
Qed.

Lemma src_range (w : list gen) (pos : Z) :
  0 ≤ pos < 16 → 0 ≤ src w pos < 16.
Proof. induction w; simpl; intros; [done|]. apply gsrc_range; auto. Qed.

Lemma apply1_cell (g : gen) (b : board) (pos : Z) :
  0 ≤ pos < 16 → cell (apply1 g b) pos = cell b (gsrc g pos).
Proof.
  destruct g; simpl; [apply rotate_right_cell|apply reflect_horizontal_cell].
Qed.

Lemma act_cell (w : list gen) (b : board) (pos : Z) :
  0 ≤ pos < 16 → cell (act w b) pos = cell b (src w pos).
Proof.
  revert b. induction w as [|g w IH]; intros b Hpos; simpl; [done|].
  unfold act in *. simpl. rewrite IH by done.
  apply apply1_cell. by apply src_range.
Qed.

Lemma act_app (w1 w2 : list gen) (b : board) :
  act (w1 ++ w2) b = act w2 (act w1 b).
Proof. unfold act. apply foldl_app. Qed.

(** [tuple_sum] reads the cells 0 to 10 and nothing else. *)
Lemma tuple_sum_cells (b1 b2 : board) :
  (∀ pos, 0 ≤ pos < 16 → cell b1 pos = cell b2 pos) →
  tuple_sum net b1 = tuple_sum net b2.
Proof.
  intros Hc. unfold tuple_sum, extract_feature6.
  by rewrite !Hc by lia.
Qed.

Lemma tuple_sum_same_src (w1 w2 : list gen) (b : board) :
  same_src w1 w2 = true →
  tuple_sum net (act w1 b) = tuple_sum net (act w2 b).
Proof.
  intros Hs. apply tuple_sum_cells. intros pos Hpos.
  rewrite !act_cell by done. f_equal.
  unfold same_src in Hs. rewrite forallb_forall in Hs.
  apply Z.eqb_eq, Hs, list_elem_of_In, in_grid, Hpos.
Qed.

(** [estimate_value] adds [tuple_sum] of the eight views, in order. *)
Definition view_sums (b : board) : list F :=
  (λ w, tuple_sum net (act w b)) <$> view_words.

Lemma estimate_value_views (b : board) :
  estimate_value net b = foldl fadd fzero (view_sums b).
Proof. reflexivity. Qed.

(** The views of a turned or mirrored board are the views of the board,
    in another order. *)
Lemma view_sums_apply1 (g : gen) (b : board) :
  view_sums (apply1 g b) ≡ₚ view_sums b.
Proof.
  assert (view_sums (apply1 g b)
          = (λ w, tuple_sum net (act w b)) <$> turned_words g) as ->.
  { unfold view_sums. pose proof (turned_same g) as HF.
    induction HF as [|w w' l l' Hw _ IH]; [done|].
    rewrite !fmap_cons, IH. f_equal.
    apply (tuple_sum_same_src (g :: w) w' b Hw). }
  unfold view_sums. by rewrite (turned_perm g).
Qed.

Lemma view_sums_act (w : list gen) (b : board) :
  view_sums (act w b) ≡ₚ view_sums b.
Proof.
  revert b. induction w as [|g w IH]; intros b; [done|].
  change (act (g :: w) b) with (act w (apply1 g b)).
  rewrite IH. apply view_sums_apply1.
Qed.

(** A sum from the left does not depend on the order of its terms when
    the addition is associative and commutative. *)
Lemma foldl_fadd_perm (l1 l2 : list F) :
  Assoc (=) (@fadd F _) → Comm (=) (@fadd F _) →
  l1 ≡ₚ l2 → ∀ s, foldl fadd s l1 = foldl fadd s l2.
Proof.
  intros HA HC Hp. induction Hp as [|x l l' _ IH|x y l|l l' l'' _ IH1 _ IH2];
    intros s; simpl.
  - done.
  - apply IH.
  - f_equal. rewrite <- !(assoc_L fadd). f_equal. apply (comm_L fadd).
  - by rewrite IH1.
Qed.

(** C4 (as amended): for every board [b] and every composition [w] of
    [rotate_right] and [reflect_horizontal], [estimate_value] reads on
    [act w b] the 32 table entries it reads on [b], the eight views coming
    in another order; so the two values are equal whenever the addition of
    weights is associative and commutative. *)
Theorem estimate_value_dihedral (w : list gen) (b : board) :
  Assoc (=) (@fadd F _) → Comm (=) (@fadd F _) →
  view_sums (act w b) ≡ₚ view_sums b
  ∧ estimate_value net (act w b) = estimate_value net b.
Proof.
  intros HA HC. split; [apply view_sums_act|].
  rewrite !estimate_value_views.
  apply foldl_fadd_perm; [done..|]. apply view_sums_act.
Qed.

End Invariance.

(** The board of [Board16] turns and mirrors as [Board2048Laws] says. *)
Lemma board16_permute_cell (f : Z → Z) (b : Board16.board) (pos : Z) :
  0 ≤ pos < 16 →
  Board16.cell (Board16.permute f b) pos = Board16.cell b (f pos).
Proof.
  intros Hpos. unfold Board16.cell at 1, Board16.permute.
  rewrite (proj2 (Z.leb_le 0 pos)) by lia.
  rewrite list_lookup_fmap, lookup_seqZ_lt by lia. simpl.
  do 2 f_equal. lia.
Qed.

#[global] Instance board16_laws : Board2048Laws Board16.board.
Proof. split; intros; by apply board16_permute_cell. Qed.

(** A table of weights and a board to run [estimate_value] on. *)
Definition sample_net : Z → Z → Qc := λ t idx, Num.of_int (t + idx mod 7).
Definition sample_board : Board16.board :=
  [0; 1; 3; 5; 3; 2; 4; 3; 4; 1; 2; 1; 5; 4; 1; 2].

Lemma estimate_value_dihedral_witness :
  estimate_value sample_net
    (act [RotateRight; ReflectHorizontal; RotateRight] sample_board)
  = estimate_value sample_net sample_board.
Proof.
  apply (estimate_value_dihedral sample_net
           [RotateRight; ReflectHorizontal; RotateRight] sample_board).
  - exact Qcplus_assoc.
  - exact Qcplus_comm.
Defined.

(** Weights -2^24, 1 and 2^24 in table 0 at the indices of the first three
    views of the board 0, 1, ..., 15; every other weight is 0. *)
Definition rounding_net : Z → Z → Z := λ t idx,
  if t =? 0 then
    if idx =? 74565 then 16777216
    else if idx =? 13123801 then 1
    else if idx =? 16702650 then -16777216
    else 0
  else 0.
Definition rounding_board : Board16.board := seqZ 0 16.

(** C4 (counterexample): with the addition of binary32, the views of
    [rounding_board] add up to 0 and those of the turned board, the same
    numbers in another order, to 1. *)
Lemma estimate_value_binary32_order :
  estimate_value (H0 := f32int_weight) rounding_net rounding_board = 0
  ∧ estimate_value (H0 := f32int_weight) rounding_net
      (rotate_right rounding_board) = 1
  ∧ ¬ (∀ (w : list gen) (b : Board16.board),
         estimate_value (H0 := f32int_weight) rounding_net (act w b)
         = estimate_value (H0 := f32int_weight) rounding_net b).
Proof.
  split; [by vm_compute|]. split; [by vm_compute|].
  intros Hinv. specialize (Hinv [RotateRight] rounding_board).
  vm_compute in Hinv. discriminate Hinv.
Qed.

End D4.

(** ** The chance node: [expectation] *)

(** What the scans need of [<] on [float]: no number is below itself, and
  [<] is transitive.  Both hold of the rationals and of IEEE 754, NaN
  included. *)
Class ArithLaws (F : Type) `{Arith F} : Prop := {
float_lt_irrefl : ∀ a : F, float_lt a a = false;
float_lt_trans : ∀ a b c : F,
  float_lt a b = true → float_lt b c = true → float_lt a c = true;
}.

Module Expectimax.
Import G2048.

(** The sum of a list of rationals. *)
Definition sum_list (l : list Qc) : Qc := foldr Qcplus 0%Qc l.

Lemma flt_lt (a b : Qc) : Num.flt a b = true ↔ (a < b)%Qc.
Proof.
  unfold Num.flt, Qclt, Qccompare. rewrite Qlt_alt.
  destruct (this a ?= this b)%Q; naive_solver.
Qed.

#[global] Instance Qc_arith_laws : ArithLaws Qc.
Proof.
  split.
  - intros a. simpl. destruct (Num.flt a a) eqn:E; [|done].
    apply flt_lt in E. by apply Qclt_not_eq in E.
  - intros a b c. simpl. rewrite !flt_lt. apply Qclt_trans.
Qed.

Lemma SFltb_irrefl (x : SpecFloat.spec_float) : SpecFloat.SFltb x x = false.
Proof.
  unfold SpecFloat.SFltb, SpecFloat.SFcompare.
  destruct x as [[]|[]| |[] m e]; try done.
  - rewrite Z.compare_refl.
    change (Pos.compare_cont Eq m m) with (m ?= m)%positive.
    by rewrite Pos.compare_refl.
  - rewrite Z.compare_refl.
    change (Pos.compare_cont Eq m m) with (m ?= m)%positive.
    by rewrite Pos.compare_refl.
Qed.

Lemma SFltb_trans (x y z : SpecFloat.spec_float) :
  SpecFloat.SFltb x y = true → SpecFloat.SFltb y z = true →
  SpecFloat.SFltb x z = true.
Proof.
  unfold SpecFloat.SFltb, SpecFloat.SFcompare.
  destruct x as [[]|[]| |[] mx ex], y as [[]|[]| |[] my ey],
    z as [[]|[]| |[] mz ez]; try done.
  - change (Pos.compare_cont Eq my mx) with (my ?= mx)%positive.
    change (Pos.compare_cont Eq mz my) with (mz ?= my)%positive.
    change (Pos.compare_cont Eq mz mx) with (mz ?= mx)%positive.
    change (Pos.compare_cont Eq mx my) with (mx ?= my)%positive.
    change (Pos.compare_cont Eq my mz) with (my ?= mz)%positive.
    change (Pos.compare_cont Eq mx mz) with (mx ?= mz)%positive.
    destruct (Z.compare_spec ex ey), (Z.compare_spec ey ez),
      (Z.compare_spec ex ez); try done; try lia;
      destruct (Pos.compare_spec mx my), (Pos.compare_spec my mz),
        (Pos.compare_spec mx mz); simpl; try done; lia.
  - change (Pos.compare_cont Eq mx my) with (mx ?= my)%positive.
    change (Pos.compare_cont Eq my mz) with (my ?= mz)%positive.
    change (Pos.compare_cont Eq mx mz) with (mx ?= mz)%positive.
    destruct (Z.compare_spec ex ey), (Z.compare_spec ey ez),
      (Z.compare_spec ex ez); try done; try lia;
      destruct (Pos.compare_spec mx my), (Pos.compare_spec my mz),
        (Pos.compare_spec mx mz); simpl; try done; lia.
Qed.

#[global] Instance float_arith_laws : ArithLaws SpecFloat.spec_float.
Proof. split; [exact SFltb_irrefl|exact SFltb_trans]. Qed.



Section Spec.
Context {board : Type} `{Board2048 board}.
Context {F : Type} `{Weight F} `{Arith F}.
Variable net : Z → Z → F.

(** The sixteen positions of the board and the four directions. *)
Definition cells16 : list Z :=
  [0; 1; 2; 3; 4; 5; 6; 7; 8; 9; 10; 11; 12; 13; 14; 15].


(** The empty positions of [A], in increasing order. *)
Definition empty_positions (A : board) : list Z :=
  filter (λ pos, cell A pos = 0) cells16.

(** [(0.9 V2 + 0.1 V4) / E], computed in [double]. *)
Definition chance_term (V2 V4 : F) (E : Z) : double :=
  double_div
    (double_add (double_mul (float_to_double V2) double_09)
                (double_mul (float_to_double V4) double_01))
    (double_of_int E).

(** The sum of the terms, added one after the other to a [float] that
    starts at 0. *)
Definition float_sum (terms : list double) : F :=
  foldl (λ result term,
           double_to_float (double_add (float_to_double result) term))
        fzero terms.




Lemma count_empty_length (A : board) :
  count_empty A = Z.of_nat (length (empty_positions A)).
Proof.
  unfold count_empty, empty_positions. change positions with cells16.
  enough (∀ l n, foldl (λ empty_space pos,
                   if cell A pos =? 0 then empty_space + 1 else empty_space)
                 n l
                 = n + Z.of_nat (length (filter (λ pos, cell A pos = 0) l)))
    as G by (rewrite G; lia).
  induction l as [|p l IH]; intros n; simpl; [lia|].
  rewrite IH. rewrite filter_cons.
  destruct (Z.eqb_spec (cell A p) 0); case_decide; try done; simpl; lia.
Qed.

Lemma expectation_fold (A : board) (g : Z → double) (l : list Z) (r : F) :
  foldl (λ result pos,
           if negb (cell A pos =? 0) then result
           else double_to_float (double_add (float_to_double result) (g pos)))
        r l
  = foldl (λ result term,
             double_to_float (double_add (float_to_double result) term))
          r (g <$> filter (λ pos, cell A pos = 0%Z) l).
Proof.
  revert r. induction l as [|p l IH]; intros r; simpl; [done|].
  rewrite IH, filter_cons.
  by destruct (Z.eqb_spec (cell A p) 0); case_decide.
Qed.

Lemma expectation_float_sum (A : board) :
  expectation net A
  = float_sum ((λ p, chance_term (best_slide net (place_tile A p 1))
                                 (best_slide net (place_tile A p 2))
                                 (count_empty A))
               <$> empty_positions A).
Proof.
  unfold expectation. change positions with cells16.
  apply (expectation_fold A
           (λ pos, chance_term (best_slide net (place_tile A pos 1))
                               (best_slide net (place_tile A pos 2))
                               (count_empty A))).
Qed.


End Spec.

(** Weights that are small integers, in the arithmetic of the machine. *)
Definition float_net : Z → Z → SpecFloat.spec_float :=
  λ t idx, IEEE.of_int 24 128 (t + idx mod 7).


(** Without rounding the [float] sum is the sum: [expectation A] is the
    rational number that the formula of the chance node denotes. *)
Lemma expectation_exact `{Board2048 board} (net : Z → Z → Qc) (A : board) :
  expectation net A
  = sum_list ((λ p, (Num.c09 * best_slide net (place_tile A p 1)
                     + Num.c01 * best_slide net (place_tile A p 2))
                    / Num.of_int (Z.of_nat (length (empty_positions A))))%Qc
              <$> empty_positions A).
Proof.
  rewrite expectation_float_sum, count_empty_length.
  set (E := Z.of_nat (length (empty_positions A))).
  set (g := λ p, ((Num.c09 * best_slide net (place_tile A p 1)
                   + Num.c01 * best_slide net (place_tile A p 2))
                  / Num.of_int E)%Qc).
  assert (Hsum : ∀ (l : list Qc) (r : Qc),
            foldl (λ result term : Qc, (result + term)%Qc) r l
            = (r + sum_list l)%Qc).
  { induction l as [|x l IH]; intros r; simpl.
    - unfold sum_list; simpl. by rewrite Qcplus_0_r.
    - rewrite IH. unfold sum_list; simpl. by rewrite Qcplus_assoc. }
  assert (Hterms : (λ p, chance_term (best_slide net (place_tile A p 1))
                           (best_slide net (place_tile A p 2)) E)
                   <$> empty_positions A
                   = g <$> empty_positions A).
  { apply list_fmap_ext. intros _ p _. unfold chance_term, g. simpl.
    f_equal. ring. }
  rewrite Hterms.
  change (foldl (λ result term : Qc, (result + term)%Qc) 0%Qc
            (g <$> empty_positions A)
          = sum_list (g <$> empty_positions A)).
  rewrite Hsum. by rewrite Qcplus_0_l.
Qed.

End Expectimax.

(** ** The player's choice: [take_action] of the 2048 player *)

Module Choose.
Import G2048.

(** All weights zero, as [init_weights] leaves the tables. *)
Definition zero_net : Z → Z → Qc := λ _ _, 0%Qc.

(** Tiles 2 8 32 / 8 4 16 8 / 16 2 4 2 / 32 16 2 4, the top left cell
    empty.  Sliding up or left moves tiles without a merge and leaves one
    empty cell; whichever tile then appears there, nothing slides. *)
Definition last_move_board : Board16.board :=
  [0; 1; 3; 5;
   3; 2; 4; 3;
   4; 1; 2; 1;
   5; 4; 1; 2].

Section Scan.
Context {board : Type} `{Board2048 board}.
Context {F : Type} `{Weight F} `{Arith F}.
Variable net : Z → Z → F.

(** The state of the scan of [take_action] after the directions [ds],
    from the state [acc]. *)
Definition scan (before : board) (acc : choice F) (ds : list Z) : choice F :=
  foldl (λ acc i,
           let '(reward, b) := slide before i in
           if reward =? -1 then acc
           else
             let v := fadd (float_of_int reward) (expectation net b) in
             if float_lt (val_max acc) v then Choice v reward i else acc)
        acc ds.

(** [take_action] scans the directions 0, 1, 2, 3. *)
Lemma take_action_scan (before : board) :
  take_action net before
  = scan before (Choice float_lowest (-2147483648) (-1)) [0; 1; 2; 3].
Proof. reflexivity. Qed.

(** When no direction slides, the scan changes nothing: [take_action]
    returns [action::slide(-1)]. *)
Lemma take_action_no_slide (before : board) :
  (∀ i, 0 ≤ i < 4 → (slide before i).1 = -1) →
  take_action net before = Choice float_lowest (-2147483648) (-1).
Proof.
  intros Hall. rewrite take_action_scan. unfold scan.
  assert (Hds : ∀ i, i ∈ [0; 1; 2; 3] → (slide before i).1 = -1).
  { intros i Hi. apply Hall. change [0; 1; 2; 3] with (seqZ 0 4) in Hi.
    apply elem_of_seqZ in Hi. lia. }
  clear Hall. revert Hds.
  generalize (Choice float_lowest (-2147483648) (-1)) as acc.
  induction [0; 1; 2; 3] as [|i ds IH]; intros acc Hall; simpl; [done|].
  pose proof (Hall i ltac:(constructor)) as Hi.
  destruct (slide before i) as [reward b]; simpl in Hi; subst reward.
  simpl. apply IH. intros j Hj. apply Hall. by constructor.
Qed.

End Scan.

(** C6 (the code at the failing input): [last_move_board] slides up and
    left, both with reward 0, and [take_action] leaves [op] at -1, [vs] at
    [-FLT_MAX] and [r] at -2147483648: each legal direction is worth
    [0 + expectation = -FLT_MAX], which is not greater than the value the
    scan starts from. *)
Lemma take_action_last_move :
  (slide last_move_board 0).1 = 0
  ∧ (slide last_move_board 3).1 = 0
  ∧ expectation zero_net (slide last_move_board 0).2 = (- Num.FLT_MAX)%Qc
  ∧ expectation zero_net (slide last_move_board 3).2 = (- Num.FLT_MAX)%Qc
  ∧ take_action zero_net last_move_board
    = Choice (- Num.FLT_MAX)%Qc (-2147483648) (-1).
Proof.
  repeat split; by vm_compute.
Qed.

(** The same board in the arithmetic of the machine, all weights +0: the
    two values are [-FLT_MAX] again, and [op] stays at -1. *)
Definition zero_net_float : Z → Z → SpecFloat.spec_float :=
  λ _ _, SpecFloat.S754_zero false.

Lemma take_action_last_move_float :
  expectation zero_net_float (slide last_move_board 0).2
  = SpecFloat.SFopp IEEE.FLT_MAX
  ∧ expectation zero_net_float (slide last_move_board 3).2
    = SpecFloat.SFopp IEEE.FLT_MAX
  ∧ take_action zero_net_float last_move_board
    = Choice (SpecFloat.SFopp IEEE.FLT_MAX) (-2147483648) (-1).
Proof.
  repeat split; by vm_compute.
Qed.

(** Tiles . 2 8 16 / 4 8 16 8 / 8 16 8 16 / 16 8 16 8, all weights zero:
    a 2 in the empty cell merges with the 2 beside it for a reward of 4,
    a 4 with the 4 below it for a reward of 8, so that the chance node is
    worth [0.9 * 4 + 0.1 * 8].  Without rounding that is 22/5; the [float]
    the code returns is 9227469 / 2^21, the binary32 nearest to it. *)
Definition merge_board : Board16.board :=
  [0; 1; 3; 4;
   2; 3; 4; 3;
   3; 4; 3; 4;
   4; 3; 4; 3].

Lemma expectation_rounds :
  expectation zero_net merge_board = (Num.of_int 22 / Num.of_int 5)%Qc
  ∧ expectation zero_net_float merge_board
    = SpecFloat.S754_finite false 9227469 (-21).
Proof.
  split; [by vm_compute|by vm_compute].
Qed.

(** Tiles 4 16 2 4 / 4 2 4 2 / 16 8 2 4 / 32 16 4 2: only the two 4 of
    the first column merge, sliding up or down with reward 8, and either
    way the one empty cell is left between tiles above 4, so that nothing
    slides after the next tile.  Both directions are worth
    [8 + -FLT_MAX].  Without rounding this is above [-FLT_MAX], and up
    is chosen; in [float] the sum is [-FLT_MAX] itself, and [op] stays at
    -1. *)
Definition absorbed_board : Board16.board :=
  [2; 4; 1; 2;
   2; 1; 2; 1;
   4; 3; 1; 2;
   5; 4; 2; 1].

Lemma take_action_reward_absorbed :
  (slide absorbed_board 0).1 = 8
  ∧ (slide absorbed_board 2).1 = 8
  ∧ take_action zero_net absorbed_board
    = Choice (Num.of_int 8 - Num.FLT_MAX)%Qc 8 0
  ∧ take_action zero_net_float absorbed_board
    = Choice (SpecFloat.SFopp IEEE.FLT_MAX) (-2147483648) (-1).
Proof.
  repeat split; by vm_compute.
Qed.

End Choose.

(** ** The value of a node: [win_rate] *)

Module WinRate.
Import NoGo.

(** The spec's win rate [Q], RAVE rate and blended value of a node. *)
Definition Q_spec {board} (n : node board) : Qc :=
  if total_cnt n =? 0 then 0%Qc
  else (Num.of_int (win_cnt n) / Num.of_int (total_cnt n))%Qc.

Definition rave_rate_spec {board} (n : node board) (tb : Rave.tables)
  : Qc :=
  match lookupZ (Rave.rave_win tb) (place_pos n),
        lookupZ (Rave.rave_total tb) (place_pos n) with
  | Some rw, Some rt =>
      if 0 <? rt then (Num.of_int rw / Num.of_int rt)%Qc else 0%Qc
  | _, _ => 0%Qc
  end.

Definition blended_spec {board} (n : node board) (tb : Rave.tables) : Qc :=
  ((1 - Num.c05) * Q_spec n + Num.c05 * rave_rate_spec n tb)%Qc.

Lemma of_int_ne_0 (z : Z) : z ≠ 0 → Num.of_int z ≠ 0%Qc.
Proof.
  intros Hz E. apply Hz. apply Z2Qc_inj. rewrite Z2Qc_inj_0. exact E.
Qed.

Lemma fdiv_ne_0 (a : Z) (b : Z) :
  b ≠ 0 →
  Num.fdiv (Num.of_int a) (Num.of_int b)
  = Some (Num.of_int a / Num.of_int b)%Qc.
Proof.
  intros Hb. unfold Num.fdiv. case_decide as E; [|done].
  by apply of_int_ne_0 in E.
Qed.

Lemma fdiv_0 (a : Qc) : Num.fdiv a (Num.of_int 0) = None.
Proof.
  unfold Num.fdiv. case_decide as E; [done|].
  exfalso. apply E. apply Z2Qc_inj_0.
Qed.

(** C3 (as amended): [win_rate] of either player returns 0 when [win_cnt]
    and [total_cnt] are both 0, whatever the RAVE tables hold.  When
    [total_cnt] is not 0, the parallel player's [win_rate] is
    [win_cnt / total_cnt], with no RAVE term; the RAVE player's is
    [0.5 * win_cnt / total_cnt + 0.5 * rave_win[p] / rave_total[p]] for
    [p = place_pos] inside the tables with [rave_total[p] > 0], and has no
    value when [rave_total[p]] is 0: that division is not guarded.  When
    [total_cnt] is 0 and [win_cnt] is not, neither has a value. *)
Theorem win_rate_cases {board} (n : node board) (tb : Rave.tables) :
  (win_cnt n = 0 ∧ total_cnt n = 0 →
     Rave.win_rate n tb = Some 0%Qc ∧ Par.win_rate n = Some 0%Qc)
  ∧ (total_cnt n ≠ 0 → Par.win_rate n = Some (Q_spec n))
  ∧ (total_cnt n ≠ 0 →
     ∀ rw rt, lookupZ (Rave.rave_win tb) (place_pos n) = Some rw →
              lookupZ (Rave.rave_total tb) (place_pos n) = Some rt →
              0 < rt →
              Rave.win_rate n tb = Some (blended_spec n tb)
              ∧ blended_spec n tb
                = (Num.c05 * (Num.of_int (win_cnt n)
                              / Num.of_int (total_cnt n))
                   + Num.c05 * (Num.of_int rw / Num.of_int rt))%Qc)
  ∧ (total_cnt n ≠ 0 →
     ∀ rw, lookupZ (Rave.rave_win tb) (place_pos n) = Some rw →
           lookupZ (Rave.rave_total tb) (place_pos n) = Some 0 →
           Rave.win_rate n tb = None)
  ∧ (total_cnt n = 0 → win_cnt n ≠ 0 →
     Rave.win_rate n tb = None ∧ Par.win_rate n = None).
Proof.
  unfold Rave.win_rate, Par.win_rate.
  split; [|split; [|split; [|split]]].
  - intros [-> ->]. done.
  - intros Ht. unfold Q_spec.
    rewrite (proj2 (Z.eqb_neq (total_cnt n) 0) Ht), andb_false_r.
    by apply fdiv_ne_0.
  - intros Ht rw rt Hrw Hrt Hpos.
    assert (Hb : blended_spec n tb
                 = (Num.c05 * (Num.of_int (win_cnt n)
                               / Num.of_int (total_cnt n))
                    + Num.c05 * (Num.of_int rw / Num.of_int rt))%Qc).
    { unfold blended_spec, Q_spec, rave_rate_spec.
      rewrite Hrw, Hrt, (proj2 (Z.eqb_neq (total_cnt n) 0) Ht).
      rewrite (proj2 (Z.ltb_lt 0 rt) Hpos). f_equal. }
    split; [|done]. rewrite Hb.
    rewrite (proj2 (Z.eqb_neq (total_cnt n) 0) Ht), andb_false_r.
    rewrite fdiv_ne_0 by done. simpl. rewrite Hrw, Hrt. simpl.
    rewrite fdiv_ne_0 by lia. simpl. done.
  - intros Ht rw Hrw Hrt.
    rewrite (proj2 (Z.eqb_neq (total_cnt n) 0) Ht), andb_false_r.
    rewrite fdiv_ne_0 by done. simpl. rewrite Hrw, Hrt. simpl.
    by rewrite ?fdiv_0.
  - intros Ht Hw. rewrite Ht.
    rewrite (proj2 (Z.eqb_neq (win_cnt n) 0) Hw). simpl.
    by rewrite ?fdiv_0.
Qed.

(** A node just expanded at position 3, and tables in which position 3
    has been played twice and won once. *)
Definition fresh_node : node unit := new_node () 3.
Definition used_tables : Rave.tables :=
  Rave.Tables (<[3%nat := 2]> (replicate 81 0))
              (<[3%nat := 1]> (replicate 81 0)) [].
(** A node visited once, and tables still at zero. *)
Definition visited_node : node unit := incr_total (new_node () 3).
Definition zero_tables : Rave.tables :=
  Rave.Tables (replicate 81 0) (replicate 81 0) [].

(** C3 (counterexample): on [fresh_node] the blended value of the claim
    is 0.5 * 0 + 0.5 * 1/2 = 1/4, and [win_rate] returns 0; on
    [visited_node] with empty tables [win_rate] divides by
    [rave_total[3] = 0]; the parallel player's [win_rate] has no RAVE
    term, so that it is 0 where the blended value is 1/4. *)
Lemma win_rate_not_blended :
  Rave.win_rate fresh_node used_tables = Some 0%Qc
  ∧ blended_spec fresh_node used_tables = (Num.of_int 1 / Num.of_int 4)%Qc
  ∧ Rave.win_rate visited_node zero_tables = None
  ∧ Par.win_rate fresh_node = Some 0%Qc
  ∧ ¬ (∀ (n : node unit) (tb : Rave.tables),
         Rave.win_rate n tb = Some (blended_spec n tb)).
Proof.
  repeat split; try by vm_compute.
  intros Hall. specialize (Hall fresh_node used_tables).
  vm_compute in Hall. discriminate Hall.
Qed.

End WinRate.

(** ** The vote of the root-parallel player *)

Module Vote.
Import NoGo.

(** The number of workers that returned [p]. *)
Definition votes_for (p : Z) (votes : list Z) : Z :=
  Z.of_nat (length (filter (λ v, v = p) votes)).

(** What a worker may return: -1 or a position of the board. *)
Definition worker_result (v : Z) : Prop := v = -1 ∨ 0 ≤ v < 81.

Lemma votes_for_cons (p v : Z) (votes : list Z) :
  votes_for p (v :: votes)
  = (if decide (v = p) then 1 else 0) + votes_for p votes.
Proof.
  unfold votes_for. rewrite filter_cons.
  case_decide; simpl; lia.
Qed.

Lemma votes_for_nonneg (p : Z) (votes : list Z) : 0 ≤ votes_for p votes.
Proof. unfold votes_for. lia. Qed.

Lemma votes_for_pos (p : Z) (votes : list Z) :
  p ∈ votes → 0 < votes_for p votes.
Proof.
  induction 1 as [p l|p v l _ IH]; rewrite votes_for_cons.
  - rewrite decide_True by done. pose proof (votes_for_nonneg p l). lia.
  - case_decide; lia.
Qed.


Lemma tally_from (votes : list Z) (hist o : list Z) :
  length hist = 81%nat → Forall worker_result votes →
  ∃ hist',
    foldl (λ acc v, if decide (v ≠ -1) then bump acc.1 acc.2 v else acc)
          (hist, o) votes = (hist', o)
    ∧ length hist' = 81%nat
    ∧ ∀ (i : nat) x, hist !! i = Some x →
                     hist' !! i = Some (x + votes_for (Z.of_nat i) votes).
Proof.
  intros Hlen Hall. revert hist Hlen.
  induction Hall as [|v votes Hv _ IH]; intros hist Hlen; simpl.
  - exists hist. split; [done|]. split; [done|].
    intros i x Hi. rewrite Hi. f_equal. unfold votes_for; simpl. lia.
  - case_decide as Hne.
    + destruct Hv as [?|Hv]; [done|].
      unfold bump, lookupZ. rewrite (proj2 (Z.leb_le 0 v)) by lia.
      destruct (hist !! Z.to_nat v) as [y|] eqn:Ey.
      2:{ apply lookup_ge_None in Ey. lia. }
      destruct (IH (<[Z.to_nat v := y + 1]> hist)) as (hist' & E & Hl & Hc).
      { by rewrite length_insert. }
      exists hist'. split; [done|]. split; [done|].
      intros i x Hi. rewrite votes_for_cons.
      destruct (decide (i = Z.to_nat v)) as [->|Hiv].
      * rewrite Hi in Ey. injection Ey as ->.
        rewrite (Hc (Z.to_nat v) (y + 1)).
        -- rewrite decide_True by lia. f_equal. lia.
        -- apply list_lookup_insert_eq. lia.
      * rewrite (Hc i x).
        -- rewrite decide_False by lia. f_equal.
        -- by rewrite list_lookup_insert_ne.
    + assert (v = -1) as -> by (destruct (decide (v = -1)); [done|tauto]).
      destruct (IH hist Hlen) as (hist' & E & Hl & Hc).
      exists hist'. split; [done|]. split; [done|].
      intros i x Hi. rewrite votes_for_cons, decide_False by lia.
      by apply Hc.
Qed.

Lemma tally_spec (votes : list Z) :
  Forall worker_result votes →
  (Par.tally votes).2 = []
  ∧ length (Par.tally votes).1 = 81%nat
  ∧ ∀ p, 0 ≤ p < 81 →
         lookupZ (Par.tally votes).1 p = Some (votes_for p votes).
Proof.
  intros Hall.
  destruct (tally_from votes (replicate 81 0) [] eq_refl Hall)
    as (hist' & E & Hl & Hc).
  unfold Par.tally. rewrite E. simpl. split; [done|]. split; [done|].
  intros p Hp. unfold lookupZ. rewrite (proj2 (Z.leb_le 0 p)) by lia.
  rewrite (Hc (Z.to_nat p) 0).
  - f_equal. rewrite Z2Nat.id by lia. lia.
  - apply lookup_replicate_2. lia.
Qed.

(** [std::max_element] returns the first index of the largest element. *)
Lemma max_element_from_spec (pre l : list Z) (largest : nat) (lv : Z) :
  (pre ++ l) !! largest = Some lv →
  (largest < length pre)%nat →
  (∀ j x, (j < length pre)%nat → (pre ++ l) !! j = Some x → x ≤ lv) →
  (∀ j x, (j < largest)%nat → (pre ++ l) !! j = Some x → x < lv) →
  let m := Par.max_element_from l (length pre) largest lv in
  ∃ mv, (pre ++ l) !! m = Some mv
        ∧ (∀ j x, (pre ++ l) !! j = Some x → x ≤ mv)
        ∧ (∀ j x, (j < m)%nat → (pre ++ l) !! j = Some x → x < mv).
Proof.
  revert pre largest lv.
  induction l as [|y l IH]; intros pre largest lv Hl Hlt Hle Hfirst; simpl.
  - exists lv. split; [done|]. split; [|done].
    intros j x Hj. apply (Hle j x); [|done].
    apply lookup_lt_Some in Hj. by rewrite app_nil_r in Hj.
  - assert (Hy : (pre ++ y :: l) !! length pre = Some y).
    { by rewrite list_lookup_middle. }
    assert (Hcons : pre ++ y :: l = (pre ++ [y]) ++ l)
      by (by rewrite <- app_assoc).
    assert (Hlen : length (pre ++ [y]) = S (length pre))
      by (rewrite length_app; simpl; lia).
    destruct (Z.ltb_spec lv y) as [Hlty|Hgey].
    + specialize (IH (pre ++ [y]) (length pre) y).
      rewrite Hlen, <- Hcons in IH. apply IH; [done|lia|..].
      * intros j x Hj Hx.
        destruct (decide (j = length pre)) as [->|Hne].
        -- rewrite Hy in Hx. injection Hx as ->. lia.
        -- assert (x ≤ lv) by (apply (Hle j x); [lia|done]). lia.
      * intros j x Hj Hx.
        assert (x ≤ lv) by (apply (Hle j x); [lia|done]). lia.
    + specialize (IH (pre ++ [y]) largest lv).
      rewrite Hlen, <- Hcons in IH. apply IH; [done|lia|..|done].
      intros j x Hj Hx.
      destruct (decide (j = length pre)) as [->|Hne].
      * rewrite Hy in Hx. injection Hx as ->. lia.
      * apply (Hle j x); [lia|done].
Qed.

Lemma max_element_spec (l : list Z) :
  l ≠ [] →
  ∃ mv, l !! Par.max_element l = Some mv
        ∧ (∀ j x, l !! j = Some x → x ≤ mv)
        ∧ (∀ j x, (j < Par.max_element l)%nat → l !! j = Some x → x < mv).
Proof.
  destruct l as [|y l]; [done|]. intros _. unfold Par.max_element.
  apply (max_element_from_spec [y] l 0 y); simpl; [done|lia|..].
  - intros j x Hj Hx. assert (j = 0%nat) as -> by lia.
    simpl in Hx. injection Hx as ->. lia.
  - intros j x Hj. lia.
Qed.



End Vote.

(** ** The backup phase: [back_propagate] of both players *)

Module Backup.
Import NoGo.

(** The number of times [id] stands on [path]. *)
Definition visits (id : nat) (path : list nat) : Z :=
  Z.of_nat (length (filter (λ j, j = id) path)).

(** [n] after [k] turns of the loop of [back_propagate] on it: [total_cnt]
    has grown by [k], and [win_cnt] too when the winner test holds. *)
Definition after_backup {board} (won : bool) (k : Z) (n : node board)
  : node board :=
  Node (nboard n) (win_cnt n + (if won then k else 0)) (total_cnt n + k)
       (place_pos n) (child n) (parent n).

(** The tables after one turn of the loop on a node at [pos]. *)
Definition rave_bump (won : bool) (tb : Rave.tables) (pos : Z)
  : Rave.tables :=
  let '(rtot, o) := bump (Rave.rave_total tb) (Rave.oob tb) pos in
  if won then
    let '(rwin, o) := bump (Rave.rave_win tb) o pos in
    Rave.Tables rtot rwin o
  else Rave.Tables rtot (Rave.rave_win tb) o.

Section Lemmas.
Context {board : Type} `{NoGoBoard board}.

Abbreviation tree := (list (node board)).

(** [winner == info().who_take_turns], read on the node [root] that
    [back_propagate] is called on. *)
Definition won (winner : Z) (root : node board) : bool :=
  bool_decide (winner = who_take_turns (nboard root)).

(** [t'] is [t] after the backup of [path]. *)
Definition backed_up (w : bool) (path : list nat) (t t' : tree) : Prop :=
  length t' = length t
  ∧ ∀ id n, t !! id = Some n →
            t' !! id = Some (after_backup w (visits id path) n).

Lemma visits_nil (id : nat) : visits id [] = 0.
Proof. reflexivity. Qed.

Lemma visits_cons (id j : nat) (path : list nat) :
  visits id (j :: path) = (if decide (j = id) then 1 else 0) + visits id path.
Proof. unfold visits. rewrite filter_cons. case_decide; simpl; lia. Qed.

Lemma visits_app (id : nat) (p1 p2 : list nat) :
  visits id (p1 ++ p2) = visits id p1 + visits id p2.
Proof. unfold visits. rewrite filter_app, length_app. lia. Qed.

Lemma visits_nonneg (id : nat) (path : list nat) : 0 ≤ visits id path.
Proof. unfold visits. lia. Qed.

Lemma visits_elem (id : nat) (path : list nat) :
  id ∈ path → 1 ≤ visits id path.
Proof.
  induction 1 as [id l|id j l _ IH]; rewrite visits_cons.
  - rewrite decide_True by done. pose proof (visits_nonneg id l). lia.
  - case_decide; lia.
Qed.

Lemma visits_not_elem (id : nat) (path : list nat) :
  id ∉ path → visits id path = 0.
Proof.
  induction path as [|j l IH]; intros Hn; [done|].
  rewrite visits_cons. apply not_elem_of_cons in Hn as [Hne Hn].
  rewrite decide_False by done. rewrite IH by done. lia.
Qed.

Lemma visits_NoDup (id : nat) (path : list nat) :
  NoDup path → id ∈ path → visits id path = 1.
Proof.
  induction 1 as [|j l Hj _ IH]; intros Hin; [by apply elem_of_nil in Hin|].
  rewrite visits_cons. apply elem_of_cons in Hin as [->|Hin].
  - rewrite decide_True by done. rewrite visits_not_elem by done. lia.
  - rewrite decide_False by (intros ->; done). rewrite IH by done. lia.
Qed.

Lemma after_backup_0 (w : bool) (n : node board) : after_backup w 0 n = n.
Proof.
  destruct n; unfold after_backup; simpl. f_equal; destruct w; lia.
Qed.

Lemma after_backup_add (w : bool) (k : Z) (n : node board) :
  after_backup w k (after_backup w 1 n) = after_backup w (1 + k) n.
Proof.
  destruct n; unfold after_backup; simpl. f_equal; destruct w; lia.
Qed.

Lemma incr_total_after (n : node board) :
  incr_total n = after_backup false 1 n.
Proof. destruct n; unfold after_backup, incr_total; simpl. f_equal; lia. Qed.

Lemma incr_win_after (n : node board) :
  incr_win (incr_total n) = after_backup true 1 n.
Proof. by destruct n. Qed.

(** The node [back_propagate] is called on keeps its board while the
    counters of [id] change. *)
Lemma lookup_this_insert (t : tree) (this id : nat) (root n n' : node board) :
  t !! this = Some root → t !! id = Some n → nboard n' = nboard n →
  ∃ root', <[id := n']> t !! this = Some root' ∧ nboard root' = nboard root.
Proof.
  intros Hroot Hn Hb. destruct (decide (id = this)) as [->|Hne].
  - exists n'. split.
    + apply list_lookup_insert_eq. by apply lookup_lt_Some in Hn.
    + congruence.
  - exists root. by rewrite list_lookup_insert_ne.
Qed.

Lemma par_backup_step (t : tree) (this id : nat) (winner : Z)
  (root n : node board) :
  t !! this = Some root → t !! id = Some n →
  Par.backup_step this winner (Some t) id
  = Some (<[id := after_backup (won winner root) 1 n]> t).
Proof.
  intros Hroot Hn. unfold Par.backup_step. simpl. rewrite Hn. simpl.
  destruct (lookup_this_insert t this id root n (incr_total n) Hroot Hn
              eq_refl) as (root' & -> & Hb).
  simpl. unfold won. rewrite Hb.
  pose proof (lookup_lt_Some _ _ _ Hn) as Hlt.
  case_decide as Hw.
  - rewrite list_lookup_insert_eq by done. simpl.
    rewrite list_insert_insert_eq, incr_win_after.
    by rewrite bool_decide_eq_true_2.
  - rewrite incr_total_after. by rewrite bool_decide_eq_false_2.
Qed.

Lemma rave_backup_step (t : tree) (tb : Rave.tables) (this id : nat)
  (winner : Z) (root n : node board) :
  t !! this = Some root → t !! id = Some n →
  Rave.backup_step this winner (Some (t, tb)) id
  = Some (<[id := after_backup (won winner root) 1 n]> t,
          rave_bump (won winner root) tb (place_pos n)).
Proof.
  intros Hroot Hn. unfold Rave.backup_step, rave_bump. simpl.
  rewrite Hn. simpl.
  destruct (bump (Rave.rave_total tb) (Rave.oob tb) (place_pos n))
    as [rtot o].
  destruct (lookup_this_insert t this id root n (incr_total n) Hroot Hn
              eq_refl) as (root' & -> & Hb).
  simpl. unfold won. rewrite Hb.
  pose proof (lookup_lt_Some _ _ _ Hn) as Hlt.
  case_decide as Hw.
  - rewrite bool_decide_eq_true_2 by done.
    destruct (bump (Rave.rave_win tb) o (place_pos n)) as [rwin o'].
    rewrite list_lookup_insert_eq by done. simpl.
    by rewrite list_insert_insert_eq, incr_win_after.
  - rewrite bool_decide_eq_false_2 by done. by rewrite incr_total_after.
Qed.

(** A backup step turns [backed_up] for [path] into [backed_up] for
    [id :: path]. *)
Lemma backed_up_cons (w : bool) (id : nat) (path : list nat)
  (t t' : tree) (n : node board) :
  t !! id = Some n →
  backed_up w path (<[id := after_backup w 1 n]> t) t' →
  backed_up w (id :: path) t t'.
Proof.
  intros Hn [Hlen Hall]. split; [by rewrite Hlen, length_insert|].
  intros j nj Hj. rewrite visits_cons.
  pose proof (lookup_lt_Some _ _ _ Hn) as Hlt.
  destruct (decide (id = j)) as [->|Hne].
  - rewrite Hn in Hj. injection Hj as <-.
    rewrite (Hall j (after_backup w 1 n)).
    + by rewrite after_backup_add.
    + by apply list_lookup_insert_eq.
  - rewrite (Hall j nj) by (by rewrite list_lookup_insert_ne).
    by rewrite Z.add_0_l.
Qed.

Lemma par_back_propagate_spec (this : nat) (winner : Z) (path : list nat) :
  ∀ (t : tree) (root : node board),
    t !! this = Some root → Forall (λ id, (id < length t)%nat) path →
    ∃ t', Par.back_propagate this path winner t = Some t'
          ∧ backed_up (won winner root) path t t'.
Proof.
  unfold Par.back_propagate.
  induction path as [|id path IH]; intros t root Hroot Hvalid; cbn [foldl].
  - exists t. split; [done|]. split; [done|].
    intros id n Hn. by rewrite visits_nil, after_backup_0.
  - apply Forall_cons in Hvalid as [Hid Hvalid].
    destruct (lookup_lt_is_Some_2 t id Hid) as [n Hn].
    rewrite (par_backup_step t this id winner root n Hroot Hn).
    destruct (lookup_this_insert t this id root n
                (after_backup (won winner root) 1 n) Hroot Hn eq_refl)
      as (root' & Hroot' & Hb).
    destruct (IH _ root' Hroot') as (t' & E & Hback).
    { by rewrite length_insert. }
    exists t'. split; [done|].
    apply (backed_up_cons _ id path t t' n Hn).
    assert (Ew : won winner root' = won winner root)
      by (unfold won; by rewrite Hb).
    by rewrite Ew in Hback.
Qed.

Lemma rave_back_propagate_spec (this : nat) (winner : Z) (path : list nat) :
  ∀ (t : tree) (tb : Rave.tables) (root : node board),
    t !! this = Some root → Forall (λ id, (id < length t)%nat) path →
    ∃ t' tb', Rave.back_propagate this path winner t tb = Some (t', tb')
              ∧ backed_up (won winner root) path t t'.
Proof.
  unfold Rave.back_propagate.
  induction path as [|id path IH]; intros t tb root Hroot Hvalid;
    cbn [foldl].
  - exists t, tb. split; [done|]. split; [done|].
    intros id n Hn. by rewrite visits_nil, after_backup_0.
  - apply Forall_cons in Hvalid as [Hid Hvalid].
    destruct (lookup_lt_is_Some_2 t id Hid) as [n Hn].
    rewrite (rave_backup_step t tb this id winner root n Hroot Hn).
    destruct (lookup_this_insert t this id root n
                (after_backup (won winner root) 1 n) Hroot Hn eq_refl)
      as (root' & Hroot' & Hb).
    destruct (IH _ (rave_bump (won winner root) tb (place_pos n)) root' Hroot')
      as (t' & tb' & E & Hback).
    { by rewrite length_insert. }
    exists t', tb'. split; [done|].
    apply (backed_up_cons _ id path t t' n Hn).
    assert (Ew : won winner root' = won winner root)
      by (unfold won; by rewrite Hb).
    by rewrite Ew in Hback.
Qed.

(** C7: called on the node [this] with a path of nodes of the tree, the
    backup of either player returns, and leaves every node with [total_cnt]
    grown by the number of times it stands on the path, and [win_cnt] grown
    by the same number when the winner is the side to move on the board of
    [this], and unchanged otherwise; the test does not look at the board of
    the node it updates.  On a path without repetition the number is 1 for
    the nodes of the path and 0 for the others. *)
Theorem back_propagate_counts (t : tree) (this : nat) (root : node board)
  (path : list nat) (winner : Z) (tb : Rave.tables) :
  t !! this = Some root →
  Forall (λ id, (id < length t)%nat) path →
  let w := bool_decide (winner = who_take_turns (nboard root)) in
  let updated (t' : tree) :=
    length t' = length t
    ∧ ∀ id n, t !! id = Some n →
        ∃ n', t' !! id = Some n'
              ∧ total_cnt n' = total_cnt n + visits id path
              ∧ win_cnt n' = win_cnt n + (if w then visits id path else 0)
              ∧ nboard n' = nboard n ∧ place_pos n' = place_pos n
              ∧ child n' = child n ∧ parent n' = parent n in
  (∃ t', Par.back_propagate this path winner t = Some t' ∧ updated t')
  ∧ (∃ t' tb', Rave.back_propagate this path winner t tb = Some (t', tb')
               ∧ updated t')
  ∧ (NoDup path →
     ∀ id, visits id path = if decide (id ∈ path) then 1 else 0).
Proof.
  intros Hroot Hvalid w updated.
  assert (Hup : ∀ t', backed_up w path t t' → updated t').
  { intros t' [Hlen Hall]. split; [done|]. intros id n Hn.
    exists (after_backup w (visits id path) n). by rewrite (Hall id n Hn). }
  split; [|split].
  - destruct (par_back_propagate_spec this winner path t root Hroot Hvalid)
      as (t' & E & Hb).
    exists t'. split; [done|]. by apply Hup.
  - destruct (rave_back_propagate_spec this winner path t tb root Hroot Hvalid)
      as (t' & tb' & E & Hb).
    exists t', tb'. split; [done|]. by apply Hup.
  - intros Hnd id. case_decide.
    + by apply visits_NoDup.
    + by apply visits_not_elem.
Qed.

End Lemmas.
End Backup.

(** ** The expansion phase: [expand_from_leaf] *)

Module Expand.
Import NoGo.

Section Lemmas.
Context {board : Type} `{NoGoBoard board}.
Context {engine : Type} `{Engine engine}.

Abbreviation tree := (list (node board)).

Lemma first_legal_Some (b b' : board) (vec : list Z) (pos : Z) :
  first_legal b vec = Some (pos, b') → pos ∈ vec ∧ place b pos = Some b'.
Proof.
  induction vec as [|i vec IH]; simpl; [done|].
  destruct (place b i) as [bi|] eqn:E.
  - intros [= <- <-]. split; [constructor|done].
  - intros Hf. destruct (IH Hf). split; [by constructor|done].
Qed.

Lemma first_legal_None (b : board) (vec : list Z) :
  first_legal b vec = None ↔ ∀ i, i ∈ vec → place b i = None.
Proof.
  induction vec as [|i vec IH]; simpl.
  - split; [|done]. intros _ i Hi. by apply elem_of_nil in Hi.
  - destruct (place b i) as [bi|] eqn:E.
    + split; [done|]. intros Hall.
      specialize (Hall i ltac:(constructor)). congruence.
    + rewrite IH. split.
      * intros Hall j Hj. apply elem_of_cons in Hj as [->|Hj]; auto.
      * intros Hall j Hj. apply Hall. by constructor.
Qed.

Lemma all_space_range (e : engine) (pos : Z) :
  pos ∈ (all_space e).1 ↔ 0 ≤ pos < 81.
Proof.
  unfold all_space. rewrite (shuffle_perm e (seqZ 0 81)).
  rewrite elem_of_seqZ. lia.
Qed.

Lemma length_all_space (e : engine) : length (all_space e).1 = 81%nat.
Proof.
  unfold all_space. by rewrite (shuffle_perm e (seqZ 0 81)).
Qed.

(** What [expand_from_leaf] does: nothing when the board of the leaf
    accepts no position, and otherwise a new node at the end of the arena,
    for the first position of the shuffled order that the board accepts,
    whatever children the leaf has. *)
Lemma expand_from_leaf_cases (t t' : tree) (leaf x : nat) (e e' : engine) :
  expand_from_leaf t leaf e = Some (t', x, e') →
  ∃ n, t !! leaf = Some n
       ∧ ((t' = t ∧ x = leaf
           ∧ ∀ pos, 0 ≤ pos < 81 → place (nboard n) pos = None)
          ∨ (∃ pos b, 0 ≤ pos < 81 ∧ place (nboard n) pos = Some b
                      ∧ x = length t
                      ∧ t' = <[leaf := add_child n (length t)]> t
                             ++ [set_parent (new_node b pos) leaf])).
Proof.
  unfold expand_from_leaf. destruct (t !! leaf) as [n|] eqn:Hn; [|done].
  simpl. pose proof (all_space_range e) as Hr.
  destruct (all_space e) as [vec e1]. simpl in Hr.
  destruct (first_legal (nboard n) vec) as [[pos b]|] eqn:Hf.
  - intros [= <- <- <-]. exists n. split; [done|]. right.
    apply first_legal_Some in Hf as [Hin Hp].
    exists pos, b. by rewrite <- Hr.
  - intros [= <- <- <-]. exists n. split; [done|]. left.
    split; [done|]. split; [done|]. intros pos Hpos.
    apply (proj1 (first_legal_None _ _) Hf). by apply Hr.
Qed.

(** The lookups of the tree after an expansion that added a node. *)
Lemma lookup_expanded (t : tree) (leaf : nat) (n new : node board)
  (id : nat) (m : node board) :
  t !! leaf = Some n →
  (<[leaf := add_child n (length t)]> t ++ [new]) !! id = Some m →
  (id = length t ∧ m = new)
  ∨ (id = leaf ∧ m = add_child n (length t))
  ∨ (id ≠ leaf ∧ t !! id = Some m).
Proof.
  intros Hn Hm. pose proof (lookup_lt_Some _ _ _ Hn) as Hlt.
  destruct (decide (id < length t)%nat) as [Hid|Hid].
  - rewrite lookup_app_l in Hm by (by rewrite length_insert).
    destruct (decide (id = leaf)) as [->|Hne].
    + rewrite list_lookup_insert_eq in Hm by done. right; left.
      split; congruence.
    + rewrite list_lookup_insert_ne in Hm by done. by right; right.
  - left. rewrite lookup_app_r in Hm by (rewrite length_insert; lia).
    rewrite length_insert in Hm.
    destruct (id - length t)%nat as [|k] eqn:Ek; simpl in Hm; [|done].
    split; [lia|congruence].
Qed.

End Lemmas.

#[local] Existing Instance coarse_libm.

(** C2 (the code at the failing input): on the empty board, with the first
    and the third shuffle of the search putting position 5 first, the
    second turn of the loop attaches a second child at position 5 to the
    root, which already has one: after two turns the root of either player
    has the children 1 and 2, both with [place_pos = 5]. *)
Lemma expand_repeats_child :
  let script := [5; 0; 5; 0]%nat in
  let shape {board} (t : list (node board)) :=
    (λ n, (place_pos n, child n, parent n)) <$> t in
  (shape ∘ Par.nodes)
    <$> Par.iterations 2 0 (Par.start Open81.empty_board script)
  = Some [(-1, [1; 2]%nat, None); (5, [], Some 0%nat); (5, [], Some 0%nat)]
  ∧ (shape ∘ Rave.nodes)
      <$> Rave.iterations 2 0 (Rave.start Open81.empty_board script)
    = Some [(-1, [1; 2]%nat, None); (5, [], Some 0%nat); (5, [], Some 0%nat)].
Proof. split; by vm_compute. Qed.

End Expand.

(** ** Invariants of the search loop *)

Module Invariant.
Import NoGo Backup Expand.

Section Counters.
Context {board : Type} `{NoGoBoard board}.
Context {engine : Type} `{Engine engine}.
Context `{Libm}.

Abbreviation tree := (list (node board)).

(** [0 <= win_cnt <= total_cnt] at every node of the arena. *)
Definition counters_ok (t : tree) : Prop :=
  ∀ id n, t !! id = Some n → 0 ≤ win_cnt n ≤ total_cnt n.

Lemma counters_start (state : board) : counters_ok [new_node state (-1)].
Proof.
  intros [|id] n Hn; simpl in Hn; [|done].
  injection Hn as <-. simpl. lia.
Qed.

Lemma counters_expand (t t' : tree) (leaf x : nat) (e e' : engine) :
  expand_from_leaf t leaf e = Some (t', x, e') →
  counters_ok t → counters_ok t'.
Proof.
  intros Hx Hok.
  destruct (expand_from_leaf_cases _ _ _ _ _ _ Hx) as (n & Hn & Hcase).
  destruct Hcase as [(-> & _)|(pos & b & _ & _ & _ & ->)]; [done|].
  intros id m Hm.
  destruct (lookup_expanded _ _ _ _ _ _ Hn Hm)
    as [[_ ->]|[[_ ->]|[_ Hold]]]; simpl.
  - lia.
  - apply (Hok leaf n Hn).
  - apply (Hok id m Hold).
Qed.

Lemma counters_after_backup (t : tree) (id : nat) (n : node board)
  (w : bool) :
  counters_ok t → t !! id = Some n →
  counters_ok (<[id := after_backup w 1 n]> t).
Proof.
  intros Hok Hn j m Hm. destruct (decide (id = j)) as [->|Hne].
  - rewrite list_lookup_insert_eq in Hm by (by apply lookup_lt_Some in Hn).
    injection Hm as <-. pose proof (Hok j n Hn). simpl. destruct w; lia.
  - rewrite list_lookup_insert_ne in Hm by done. by apply (Hok j m).
Qed.

(** A backup step that returns has found [id] and [this] in the arena. *)
Lemma par_backup_step_inv (t t' : tree) (this id : nat) (winner : Z) :
  Par.backup_step this winner (Some t) id = Some t' →
  ∃ root n, t !! this = Some root ∧ t !! id = Some n
            ∧ t' = <[id := after_backup (won winner root) 1 n]> t.
Proof.
  intros Hstep.
  destruct (t !! id) as [n|] eqn:Hn.
  2:{ unfold Par.backup_step in Hstep. simpl in Hstep.
      by rewrite Hn in Hstep. }
  destruct (t !! this) as [root|] eqn:Hroot.
  - rewrite (par_backup_step t this id winner root n Hroot Hn) in Hstep.
    injection Hstep as <-. by exists root, n.
  - exfalso. unfold Par.backup_step in Hstep. simpl in Hstep.
    rewrite Hn in Hstep. simpl in Hstep.
    assert (Hnone : <[id := incr_total n]> t !! this = None).
    { apply lookup_ge_None. rewrite length_insert. by apply lookup_ge_None. }
    by rewrite Hnone in Hstep.
Qed.

Lemma rave_backup_step_inv (t t' : tree) (tb tb' : Rave.tables)
  (this id : nat) (winner : Z) :
  Rave.backup_step this winner (Some (t, tb)) id = Some (t', tb') →
  ∃ root n, t !! this = Some root ∧ t !! id = Some n
            ∧ t' = <[id := after_backup (won winner root) 1 n]> t
            ∧ tb' = rave_bump (won winner root) tb (place_pos n).
Proof.
  intros Hstep.
  destruct (t !! id) as [n|] eqn:Hn.
  2:{ unfold Rave.backup_step in Hstep. simpl in Hstep.
      by rewrite Hn in Hstep. }
  destruct (t !! this) as [root|] eqn:Hroot.
  - rewrite (rave_backup_step t tb this id winner root n Hroot Hn) in Hstep.
    injection Hstep as <- <-. by exists root, n.
  - exfalso. unfold Rave.backup_step in Hstep. simpl in Hstep.
    rewrite Hn in Hstep. simpl in Hstep.
    destruct (bump _ _ _) as [rtot o].
    assert (Hnone : <[id := incr_total n]> t !! this = None).
    { apply lookup_ge_None. rewrite length_insert. by apply lookup_ge_None. }
    by rewrite Hnone in Hstep.
Qed.

Lemma par_backup_None (this : nat) (winner : Z) (path : list nat) :
  foldl (Par.backup_step (board := board) this winner) None path = None.
Proof. by induction path. Qed.

Lemma rave_backup_None (this : nat) (winner : Z) (path : list nat) :
  foldl (Rave.backup_step (board := board) this winner) None path = None.
Proof. by induction path. Qed.

(** An induction principle for the backup that returns: a property of the
    tree and the tables that every step keeps holds at the end. *)
Lemma rave_back_propagate_ind (P : tree → Rave.tables → Prop)
  (this : nat) (winner : Z) :
  (∀ t tb root n id,
      P t tb → t !! this = Some root → t !! id = Some n →
      P (<[id := after_backup (won winner root) 1 n]> t)
        (rave_bump (won winner root) tb (place_pos n))) →
  ∀ path t tb t' tb',
    Rave.back_propagate this path winner t tb = Some (t', tb') →
    P t tb → P t' tb'.
Proof.
  intros Hstep. unfold Rave.back_propagate.
  induction path as [|id path IH]; intros t tb t' tb'; cbn [foldl].
  - by intros [= <- <-].
  - destruct (Rave.backup_step this winner (Some (t, tb)) id)
      as [[t1 tb1]|] eqn:E.
    + destruct (rave_backup_step_inv _ _ _ _ _ _ _ E)
        as (root & n & Hroot & Hn & -> & ->).
      intros Hrest HP. apply (IH _ _ _ _ Hrest). by apply Hstep.
    + by rewrite rave_backup_None.
Qed.

Lemma par_back_propagate_ind (P : tree → Prop) (this : nat) (winner : Z) :
  (∀ t root n id,
      P t → t !! this = Some root → t !! id = Some n →
      P (<[id := after_backup (won winner root) 1 n]> t)) →
  ∀ path t t',
    Par.back_propagate this path winner t = Some t' → P t → P t'.
Proof.
  intros Hstep. unfold Par.back_propagate.
  induction path as [|id path IH]; intros t t'; cbn [foldl].
  - by intros [= <-].
  - destruct (Par.backup_step this winner (Some t) id) as [t1|] eqn:E.
    + destruct (par_backup_step_inv _ _ _ _ _ E)
        as (root & n & Hroot & Hn & ->).
      intros Hrest HP. apply (IH _ _ Hrest). by apply Hstep.
    + by rewrite par_backup_None.
Qed.

Lemma counters_par_iteration (this : nat) (s s' : Par.search) :
  Par.iteration this s = Some s' →
  counters_ok (Par.nodes s) → counters_ok (Par.nodes s').
Proof.
  unfold Par.iteration, Par.simulate_and_backup. intros Hit Hok.
  destruct (Par.nodes s !! this) as [root|]; [simpl in Hit|done].
  destruct (select_root_to_leaf _ _ _ _ _) as [path|]; [simpl in Hit|done].
  destruct (last path) as [leaf|]; [simpl in Hit|done].
  destruct (expand_from_leaf _ _ _) as [[[t x] e]|] eqn:Hx;
    [simpl in Hit|done].
  destruct (last _) as [back|]; [simpl in Hit|done].
  destruct (t !! back) as [n|]; [simpl in Hit|done].
  destruct (simulate_winner n e) as [[winner e1]|]; [simpl in Hit|done].
  destruct (Par.back_propagate _ _ _ _) as [t'|] eqn:Hbp;
    [simpl in Hit|done].
  injection Hit as <-. simpl.
  apply (par_back_propagate_ind counters_ok this winner) in Hbp; [done| |].
  - intros t0 root0 n0 id0 Hc _ Hn0. by apply counters_after_backup.
  - by apply (counters_expand _ _ _ _ _ _ Hx).
Qed.

Lemma counters_rave_iteration (this : nat) (s s' : Rave.search) :
  Rave.iteration this s = Some s' →
  counters_ok (Rave.nodes s) → counters_ok (Rave.nodes s').
Proof.
  unfold Rave.iteration, Rave.simulate_and_backup. intros Hit Hok.
  destruct (Rave.nodes s !! this) as [root|]; [simpl in Hit|done].
  destruct (select_root_to_leaf _ _ _ _ _) as [path|]; [simpl in Hit|done].
  destruct (last path) as [leaf|]; [simpl in Hit|done].
  destruct (expand_from_leaf _ _ _) as [[[t x] e]|] eqn:Hx;
    [simpl in Hit|done].
  destruct (last _) as [back|]; [simpl in Hit|done].
  destruct (t !! back) as [n|]; [simpl in Hit|done].
  destruct (simulate_winner n e) as [[winner e1]|]; [simpl in Hit|done].
  destruct (Rave.back_propagate _ _ _ _ _) as [[t' tb']|] eqn:Hbp;
    [simpl in Hit|done].
  injection Hit as <-. simpl.
  apply (rave_back_propagate_ind (λ t _, counters_ok t) this winner) in Hbp;
    [done| |].
  - intros t0 tb0 root0 n0 id0 Hc _ Hn0. by apply counters_after_backup.
  - by apply (counters_expand _ _ _ _ _ _ Hx).
Qed.

(** C9: after any number of turns of the loop of [MCTS] that the search
    completes, started on a new root, every node of the tree of either
    player has [0 <= win_cnt <= total_cnt]. *)
Theorem counters_bounded (N : nat) (state : board) (e : engine) :
  (∀ s', Par.iterations N 0 (Par.start state e) = Some s' →
         ∀ id n, Par.nodes s' !! id = Some n → 0 ≤ win_cnt n ≤ total_cnt n)
  ∧ (∀ s', Rave.iterations N 0 (Rave.start state e) = Some s' →
           ∀ id n, Rave.nodes s' !! id = Some n →
                   0 ≤ win_cnt n ≤ total_cnt n).
Proof.
  split.
  - assert (G : ∀ s s', Par.iterations N 0 s = Some s' →
                        counters_ok (Par.nodes s) → counters_ok (Par.nodes s')).
    { induction N as [|N' IH]; intros s s'; simpl.
      - by intros [= <-].
      - destruct (Par.iteration 0 s) as [s1|] eqn:E; [simpl|done].
        intros Hrest Hok. apply (IH _ _ Hrest).
        by apply (counters_par_iteration 0 s s1). }
    intros s' Hs'. apply (G _ _ Hs'). apply counters_start.
  - assert (G : ∀ s s', Rave.iterations N 0 s = Some s' →
                        counters_ok (Rave.nodes s)
                        → counters_ok (Rave.nodes s')).
    { induction N as [|N' IH]; intros s s'; simpl.
      - by intros [= <-].
      - destruct (Rave.iteration 0 s) as [s1|] eqn:E; [simpl|done].
        intros Hrest Hok. apply (IH _ _ Hrest).
        by apply (counters_rave_iteration 0 s s1). }
    intros s' Hs'. apply (G _ _ Hs'). apply counters_start.
Qed.

End Counters.
End Invariant.

(** ** The RAVE player: nodes, tables and the divisions of the scores *)

Module RaveInv.
Import NoGo Backup Expand Invariant.

Lemma lookupZ_Some (l : list Z) (i x : Z) :
  lookupZ l i = Some x → 0 ≤ i ∧ l !! Z.to_nat i = Some x.
Proof.
  unfold lookupZ. destruct (Z.leb_spec 0 i); [done|discriminate].
Qed.

Lemma lookupZ_in_range (l : list Z) (i : Z) :
  0 ≤ i → (Z.to_nat i < length l)%nat → is_Some (lookupZ l i).
Proof.
  intros Hi Hlt. unfold lookupZ. rewrite (proj2 (Z.leb_le 0 i)) by done.
  by apply lookup_lt_is_Some_2.
Qed.

Lemma bump_length (l o : list Z) (i : Z) :
  length (bump l o i).1 = length l.
Proof.
  unfold bump. destruct (lookupZ l i); simpl; [|done].
  by rewrite length_insert.
Qed.

Lemma bump_nonneg (l o : list Z) (i : Z) :
  Forall (λ x, 0 ≤ x) l → Forall (λ x, 0 ≤ x) (bump l o i).1.
Proof.
  intros Hl. unfold bump. destruct (lookupZ l i) as [x|] eqn:E; simpl;
    [|done].
  apply lookupZ_Some in E as [_ E].
  apply Forall_insert; [done|].
  pose proof (proj1 (Forall_lookup _ _) Hl _ _ E) as Hx. simpl in Hx. lia.
Qed.

Lemma bump_lookup (l o : list Z) (i j x : Z) :
  lookupZ l j = Some x →
  lookupZ (bump l o i).1 j = Some (if decide (i = j) then x + 1 else x).
Proof.
  intros Hj. unfold bump. destruct (lookupZ l i) as [y|] eqn:Ei; simpl.
  - destruct (lookupZ_Some _ _ _ Hj) as [Hj0 Hj'].
    destruct (lookupZ_Some _ _ _ Ei) as [Hi0 Hi'].
    unfold lookupZ. rewrite (proj2 (Z.leb_le 0 j)) by done.
    case_decide as Hij.
    + subst j. rewrite list_lookup_insert_eq by (by apply lookup_lt_Some in Hi').
      congruence.
    + rewrite list_lookup_insert_ne by lia. done.
  - case_decide; [congruence|done].
Qed.

Lemma rave_bump_total (w : bool) (tb : Rave.tables) (pos : Z) :
  Rave.rave_total (rave_bump w tb pos)
  = (bump (Rave.rave_total tb) (Rave.oob tb) pos).1.
Proof.
  unfold rave_bump. destruct (bump (Rave.rave_total tb) _ _) as [rtot o].
  destruct w; [|done]. by destruct (bump (Rave.rave_win tb) o pos).
Qed.

Lemma rave_bump_win_length (w : bool) (tb : Rave.tables) (pos : Z) :
  length (Rave.rave_win (rave_bump w tb pos)) = length (Rave.rave_win tb).
Proof.
  unfold rave_bump. destruct (bump (Rave.rave_total tb) _ _) as [rtot o].
  destruct w; [|done].
  pose proof (bump_length (Rave.rave_win tb) o pos) as Hl.
  by destruct (bump (Rave.rave_win tb) o pos).
Qed.

(** Every index outside the tables that a backup step uses is recorded. *)
Lemma rave_bump_oob (w : bool) (tb : Rave.tables) (pos : Z) :
  lookupZ (Rave.rave_total tb) pos = None →
  pos ∈ Rave.oob (rave_bump w tb pos).
Proof.
  intros Hnone. unfold rave_bump, bump at 1. rewrite Hnone.
  destruct w.
  - unfold bump. destruct (lookupZ (Rave.rave_win tb) pos); simpl.
    + apply elem_of_app. right. constructor.
    + apply elem_of_app. left. apply elem_of_app. right. constructor.
  - simpl. apply elem_of_app. right. constructor.
Qed.

Lemma rave_bump_oob_mono (w : bool) (tb : Rave.tables) (pos i : Z) :
  i ∈ Rave.oob tb → i ∈ Rave.oob (rave_bump w tb pos).
Proof.
  intros Hi. unfold rave_bump, bump.
  destruct (lookupZ (Rave.rave_total tb) pos); destruct w;
    try destruct (lookupZ (Rave.rave_win tb) pos); simpl;
    rewrite ?elem_of_app; auto.
Qed.

Lemma best_child_fold (score : nat → option Qc) (l : list nat) :
  ∀ acc ms c,
    foldl (λ acc ci,
             '(max_score, c) ← acc;
             tmp ← score ci;
             Some (if Num.flt max_score tmp then (tmp, Some ci)
                   else (max_score, c)))
          acc l = Some (ms, Some c) →
    c ∈ l ∨ ∃ ms0, acc = Some (ms0, Some c).
Proof.
  induction l as [|x l IH]; intros acc ms c; cbn [foldl].
  - intros ->. right. by exists ms.
  - intros Hf. destruct (IH _ _ _ Hf) as [Hin|[ms0 Hacc]].
    + left. by constructor.
    + destruct acc as [[max_score c0]|]; [simpl in Hacc|done].
      destruct (score x) as [tmp|]; [simpl in Hacc|done].
      destruct (Num.flt max_score tmp).
      * injection Hacc as _ <-. left. constructor.
      * injection Hacc as -> ->. right. by exists ms0.
Qed.

(** The child [best_child] returns is one of the children it scans. *)
Lemma best_child_elem (score : nat → option Qc) (l : list nat) (c : nat) :
  best_child score l = Some c → c ∈ l.
Proof.
  unfold best_child.
  destruct (foldl _ _ l) as [[ms [c'|]]|] eqn:E; simpl; try done.
  intros [= ->]. destruct (best_child_fold _ _ _ _ _ E) as [?|[? ?]]; done.
Qed.

Section Search.
Context {board : Type} `{NoGoBoard board}.
Context {engine : Type} `{Engine engine}.
Context `{Libm}.

Abbreviation tree := (list (node board)).

(** Children are nodes of the arena, created after their parent. *)
Definition children_ok (t : tree) : Prop :=
  ∀ id n, t !! id = Some n → ∀ c, c ∈ child n → (id < c < length t)%nat.

(** The walk of [select_root_to_leaf] stays in the arena and extends the
    path it has. *)
Lemma select_from_valid (ucb ucb_opponent : tree → nat → option Qc)
  (fuel : nat) :
  ∀ (t : tree) (who : Z) (curr : nat) (vec path : list nat),
    children_ok t →
    select_from ucb ucb_opponent fuel t who curr vec = Some path →
    ∃ more, path = vec ++ more ∧ Forall (λ id, (id < length t)%nat) more.
Proof.
  induction fuel as [|fuel IH]; intros t who curr vec path Hch; simpl.
  - destruct (t !! curr) as [n|]; [simpl|done].
    destruct (is_leaf n); [|done].
    intros [= <-]. exists []. by rewrite app_nil_r.
  - destruct (t !! curr) as [n|] eqn:Hn; [simpl|done].
    destruct (is_leaf n).
    { intros [= <-]. exists []. by rewrite app_nil_r. }
    destruct (child n) as [|c0 cs] eqn:Hc.
    { intros [= <-]. exists []. by rewrite app_nil_r. }
    destruct (best_child _ (c0 :: cs)) as [c|] eqn:Hbest; [simpl|done].
    intros Hrest. destruct (IH _ _ _ _ _ Hch Hrest) as (more & -> & Hmore).
    exists (c :: more). split; [by rewrite <- app_assoc|].
    apply Forall_cons. split; [|done].
    apply best_child_elem in Hbest. rewrite <- Hc in Hbest.
    apply (Hch curr n Hn c Hbest).
Qed.

Lemma select_root_to_leaf_valid (ucb ucb_opponent : tree → nat → option Qc)
  (t : tree) (this : nat) (who : Z) (path : list nat) :
  children_ok t → (this < length t)%nat →
  select_root_to_leaf ucb ucb_opponent t this who = Some path →
  Forall (λ id, (id < length t)%nat) path
  ∧ this ∈ path ∧ ∃ leaf, last path = Some leaf.
Proof.
  intros Hch Hthis Hsel. unfold select_root_to_leaf in Hsel.
  destruct (select_from_valid _ _ _ _ _ _ _ _ Hch Hsel) as (more & -> & Hm).
  split; [by apply Forall_cons|]. split; [constructor|].
  apply last_is_Some. done.
Qed.

(** Both tables have 81 entries, and no entry of [rave_total] is
    negative. *)
Definition tables_ok (tb : Rave.tables) : Prop :=
  length (Rave.rave_total tb) = 81%nat
  ∧ length (Rave.rave_win tb) = 81%nat
  ∧ Forall (λ x, 0 ≤ x) (Rave.rave_total tb).

(** Every node but the root sits at a position of the board, and
    [rave_total] there is at least its [total_cnt]. *)
Definition covered (t : tree) (tb : Rave.tables) : Prop :=
  ∀ id n, t !! id = Some n → id ≠ 0%nat →
    0 ≤ place_pos n < 81
    ∧ ∃ rt, lookupZ (Rave.rave_total tb) (place_pos n) = Some rt
            ∧ total_cnt n ≤ rt.

(** Every node but the root has been visited, and so has its parent. *)
Definition visited (t : tree) : Prop :=
  ∀ id n, t !! id = Some n → id ≠ 0%nat →
    1 ≤ total_cnt n
    ∧ ∃ p pn, parent n = Some p ∧ t !! p = Some pn ∧ 1 ≤ total_cnt pn.

(** The invariant of the loop of [MCTS] called on the root, node 0. *)
Record rave_inv (s : @Rave.search board engine) : Prop := RaveInv {
  inv_root : is_Some (Rave.nodes s !! 0%nat);
  inv_tables : tables_ok (Rave.tabs s);
  inv_children : children_ok (Rave.nodes s);
  inv_counters : counters_ok (Rave.nodes s);
  inv_covered : covered (Rave.nodes s) (Rave.tabs s);
  inv_visited : visited (Rave.nodes s);
}.

(** The state between expansion and backup: the nodes that have not been
    visited yet are on the path. *)
Record ready (t : tree) (tb : Rave.tables) (path : list nat) : Prop := Ready {
  ready_root : is_Some (t !! 0%nat);
  ready_tables : tables_ok tb;
  ready_children : children_ok t;
  ready_counters : counters_ok t;
  ready_covered : covered t tb;
  ready_path : Forall (λ id, (id < length t)%nat) path;
  ready_visited :
    ∀ id n, t !! id = Some n → id ≠ 0%nat →
      (1 ≤ total_cnt n ∨ id ∈ path)
      ∧ ∃ p pn, parent n = Some p ∧ t !! p = Some pn
                ∧ (1 ≤ total_cnt pn ∨ p ∈ path);
}.

Lemma tables_start :
  tables_ok (Rave.Tables (replicate 81 0) (replicate 81 0) []).
Proof.
  unfold tables_ok. cbn [Rave.rave_total Rave.rave_win].
  rewrite !length_replicate. split; [done|]. split; [done|].
  by apply Forall_replicate.
Qed.

Lemma rave_inv_start (state : board) (e : engine) :
  rave_inv (Rave.start state e).
Proof.
  split.
  - by eexists.
  - apply tables_start.
  - intros [|id] n Hn; simpl in Hn; [|done].
    injection Hn as <-. simpl. intros c Hc. by apply elem_of_nil in Hc.
  - apply counters_start.
  - intros [|id] n Hn; simpl in Hn; done.
  - intros [|id] n Hn; simpl in Hn; done.
Qed.

Lemma covered_step (t : tree) (tb : Rave.tables) (id : nat)
  (n : node board) (w : bool) :
  tables_ok tb ∧ covered t tb → t !! id = Some n →
  tables_ok (rave_bump w tb (place_pos n))
  ∧ covered (<[id := after_backup w 1 n]> t) (rave_bump w tb (place_pos n)).
Proof.
  intros [(Hlt & Hlw & Hnn) Hcov] Hn. split.
  - split; [|split].
    + by rewrite rave_bump_total, bump_length.
    + by rewrite rave_bump_win_length.
    + rewrite rave_bump_total. by apply bump_nonneg.
  - intros j m Hm Hj. rewrite rave_bump_total.
    destruct (decide (id = j)) as [->|Hne].
    + rewrite list_lookup_insert_eq in Hm by (by apply lookup_lt_Some in Hn).
      injection Hm as <-. simpl.
      destruct (Hcov j n Hn Hj) as (Hr & rt & Hrt & Hle).
      split; [done|]. exists (rt + 1).
      rewrite (bump_lookup _ _ _ _ _ Hrt), decide_True by done.
      split; [done|lia].
    + rewrite list_lookup_insert_ne in Hm by done.
      destruct (Hcov j m Hm Hj) as (Hr & rt & Hrt & Hle).
      split; [done|].
      exists (if decide (place_pos n = place_pos m) then rt + 1 else rt).
      rewrite (bump_lookup _ _ _ _ _ Hrt).
      split; [done|]. case_decide; lia.
Qed.

Lemma backed_up_inv (w : bool) (path : list nat) (t t' : tree) (id : nat)
  (n' : node board) :
  backed_up w path t t' → t' !! id = Some n' →
  ∃ n, t !! id = Some n ∧ n' = after_backup w (visits id path) n.
Proof.
  intros [Hlen Hall] Hn'.
  destruct (lookup_lt_is_Some_2 t id) as [n Hn].
  { rewrite <- Hlen. by apply lookup_lt_Some in Hn'. }
  exists n. split; [done|]. rewrite (Hall id n Hn) in Hn'. congruence.
Qed.

(** The backup of a ready state gives a state of the invariant. *)
Lemma ready_backup (t t2 : tree) (tb tb2 : Rave.tables) (path : list nat)
  (winner : Z) (e : engine) :
  ready t tb path →
  Rave.back_propagate 0 path winner t tb = Some (t2, tb2) →
  rave_inv (Rave.Search t2 tb2 e).
Proof.
  intros [[root Hroot] Htb Hch Hcnt Hcov Hpath Hvis] Hbp.
  destruct (rave_back_propagate_spec 0 winner path t tb root Hroot Hpath)
    as (t' & tb' & E & Hback).
  rewrite Hbp in E. injection E as <- <-.
  set (w := won winner root) in *.
  pose proof Hback as [Hlen Hall].
  assert (Hgrow : ∀ id n, t !! id = Some n →
            (1 ≤ total_cnt n ∨ id ∈ path) →
            1 ≤ total_cnt (after_backup w (visits id path) n)).
  { intros id n Hn [Hge|Hin]; simpl.
    - pose proof (visits_nonneg id path). lia.
    - pose proof (visits_elem id path Hin).
      pose proof (Hcnt id n Hn). lia. }
  destruct (rave_back_propagate_ind
              (λ t tb, tables_ok tb ∧ covered t tb) 0 winner
              (λ t0 tb0 root0 n0 id0 HP _ Hn0,
                 covered_step t0 tb0 id0 n0 _ HP Hn0)
              path t tb t2 tb2 Hbp (conj Htb Hcov)) as [Htb2 Hcov2].
  split; simpl.
  - rewrite (Hall _ _ Hroot). by eexists.
  - done.
  - intros id n2 Hn2 c Hc.
    destruct (backed_up_inv _ _ _ _ _ _ Hback Hn2) as (n & Hn & ->).
    rewrite Hlen. by apply (Hch id n Hn c).
  - apply (rave_back_propagate_ind (λ t _, counters_ok t) 0 winner
             (λ t0 tb0 root0 n0 id0 HP _ Hn0,
                counters_after_backup t0 id0 n0 _ HP Hn0)
             path t tb t2 tb2 Hbp Hcnt).
  - done.
  - intros id n2 Hn2 Hid.
    destruct (backed_up_inv _ _ _ _ _ _ Hback Hn2) as (n & Hn & ->).
    destruct (Hvis id n Hn Hid) as (Hv & p & pn & Hp & Hpn & Hpv).
    split; [by apply Hgrow|].
    exists p, (after_backup w (visits p path) pn).
    split; [done|]. split; [by apply Hall|]. by apply Hgrow.
Qed.

(** A node of the tree keeps its counters, position and parent when the
    tree is expanded. *)
Lemma expanded_old (t : tree) (leaf id : nat) (n new m : node board) :
  t !! leaf = Some n → t !! id = Some m →
  ∃ m', (<[leaf := add_child n (length t)]> t ++ [new]) !! id = Some m'
        ∧ total_cnt m' = total_cnt m ∧ win_cnt m' = win_cnt m
        ∧ place_pos m' = place_pos m ∧ parent m' = parent m.
Proof.
  intros Hn Hm. pose proof (lookup_lt_Some _ _ _ Hm) as Hlt.
  rewrite lookup_app_l by (by rewrite length_insert).
  destruct (decide (id = leaf)) as [->|Hne].
  - rewrite list_lookup_insert_eq by done. exists (add_child n (length t)).
    assert (m = n) as -> by congruence. done.
  - rewrite list_lookup_insert_ne by done. by exists m.
Qed.

(** Selection and expansion lead from the invariant to a ready state. *)
Lemma ready_expand (s : Rave.search) (path : list nat) (leaf x : nat)
  (t1 : tree) (e1 : engine) :
  rave_inv s →
  Forall (λ id, (id < length (Rave.nodes s))%nat) path →
  leaf ∈ path →
  expand_from_leaf (Rave.nodes s) leaf (Rave.eng s) = Some (t1, x, e1) →
  ready t1 (Rave.tabs s) (Rave.extend_path path leaf x).
Proof.
  intros [[root Hroot] Htb Hch Hcnt Hcov Hvis] Hpath Hleaf Hx.
  set (t := Rave.nodes s) in *. set (tb := Rave.tabs s) in *.
  pose proof (counters_expand _ _ _ _ _ _ Hx Hcnt) as Hcnt1.
  destruct (expand_from_leaf_cases _ _ _ _ _ _ Hx) as (n & Hn & Hcase).
  destruct Hcase as [(-> & -> & _)|(pos & b & Hpos & Hplace & -> & ->)].
  - unfold Rave.extend_path. rewrite decide_True by done.
    split; [by eexists|done..|].
    intros id m Hm Hid.
    destruct (Hvis id m Hm Hid) as (Hv & p & pn & Hp & Hpn & Hpv).
    split; [by left|]. exists p, pn. split; [done|]. split; [done|]. by left.
  - pose proof (lookup_lt_Some _ _ _ Hn) as Hlt.
    unfold Rave.extend_path. rewrite decide_False by lia.
    set (new := set_parent (new_node b pos) leaf).
    set (t1 := <[leaf := add_child n (length t)]> t ++ [new]) in *.
    assert (Hlen1 : length t1 = S (length t)).
    { unfold t1. rewrite length_app, length_insert. simpl. lia. }
    split.
    + destruct (expanded_old t leaf 0 n new root Hn Hroot) as (m' & Hm' & _).
      by eexists.
    + done.
    + intros id m Hm c Hc. rewrite Hlen1.
      destruct (lookup_expanded _ _ _ _ _ _ Hn Hm)
        as [[_ ->]|[[-> ->]|[_ Hold]]].
      * simpl in Hc. by apply elem_of_nil in Hc.
      * simpl in Hc. apply elem_of_app in Hc as [Hc|Hc].
        -- pose proof (Hch leaf n Hn c Hc). lia.
        -- apply list_elem_of_singleton in Hc as ->. lia.
      * pose proof (Hch id m Hold c Hc). lia.
    + done.
    + intros id m Hm Hid.
      destruct (lookup_expanded _ _ _ _ _ _ Hn Hm)
        as [[_ ->]|[[-> ->]|[_ Hold]]].
      * simpl. split; [done|].
        destruct Htb as (Hl & _ & Hnn).
        destruct (lookupZ_in_range (Rave.rave_total tb) pos) as [rt Hrt];
          [lia|lia|].
        exists rt. split; [done|].
        destruct (lookupZ_Some _ _ _ Hrt) as [_ Hrt'].
        pose proof (proj1 (Forall_lookup _ _) Hnn _ _ Hrt') as Hge.
        simpl in Hge. lia.
      * apply (Hcov leaf n Hn Hid).
      * apply (Hcov id m Hold Hid).
    + apply Forall_app. split.
      * eapply Forall_impl; [exact Hpath|]. intros i Hi. simpl in *. lia.
      * apply Forall_singleton. lia.
    + assert (Hold : ∀ id m, t !! id = Some m → id ≠ 0%nat →
                (1 ≤ total_cnt m ∨ id ∈ path ++ [length t])
                ∧ ∃ p pn, parent m = Some p ∧ t1 !! p = Some pn
                          ∧ (1 ≤ total_cnt pn ∨ p ∈ path ++ [length t])).
      { intros id m Hm Hid.
        destruct (Hvis id m Hm Hid) as (Hv & p & pn & Hp & Hpn & Hpv).
        split; [by left|].
        destruct (expanded_old t leaf p n new pn Hn Hpn)
          as (pn' & Hpn' & Htot & _).
        exists p, pn'. split; [done|]. split; [done|]. left. lia. }
      intros id m Hm Hid.
      destruct (lookup_expanded _ _ _ _ _ _ Hn Hm)
        as [[-> ->]|[[-> ->]|[_ Hm']]].
      * split.
        { right. apply elem_of_app. right. constructor. }
        destruct (expanded_old t leaf leaf n new n Hn Hn)
          as (n' & Hn' & _).
        exists leaf, n'. split; [done|]. split; [done|].
        right. apply elem_of_app. by left.
      * apply (Hold leaf n Hn Hid).
      * apply (Hold id m Hm' Hid).
Qed.

(** A turn of the loop that completes keeps the invariant. *)
Lemma rave_inv_iteration (s s' : Rave.search) :
  Rave.iteration 0 s = Some s' → rave_inv s → rave_inv s'.
Proof.
  unfold Rave.iteration, Rave.simulate_and_backup. intros Hit Hinv.
  destruct (Rave.nodes s !! 0%nat) as [root|] eqn:Hroot;
    [simpl in Hit|done].
  destruct (select_root_to_leaf _ _ _ _ _) as [path|] eqn:Hsel;
    [simpl in Hit|done].
  destruct (last path) as [leaf|] eqn:Hlast; [simpl in Hit|done].
  destruct (expand_from_leaf _ _ _) as [[[t x] e]|] eqn:Hx;
    [simpl in Hit|done].
  destruct (last (Rave.extend_path path leaf x)) as [back|];
    [simpl in Hit|done].
  destruct (t !! back) as [n|]; [simpl in Hit|done].
  destruct (simulate_winner n e) as [[winner e1]|]; [simpl in Hit|done].
  destruct (Rave.back_propagate _ _ _ _ _) as [[t' tb']|] eqn:Hbp;
    [simpl in Hit|done].
  injection Hit as <-.
  destruct (select_root_to_leaf_valid _ _ _ _ _ _ (inv_children s Hinv)
              (lookup_lt_Some _ _ _ Hroot) Hsel) as (Hpath & _ & _).
  apply (ready_backup t t' (Rave.tabs s) tb'
           (Rave.extend_path path leaf x) winner e1); [|done].
  apply (ready_expand s path leaf x t e Hinv Hpath); [|done].
  apply last_Some in Hlast as [l' ->]. apply elem_of_app. right.
  constructor.
Qed.

Lemma rave_inv_iterations (N : nat) (s s' : Rave.search) :
  Rave.iterations N 0 s = Some s' → rave_inv s → rave_inv s'.
Proof.
  revert s. induction N as [|N IH]; intros s; simpl.
  - by intros [= <-].
  - destruct (Rave.iteration 0 s) as [s1|] eqn:E; [simpl|done].
    intros Hrest Hinv. apply (IH _ Hrest).
    by apply (rave_inv_iteration s s1).
Qed.

(** Under the invariant the scores of a node that is not the root have a
    value: no divisor is zero, and the logarithm is taken of a positive
    count. *)
Lemma rave_inv_scores (s : Rave.search) (id : nat) (n : node board) :
  rave_inv s → Rave.nodes s !! id = Some n → id ≠ 0%nat →
  is_Some (Rave.win_rate n (Rave.tabs s))
  ∧ is_Some (exploration (Rave.nodes s) n)
  ∧ is_Some (Rave.ucb (Rave.tabs s) (Rave.nodes s) id)
  ∧ is_Some (Rave.ucb_opponent (Rave.tabs s) (Rave.nodes s) id).
Proof.
  intros [_ (Hlt & Hlw & _) _ _ Hcov Hvis] Hn Hid.
  destruct (Hcov id n Hn Hid) as (Hr & rt & Hrt & Hle).
  destruct (Hvis id n Hn Hid) as (Hv & p & pn & Hp & Hpn & Hpv).
  destruct (lookupZ_in_range (Rave.rave_win (Rave.tabs s)) (place_pos n))
    as [rw Hrw]; [lia|lia|].
  assert (Hwr : is_Some (Rave.win_rate n (Rave.tabs s))).
  { unfold Rave.win_rate.
    rewrite (proj2 (Z.eqb_neq (total_cnt n) 0)), andb_false_r by lia.
    rewrite WinRate.fdiv_ne_0 by lia. simpl. rewrite Hrw, Hrt. simpl.
    rewrite WinRate.fdiv_ne_0 by lia. simpl. by eexists. }
  assert (Hex : is_Some (exploration (Rave.nodes s) n)).
  { unfold exploration. rewrite Hp. simpl. rewrite Hpn. simpl.
    rewrite (proj2 (Z.leb_gt (total_cnt pn) 0)) by lia.
    unfold Num.fdiv. case_decide as E0; [|by eexists].
    by apply WinRate.of_int_ne_0 in E0; [|lia]. }
  destruct Hwr as [wr Hwr]. destruct Hex as [ex Hex].
  split; [by eexists|]. split; [by eexists|].
  unfold Rave.ucb, Rave.ucb_opponent. rewrite Hn. simpl.
  rewrite Hwr. simpl. rewrite Hex. simpl. split; by eexists.
Qed.

End Search.
End RaveInv.

(** ** The playout returns *)

Module Playout.
Import NoGo Expand.

Section Lemmas.
Context {board : Type} `{NoGoBoard board}.
Context {engine : Type} `{Engine engine}.

(** Each turn of the loop of [simulate_winner] either shortens the queue or
    adds a refusal, and the loop stops when the refusals fill the queue:
    [len * len + len] turns are enough. *)
Lemma playout_total (fuel : nat) :
  ∀ (b : board) (q : list Z) (cnt : nat),
    (cnt ≤ length q)%nat →
    (length q * length q + (length q - cnt) ≤ fuel)%nat →
    is_Some (playout fuel b q cnt).
Proof.
  induction fuel as [|fuel IH]; intros b q cnt Hcnt Hfuel.
  - assert (cnt = length q) as -> by lia.
    simpl. rewrite decide_True by done. by eexists.
  - simpl. case_decide as Hd; [by eexists|].
    destruct q as [|i q']; [simpl in *; lia|].
    simpl in Hcnt, Hfuel, Hd.
    destruct (place b i) as [b'|].
    + apply IH; [lia|]. nia.
    + apply IH; rewrite length_app; simpl; [lia|]. nia.
Qed.

Lemma simulate_winner_total (n : node board) (e : engine) :
  ∃ winner, simulate_winner n e = Some (winner, (all_space e).2)
            ∧ (winner = black ∨ winner = white).
Proof.
  unfold simulate_winner. destruct (all_space e) as [vec e'] eqn:E. simpl.
  destruct (playout_total (playout_fuel (length vec)) (nboard n) vec 0)
    as [b Hb]; [lia|unfold playout_fuel; lia|].
  rewrite Hb. simpl.
  eexists. split; [done|]. case_decide; auto.
Qed.

End Lemmas.
End Playout.

(** ** The first turn of the RAVE player *)

Module FirstTurn.
Import NoGo Backup Expand Invariant RaveInv Playout.

Section Lemmas.
Context {board : Type} `{NoGoBoard board}.
Context {engine : Type} `{Engine engine}.
Context `{Libm}.

Lemma is_leaf_no_child (n : node board) : child n = [] → is_leaf n = true.
Proof.
  intros Hc. unfold is_leaf. rewrite Hc.
  generalize (length (filter (λ i, legal (nboard n) i = true) (seqZ 0 81))).
  intros cnt. repeat case_bool_decide; simpl in *; try done. lia.
Qed.

Lemma select_no_child (ucb ucb_opponent : list (node board) → nat → option Qc)
  (root : node board) (who : Z) :
  child root = [] →
  select_root_to_leaf ucb ucb_opponent [root] 0 who = Some [0%nat].
Proof.
  intros Hc. unfold select_root_to_leaf. cbn [length select_from].
  change ([root] !! 0%nat) with (Some root). cbn [mbind option_bind].
  by rewrite (is_leaf_no_child root Hc).
Qed.

(** The first turn on a tree that is a root without children whose board
    accepts a position. *)
Lemma first_turn_from (root : node board) (tb : Rave.tables) (e : engine) :
  child root = [] →
  (∃ pos, 0 ≤ pos < 81 ∧ is_Some (place (nboard root) pos)) →
  ∃ pos b winner e',
    0 ≤ pos < 81 ∧ place (nboard root) pos = Some b
    ∧ Rave.iteration 0 (Rave.Search [root] tb e)
      = Some (Rave.Search
                [after_backup (won winner root) 1 (add_child root 1);
                 after_backup (won winner root) 1
                   (set_parent (new_node b pos) 0)]
                (rave_bump (won winner root)
                   (rave_bump (won winner root) tb (place_pos root)) pos)
                e').
Proof.
  intros Hc (p0 & Hp0 & Hlegal).
  destruct (expand_from_leaf [root] 0 e) as [[[t1 x] e1]|] eqn:Hx.
  2:{ unfold expand_from_leaf in Hx. simpl in Hx.
      destruct (all_space e); by destruct (first_legal _ _) as [[? ?]|]. }
  destruct (expand_from_leaf_cases _ _ _ _ _ _ Hx) as (n & Hn & Hcase).
  injection Hn as <-.
  destruct Hcase as [(_ & _ & Hnone)|(pos & b & Hpos & Hplace & -> & ->)].
  { rewrite (Hnone p0 Hp0) in Hlegal. by destruct Hlegal. }
  set (c := set_parent (new_node b pos) 0) in *.
  set (r1 := add_child root 1).
  change (<[0%nat := add_child root (length [root])]> [root] ++ [c])
    with [r1; c] in Hx.
  destruct (simulate_winner_total c e1) as (winner & Hsim & _).
  exists pos, b, winner, (all_space e1).2.
  split; [done|]. split; [done|].
  unfold Rave.iteration. cbn [Rave.nodes Rave.tabs Rave.eng].
  change ([root] !! 0%nat) with (Some root). cbn [mbind option_bind].
  rewrite (select_no_child _ _ root _ Hc). cbn [last mbind option_bind].
  rewrite Hx. cbn [mbind option_bind length].
  unfold Rave.extend_path. rewrite decide_False by lia.
  unfold Rave.simulate_and_backup. cbn [app last mbind option_bind].
  change ([r1; c] !! 1%nat) with (Some c). cbn [mbind option_bind].
  rewrite Hsim. cbn [mbind option_bind].
  unfold Rave.back_propagate. cbn [foldl].
  rewrite (rave_backup_step [r1; c] tb 0 0 winner r1 r1 eq_refl eq_refl).
  cbn [insert list_insert].
  rewrite (rave_backup_step [after_backup (won winner r1) 1 r1; c]
             (rave_bump (won winner r1) tb (place_pos r1)) 0 1 winner
             (after_backup (won winner r1) 1 r1) c eq_refl eq_refl).
  cbn [insert list_insert mbind option_bind]. done.
Qed.

(** C1 (the code on every root that has a legal move): the first turn of
    the loop of [MCTS] completes with the path root, new child; the backup
    indexes both tables with [place_pos] of each node of the path, and the
    root's is -1: [rave_total[-1]] is an access outside the 81 entries.
    Inside the tables, [rave_total] is 1 at the child's position and 0
    elsewhere. *)
Theorem first_turn_index (state : board) (e : engine) :
  (∃ pos, 0 ≤ pos < 81 ∧ is_Some (place state pos)) →
  ∃ s' root' c,
    Rave.iteration 0 (Rave.start state e) = Some s'
    ∧ Rave.nodes s' = [root'; c]
    ∧ child root' = [1%nat] ∧ total_cnt root' = 1 ∧ place_pos root' = -1
    ∧ total_cnt c = 1 ∧ parent c = Some 0%nat ∧ 0 ≤ place_pos c < 81
    ∧ -1 ∈ Rave.oob (Rave.tabs s')
    ∧ ∀ p, 0 ≤ p < 81 →
           lookupZ (Rave.rave_total (Rave.tabs s')) p
           = Some (if decide (place_pos c = p) then 1 else 0).
Proof.
  intros Hlegal.
  destruct (first_turn_from (new_node state (-1))
              (Rave.Tables (replicate 81 0) (replicate 81 0) []) e
              eq_refl Hlegal) as (pos & b & winner & e' & Hpos & _ & E).
  eexists _, _, _. split; [exact E|].
  cbn [Rave.nodes Rave.tabs]. split; [reflexivity|].
  set (w := won winner (new_node state (-1))).
  split; [done|]. split; [done|]. split; [done|]. split; [done|].
  split; [done|]. split; [done|]. split.
  - apply rave_bump_oob_mono. by apply rave_bump_oob.
  - intros p Hp. rewrite !rave_bump_total.
    set (tb := Rave.Tables (replicate 81 0) (replicate 81 0) []).
    assert (E0 : lookupZ (Rave.rave_total tb) p = Some 0).
    { unfold lookupZ. rewrite (proj2 (Z.leb_le 0 p)) by lia.
      apply lookup_replicate_2. lia. }
    assert (E1 : (bump (Rave.rave_total tb) (Rave.oob tb) (-1)).1
                 = Rave.rave_total tb) by done.
    simpl place_pos. rewrite E1.
    by rewrite (bump_lookup _ _ _ _ _ E0).
Qed.

End Lemmas.
End FirstTurn.

(** ** The nodes the RAVE player scores *)

Module RaveSafe.
Import NoGo Backup Expand Invariant RaveInv.

Section Search.
Context {board : Type} `{NoGoBoard board}.
Context {engine : Type} `{Engine engine}.
Context `{Libm}.

(** C10: after any number of completed turns of the loop of [MCTS] on a new
    root, every node [n] but the root has [total_cnt >= 1], a [place_pos]
    inside the tables and [rave_total[place_pos] >= total_cnt], and its
    parent has [total_cnt >= 1]; the children of a node are such nodes.  So
    [win_rate], [ucb] and [ucb_opponent] have a value on them: the
    divisions by [total_cnt] and by [rave_total[place_pos]] have a divisor
    that is not zero. *)
Theorem rave_children_visited (N : nat) (state : board) (e : engine)
  (s' : Rave.search) :
  Rave.iterations N 0 (Rave.start state e) = Some s' →
  (∀ id n c, Rave.nodes s' !! id = Some n → c ∈ child n →
             c ≠ 0%nat ∧ is_Some (Rave.nodes s' !! c))
  ∧ ∀ id n, Rave.nodes s' !! id = Some n → id ≠ 0%nat →
      1 ≤ total_cnt n
      ∧ 0 ≤ place_pos n < 81
      ∧ (∃ rt, lookupZ (Rave.rave_total (Rave.tabs s')) (place_pos n)
               = Some rt ∧ total_cnt n ≤ rt)
      ∧ is_Some (Rave.win_rate n (Rave.tabs s'))
      ∧ is_Some (Rave.ucb (Rave.tabs s') (Rave.nodes s') id)
      ∧ is_Some (Rave.ucb_opponent (Rave.tabs s') (Rave.nodes s') id).
Proof.
  intros Hrun.
  pose proof (rave_inv_iterations N _ _ Hrun (rave_inv_start state e))
    as Hinv.
  split.
  - intros id n c Hn Hc.
    pose proof (inv_children s' Hinv id n Hn c Hc) as Hlt.
    split; [lia|]. apply lookup_lt_is_Some_2. lia.
  - intros id n Hn Hid.
    destruct (inv_covered s' Hinv id n Hn Hid) as (Hr & Hrt).
    destruct (inv_visited s' Hinv id n Hn Hid) as (Hv & _).
    destruct (rave_inv_scores s' id n Hinv Hn Hid) as (Hw & _ & Hu & Ho).
    done.
Qed.

End Search.

#[local] Existing Instance coarse_libm.

(** A board with three empty cells, and a script for eight turns. *)
Definition three_left : Open81.board :=
  Open81.Board (replicate 78 1 ++ [0; 0; 0]) NoGo.black.
Definition eight_turns : Script.engine :=
  [78; 0; 79; 3; 80; 0; 0; 0; 0; 0; 0; 0; 0; 0; 0; 0]%nat.

Lemma rave_children_visited_witness :
  ∃ s', Rave.iterations 8 0 (Rave.start three_left eight_turns) = Some s'
        ∧ ∀ id n, Rave.nodes s' !! id = Some n → id ≠ 0%nat →
            1 ≤ total_cnt n
            ∧ is_Some (Rave.ucb (Rave.tabs s') (Rave.nodes s') id).
Proof.
  assert (Hrun : is_Some (Rave.iterations 8 0
                            (Rave.start three_left eight_turns))).
  { vm_compute. by eexists. }
  destruct Hrun as [s' E]. exists s'. split; [exact E|].
  intros id n Hn Hid.
  destruct (rave_children_visited 8 three_left eight_turns s' E)
    as [_ Hall].
  destruct (Hall id n Hn Hid) as (Hv & _ & _ & _ & Hu & _).
  exact (conj Hv Hu).
Defined.

(** The first turn on the empty board. *)
Lemma first_turn_index_witness :
  ∃ s', Rave.iteration 0 (Rave.start Open81.empty_board [5; 0]%nat) = Some s'
        ∧ -1 ∈ Rave.oob (Rave.tabs s').
Proof.
  destruct (FirstTurn.first_turn_index Open81.empty_board [5; 0]%nat)
    as (s' & root' & c & E & _ & _ & _ & _ & _ & _ & _ & Hoob & _).
  - exists 0. split; [lia|]. vm_compute. by eexists.
  - exists s'. exact (conj E Hoob).
Defined.

(** The backup of the path root, child on a tree of two nodes. *)
Definition two_nodes : list (node Open81.board) :=
  [add_child (new_node Open81.empty_board (-1)) 1;
   set_parent (new_node Open81.empty_board 5) 0].

Lemma back_propagate_counts_witness :
  ∃ t', Par.back_propagate 0 [0; 1]%nat NoGo.black two_nodes = Some t'
        ∧ ∀ id n, two_nodes !! id = Some n →
            ∃ n', t' !! id = Some n'
                  ∧ total_cnt n' = total_cnt n + visits id [0; 1]%nat.
Proof.
  destruct (back_propagate_counts two_nodes 0
              (add_child (new_node Open81.empty_board (-1)) 1)
              [0; 1]%nat NoGo.black WinRate.zero_tables eq_refl)
    as ((t' & E & _ & Hall) & _).
  - repeat constructor.
  - exists t'. split; [exact E|]. intros id n Hn.
    destruct (Hall id n Hn) as (n' & Hn' & Ht & _).
    exists n'. exact (conj Hn' Ht).
Defined.

(** Eight turns of either player complete on [three_left]. *)
Lemma eight_turns_complete :
  is_Some (Par.iterations 8 0 (Par.start three_left eight_turns))
  ∧ is_Some (Rave.iterations 8 0 (Rave.start three_left eight_turns)).
Proof. split; vm_compute; by eexists. Qed.

End RaveSafe.

(** * Further properties of the code *)

(** ** The shape of the search tree *)

Module Structure.
Import NoGo Backup Expand Invariant RaveInv.

Section Lemmas.
Context {board : Type} `{NoGoBoard board}.
Context {engine : Type} `{Engine engine}.

Abbreviation tree := (list (node board)).

(** Two nodes that differ at most in their counters. *)
Definition same_shape (m m' : node board) : Prop :=
  nboard m' = nboard m ∧ place_pos m' = place_pos m
  ∧ child m' = child m ∧ parent m' = parent m.

(** The links of the tree: the root has no parent; a child is a later node
    of the arena whose parent link points back; every other node hangs
    under its parent, at a position of the board, with the board that
    [place] gives from the parent's board at that position. *)
Definition tree_ok (t : tree) : Prop :=
  (∃ root, t !! 0%nat = Some root ∧ parent root = None)
  ∧ (∀ id n c, t !! id = Some n → c ∈ child n →
       (id < c < length t)%nat
       ∧ ∃ cn, t !! c = Some cn ∧ parent cn = Some id)
  ∧ (∀ id n, t !! id = Some n → id ≠ 0%nat →
       ∃ p pn, parent n = Some p ∧ t !! p = Some pn ∧ id ∈ child pn
               ∧ 0 ≤ place_pos n < 81
               ∧ place (nboard pn) (place_pos n) = Some (nboard n)).

Lemma tree_ok_children (t : tree) : tree_ok t → children_ok t.
Proof.
  intros (_ & Hc & _) id n Hn c Hin. by destruct (Hc id n c Hn Hin).
Qed.

Lemma tree_ok_start (state : board) : tree_ok [new_node state (-1)].
Proof.
  split; [by eexists|]. split.
  - intros [|id] n c Hn Hc; simpl in Hn; [|done].
    injection Hn as <-. by apply elem_of_nil in Hc.
  - intros [|id] n Hn; simpl in Hn; done.
Qed.

(** A tree whose nodes have the shapes of the nodes of [t] has the links
    of [t]. *)
Lemma tree_ok_shape (t t' : tree) :
  length t' = length t →
  (∀ j m, t !! j = Some m → ∃ m', t' !! j = Some m' ∧ same_shape m m') →
  tree_ok t → tree_ok t'.
Proof.
  intros Hlen Hsh ((root & Hroot & Hpr) & Hch & Hpar).
  assert (Hback : ∀ j m', t' !! j = Some m' →
            ∃ m, t !! j = Some m ∧ same_shape m m').
  { intros j m' Hm'.
    destruct (lookup_lt_is_Some_2 t j) as [m Hm].
    { rewrite <- Hlen. by apply lookup_lt_Some in Hm'. }
    destruct (Hsh j m Hm) as (m0 & Hm0 & Hs). exists m.
    split; [done|]. congruence. }
  split; [|split].
  - destruct (Hsh 0%nat root Hroot) as (r' & Hr' & _ & _ & _ & Hp).
    exists r'. split; [done|]. congruence.
  - intros id n' c Hn' Hc.
    destruct (Hback id n' Hn') as (n & Hn & _ & _ & Hchild & _).
    rewrite Hchild in Hc.
    destruct (Hch id n c Hn Hc) as (Hlt & cn & Hcn & Hcp).
    rewrite Hlen. split; [done|].
    destruct (Hsh c cn Hcn) as (cn' & Hcn' & _ & _ & _ & Hp).
    exists cn'. split; [done|]. congruence.
  - intros id n' Hn' Hid.
    destruct (Hback id n' Hn') as (n & Hn & Hb & Hpp & _ & Hp).
    destruct (Hpar id n Hn Hid) as (p & pn & Hpn & Hlook & Hin & Hr & Hpl).
    destruct (Hsh p pn Hlook) as (pn' & Hpn' & Hb' & _ & Hc' & _).
    exists p, pn'. rewrite Hp, Hpp, Hb, Hb', Hc'. done.
Qed.

Lemma same_shape_after_backup (w : bool) (k : Z) (n : node board) :
  same_shape n (after_backup w k n).
Proof. done. Qed.

Lemma tree_ok_after_backup (t : tree) (id : nat) (n : node board)
  (w : bool) :
  tree_ok t → t !! id = Some n → tree_ok (<[id := after_backup w 1 n]> t).
Proof.
  intros Hok Hn. apply (tree_ok_shape t); [by rewrite length_insert| |done].
  intros j m Hm. destruct (decide (id = j)) as [->|Hne].
  - exists (after_backup w 1 n).
    rewrite list_lookup_insert_eq by (by apply lookup_lt_Some in Hn).
    split; [done|]. assert (m = n) as -> by congruence. done.
  - exists m. by rewrite list_lookup_insert_ne.
Qed.

(** A node of the tree keeps everything but its list of children, which
    can only grow, when the tree is expanded. *)
Lemma expanded_keeps (t : tree) (leaf id : nat) (n new m : node board) :
  t !! leaf = Some n → t !! id = Some m →
  ∃ m', (<[leaf := add_child n (length t)]> t ++ [new]) !! id = Some m'
        ∧ nboard m' = nboard m ∧ place_pos m' = place_pos m
        ∧ parent m' = parent m
        ∧ total_cnt m' = total_cnt m ∧ win_cnt m' = win_cnt m
        ∧ (∀ c, c ∈ child m → c ∈ child m')
        ∧ (id ≠ leaf → child m' = child m).
Proof.
  intros Hn Hm. pose proof (lookup_lt_Some _ _ _ Hm) as Hlt.
  rewrite lookup_app_l by (by rewrite length_insert).
  destruct (decide (id = leaf)) as [->|Hne].
  - rewrite list_lookup_insert_eq by done. exists (add_child n (length t)).
    assert (m = n) as -> by congruence. simpl.
    repeat split; try done. intros c Hc. apply elem_of_app. by left.
  - rewrite list_lookup_insert_ne by done. exists m. done.
Qed.

Lemma tree_ok_expand (t t' : tree) (leaf x : nat) (e e' : engine) :
  expand_from_leaf t leaf e = Some (t', x, e') → tree_ok t → tree_ok t'.
Proof.
  intros Hx Hok.
  destruct (expand_from_leaf_cases _ _ _ _ _ _ Hx) as (n & Hn & Hcase).
  destruct Hcase as [(-> & _)|(pos & b & Hpos & Hplace & -> & ->)]; [done|].
  destruct Hok as ((root & Hroot & Hpr) & Hch & Hpar).
  pose proof (lookup_lt_Some _ _ _ Hn) as Hlt.
  set (new := set_parent (new_node b pos) leaf).
  set (t1 := <[leaf := add_child n (length t)]> t ++ [new]).
  assert (Hlen1 : length t1 = S (length t)).
  { unfold t1. rewrite length_app, length_insert. simpl. lia. }
  assert (Hnew : t1 !! length t = Some new).
  { unfold t1. rewrite lookup_app_r by (by rewrite length_insert).
    rewrite length_insert. by rewrite Nat.sub_diag. }
  split; [|split].
  - destruct (expanded_keeps t leaf 0 n new root Hn Hroot)
      as (r' & Hr' & _ & _ & Hp & _).
    exists r'. split; [done|]. congruence.
  - intros id m c Hm Hc. rewrite Hlen1.
    assert (Hold : ∀ m0, t !! id = Some m0 → c ∈ child m0 →
              (id < c < S (length t))%nat
              ∧ ∃ cn, t1 !! c = Some cn ∧ parent cn = Some id).
    { intros m0 Hm0 Hc0.
      destruct (Hch id m0 c Hm0 Hc0) as (Hb & cn & Hcn & Hcp).
      split; [lia|].
      destruct (expanded_keeps t leaf c n new cn Hn Hcn)
        as (cn' & Hcn' & _ & _ & Hp & _).
      exists cn'. split; [done|]. congruence. }
    destruct (lookup_expanded _ _ _ _ _ _ Hn Hm)
      as [[_ ->]|[[-> ->]|[_ Hm0]]].
    + simpl in Hc. by apply elem_of_nil in Hc.
    + simpl in Hc. apply elem_of_app in Hc as [Hc|Hc].
      * by apply (Hold n).
      * apply list_elem_of_singleton in Hc as ->.
        split; [lia|]. by exists new.
    + by apply (Hold m).
  - intros id m Hm Hid.
    assert (Hold : ∀ m0, t !! id = Some m0 →
              ∃ p pn, parent m0 = Some p ∧ t1 !! p = Some pn
                      ∧ id ∈ child pn ∧ 0 ≤ place_pos m0 < 81
                      ∧ place (nboard pn) (place_pos m0) = Some (nboard m0)).
    { intros m0 Hm0.
      destruct (Hpar id m0 Hm0 Hid) as (p & pn & Hp & Hpn & Hin & Hr & Hpl).
      destruct (expanded_keeps t leaf p n new pn Hn Hpn)
        as (pn' & Hpn' & Hb & _ & _ & _ & _ & Hsub & _).
      exists p, pn'. rewrite Hb. repeat split; try done; try lia.
      by apply Hsub. }
    destruct (lookup_expanded _ _ _ _ _ _ Hn Hm)
      as [[-> ->]|[[-> ->]|[_ Hm0]]].
    + exists leaf, (add_child n (length t)).
      split; [done|]. split.
      { unfold t1. rewrite lookup_app_l by (by rewrite length_insert).
        by apply list_lookup_insert_eq. }
      split; [simpl; apply elem_of_app; right; constructor|].
      split; [done|]. done.
    + destruct (Hold n Hn) as (p & pn & Hp & Hpn & Hin & Hr & Hpl).
      by exists p, pn.
    + by apply Hold.
Qed.

(** No node is twice among the children of a node. *)
Definition children_once (t : tree) : Prop :=
  ∀ id n, t !! id = Some n → NoDup (child n).

Lemma children_once_start (state : board) :
  children_once [new_node state (-1)].
Proof.
  intros [|id] n Hn; simpl in Hn; [|done].
  injection Hn as <-. constructor.
Qed.

Lemma children_once_after_backup (t : tree) (id : nat) (n : node board)
  (w : bool) :
  children_once t → t !! id = Some n →
  children_once (<[id := after_backup w 1 n]> t).
Proof.
  intros Hok Hn j m Hm. destruct (decide (id = j)) as [->|Hne].
  - rewrite list_lookup_insert_eq in Hm by (by apply lookup_lt_Some in Hn).
    injection Hm as <-. by apply (Hok j n).
  - rewrite list_lookup_insert_ne in Hm by done. by apply (Hok j m).
Qed.

Lemma children_once_expand (t t' : tree) (leaf x : nat) (e e' : engine) :
  expand_from_leaf t leaf e = Some (t', x, e') →
  children_ok t → children_once t → children_once t'.
Proof.
  intros Hx Hch Hok.
  destruct (expand_from_leaf_cases _ _ _ _ _ _ Hx) as (n & Hn & Hcase).
  destruct Hcase as [(-> & _)|(pos & b & _ & _ & _ & ->)]; [done|].
  intros id m Hm.
  destruct (lookup_expanded _ _ _ _ _ _ Hn Hm)
    as [[_ ->]|[[-> ->]|[_ Hold]]]; simpl.
  - constructor.
  - apply NoDup_app. split; [by apply (Hok leaf n)|].
    split; [|apply NoDup_singleton].
    intros c Hc Hc'. apply list_elem_of_singleton in Hc' as ->.
    pose proof (Hch leaf n Hn _ Hc). lia.
  - by apply (Hok id m).
Qed.

End Lemmas.
End Structure.

(** ** The range of the scores *)

(** What the search needs of [std::log] and [std::sqrt]: the logarithm of
  a count of at least one is not negative, and neither is the square root
  of a number that is not negative. *)
Class LibmLaws `{Libm} : Prop := {
flog_nonneg : ∀ z, 1 ≤ z → (0 ≤ flog z)%Qc;
fsqrt_nonneg : ∀ x, (0 ≤ x)%Qc → (0 ≤ fsqrt x)%Qc;
}.

Module Scores.
Import NoGo Invariant.

Lemma of_int_nonneg (z : Z) : 0 ≤ z → (0 ≤ Num.of_int z)%Qc.
Proof.
  intros Hz. unfold Num.of_int. rewrite <- Z2Qc_inj_0.
  by apply (proj1 (Z2Qc_inj_le 0 z)).
Qed.

Lemma of_int_pos (z : Z) : 0 < z → (0 < Num.of_int z)%Qc.
Proof.
  intros Hz. unfold Num.of_int. rewrite <- Z2Qc_inj_0.
  by apply (proj1 (Z2Qc_inj_lt 0 z)).
Qed.

Lemma of_int_le (a b : Z) : a ≤ b → (Num.of_int a ≤ Num.of_int b)%Qc.
Proof.
  intros Hab. unfold Num.of_int. by apply (proj1 (Z2Qc_inj_le a b)).
Qed.

Lemma neg_FLT_MAX_neg : (- Num.FLT_MAX < 0)%Qc.
Proof. by vm_compute. Qed.

(** A score that is not negative beats the start of the scan,
    [-FLT_MAX]. *)
Lemma flt_floor (v : Qc) : (0 ≤ v)%Qc → Num.flt (- Num.FLT_MAX) v = true.
Proof.
  intros Hv. apply Expectimax.flt_lt.
  eapply Qclt_le_trans; [apply neg_FLT_MAX_neg|done].
Qed.

Lemma flt_ge (a b : Qc) : Num.flt a b = false → (b ≤ a)%Qc.
Proof.
  intros E. apply Qcnot_lt_le. intros Hlt.
  apply Expectimax.flt_lt in Hlt. congruence.
Qed.

Lemma ratio_range (a b : Qc) :
  (0 ≤ a)%Qc → (a ≤ b)%Qc → (0 < b)%Qc → (0 ≤ a / b ≤ 1)%Qc.
Proof.
  intros Ha Hab Hb. unfold Qcdiv. split.
  - apply Qcmult_nonneg_nonneg; [done|].
    apply Qclt_le_weak. by apply Qcinv_pos.
  - rewrite <- (Qcmult_inv_r b).
    + apply Qcmult_le_mono_nonneg_r; [|done].
      apply Qclt_le_weak. by apply Qcinv_pos.
    + apply not_eq_sym. by apply Qclt_not_eq.
Qed.

Lemma ratio_nonneg (a b : Qc) : (0 ≤ a)%Qc → (0 < b)%Qc → (0 ≤ a / b)%Qc.
Proof.
  intros Ha Hb. unfold Qcdiv. apply Qcmult_nonneg_nonneg; [done|].
  apply Qclt_le_weak. by apply Qcinv_pos.
Qed.

(** The conversion of a positive [int] to [float] is positive. *)
Lemma round_pos (z : Z) : 0 < z → 0 < Binary32.round z.
Proof.
  intros Hz. unfold Binary32.round. rewrite (Z.abs_eq z) by lia.
  destruct (z <? 2 ^ 24) eqn:E; [done|]. apply Z.ltb_ge in E.
  rewrite (Z.sgn_pos z), Z.mul_1_l by done.
  assert (Hlog : 24 ≤ Z.log2 z) by (by apply Z.log2_le_pow2).
  set (e := Z.log2 z - 23).
  assert (Hq : 0 < Z.shiftr z e).
  { rewrite Z.shiftr_div_pow2 by lia.
    apply Z.div_str_pos. split; [by apply Z.pow_pos_nonneg; lia|].
    transitivity (2 ^ Z.log2 z).
    - apply Z.pow_le_mono_r; lia.
    - by apply Z.log2_spec. }
  rewrite Z.shiftl_mul_pow2 by lia.
  apply Z.mul_pos_pos; [|apply Z.pow_pos_nonneg; lia].
  repeat case_match; lia.
Qed.

Lemma round_nonneg (z : Z) : 0 ≤ z → 0 ≤ Binary32.round z.
Proof.
  intros Hz. destruct (decide (z = 0)) as [->|]; [done|].
  apply Z.lt_le_incl, round_pos. lia.
Qed.

(** Rounding to binary32 keeps a number that is not negative so. *)
Lemma nearest_nonneg (q : Qc) : (0 ≤ q)%Qc → (0 ≤ Binary32.nearest q)%Qc.
Proof.
  intros Hq. unfold Binary32.nearest.
  assert (Hn : 0 ≤ Qnum q).
  { destruct q as [[n d] Hc]. unfold Qcle, Qle in Hq. simpl in *. lia. }
  destruct (Z.abs (Qnum q) =? 0); [done|].
  set (k := 24 + Z.log2 (Z.pos (Qden q)) - Z.log2 (Z.abs (Qnum q))).
  set (num := Z.abs (Qnum q) * 2 ^ Z.max k 0).
  set (den := Z.pos (Qden q) * 2 ^ Z.max (- k) 0).
  assert (Hnum : 0 ≤ num).
  { apply Z.mul_nonneg_nonneg; [lia|]. apply Z.pow_nonneg. lia. }
  assert (Hden : 0 < den).
  { apply Z.mul_pos_pos; [lia|]. apply Z.pow_pos_nonneg; lia. }
  assert (Hs : 0 ≤ Z.sgn (Qnum q)) by lia.
  assert (Hgen : ∀ den' k' : Z, 0 < den' →
    Qcle 0%Qc
      (let m := num / den' in
       let r := num mod den' in
       let m' := if 2 * r <? den' then m
                 else if den' <? 2 * r then m + 1
                 else if Z.even m then m else m + 1 in
       if 0 <=? k'
       then (Num.of_int (Z.sgn (Qnum q) * m') / Num.of_int (2 ^ k'))%Qc
       else Num.of_int (Z.sgn (Qnum q) * m' * 2 ^ (- k')))).
  { intros den' k' Hd. cbv zeta.
    assert (Hm : 0 ≤ num / den') by (by apply Z.div_pos).
    set (m' := if 2 * (num mod den') <? den' then num / den'
               else if den' <? 2 * (num mod den') then num / den' + 1
               else if Z.even (num / den') then num / den'
                    else num / den' + 1).
    assert (Hm' : 0 ≤ m') by (unfold m'; repeat case_match; lia).
    destruct (0 <=? k') eqn:Ek.
    - apply Z.leb_le in Ek. apply ratio_nonneg.
      + apply of_int_nonneg. by apply Z.mul_nonneg_nonneg.
      + apply of_int_pos. apply Z.pow_pos_nonneg; lia.
    - apply of_int_nonneg. apply Z.mul_nonneg_nonneg.
      + by apply Z.mul_nonneg_nonneg.
      + apply Z.pow_nonneg. lia. }
  destruct (num / den <? 2 ^ 24).
  - by apply Hgen.
  - apply Hgen. lia.
Qed.

(** The [float] quotient of a count by a positive count has a value,
    which is not negative. *)
Lemma div_int_nonneg (a b : Z) :
  0 ≤ a → 0 < b → ∃ v, Binary32.div_int a b = Some v ∧ (0 ≤ v)%Qc.
Proof.
  intros Ha Hb. unfold Binary32.div_int, Num.fdiv.
  pose proof (of_int_pos _ (round_pos b Hb)) as Hpos.
  destruct (decide (Num.of_int (Binary32.round b) = 0%Qc)) as [E|_].
  { rewrite E in Hpos. by apply Qclt_not_eq in Hpos. }
  cbn [mbind option_bind]. eexists. split; [done|].
  apply nearest_nonneg, ratio_nonneg; [|done].
  by apply of_int_nonneg, round_nonneg.
Qed.

(** [Binary32.div_int] and the division of [IEEE] on two [int]s converted
    to [float] give the same number; here on some pairs of counts, among
    them counts that the conversion rounds and quotients that tie. *)
Lemma div_int_as_IEEE :
  Forall (λ '(a, b),
            this <$> Binary32.div_int a b
            = IEEE.value (SpecFloat.SFdiv 24 128 (IEEE.of_int 24 128 a)
                                                 (IEEE.of_int 24 128 b)))
         [(0, 7); (1, 3); (22, 5); (4140, 4141); (4141, 4142);
          (16777217, 3); (1, 2147483647); (2147483647, 16777219);
          (8388609, 16777215)].
Proof. repeat constructor. Qed.

Lemma one_minus_range (x : Qc) : (0 ≤ x ≤ 1)%Qc → (0 ≤ 1 - x ≤ 1)%Qc.
Proof.
  intros [H0 H1]. split.
  - apply Qcle_minus_iff in H1. exact H1.
  - apply Qcle_minus_iff.
    replace (1 + - (1 - x))%Qc with x by ring. done.
Qed.

Lemma c15_nonneg : (0 ≤ Num.c15)%Qc.
Proof. by vm_compute. Qed.

(** [(1 - 0.5) * q + 0.5 * rq] stays between the two rates. *)
Lemma blend_range (q rq : Qc) :
  (0 ≤ q ≤ 1)%Qc → (0 ≤ rq ≤ 1)%Qc →
  (0 ≤ (1 - Rave.RAVE_Beta) * q + Rave.RAVE_Beta * rq ≤ 1)%Qc.
Proof.
  intros [Hq0 Hq1] [Hr0 Hr1].
  assert (Hb : (0 ≤ Rave.RAVE_Beta)%Qc) by (by vm_compute).
  assert (Hb' : (0 ≤ 1 - Rave.RAVE_Beta)%Qc) by (by vm_compute).
  split.
  - apply Qcplus_nonneg_nonneg; by apply Qcmult_nonneg_nonneg.
  - replace 1%Qc
      with ((1 - Rave.RAVE_Beta) * 1 + Rave.RAVE_Beta * 1)%Qc by ring.
    eapply Qcle_trans.
    + apply Qcplus_le_mono_r. by apply Qcmult_le_mono_nonneg_l.
    + apply Qcplus_le_mono_l. by apply Qcmult_le_mono_nonneg_l.
Qed.

End Scores.

(** ** The search completes and proposes a legal move *)

Module Progress.
Import NoGo Backup Expand Invariant RaveInv Structure Scores.

(** When every score has a value that is not negative, the scan assigns
    [c] at the first child, and returns a child. *)
Lemma best_child_fold_total (score : nat → option Qc) (l : list nat) :
  (∀ c, c ∈ l → ∃ v, score c = Some v ∧ (0 ≤ v)%Qc) →
  ∀ ms oc,
    (oc = None → ms = (- Num.FLT_MAX)%Qc) →
    ∃ ms' oc',
      foldl (λ acc ci,
               '(max_score, c) ← acc;
               tmp ← score ci;
               Some (if Num.flt max_score tmp then (tmp, Some ci)
                     else (max_score, c)))
            (Some (ms, oc)) l = Some (ms', oc')
      ∧ (oc' = None → l = [] ∧ oc = None).
Proof.
  induction l as [|x l IH]; intros Hs ms oc Hoc; cbn [foldl].
  - by exists ms, oc.
  - destruct (Hs x) as (v & Hv & Hv0); [constructor|].
    assert (Hl : ∀ c, c ∈ l → ∃ v, score c = Some v ∧ (0 ≤ v)%Qc).
    { intros c Hc. apply Hs. by constructor. }
    cbn [mbind option_bind]. rewrite Hv. cbn [mbind option_bind].
    destruct (Num.flt ms v) eqn:E.
    + destruct (IH Hl v (Some x)) as (ms' & oc' & Hf & Hnone); [done|].
      exists ms', oc'. split; [done|]. intros Ho. by destruct (Hnone Ho).
    + destruct oc as [c0|].
      * destruct (IH Hl ms (Some c0)) as (ms' & oc' & Hf & Hnone); [done|].
        exists ms', oc'. split; [done|]. intros Ho. by destruct (Hnone Ho).
      * rewrite (Hoc eq_refl), flt_floor in E by done. done.
Qed.

Lemma best_child_total (score : nat → option Qc) (l : list nat) :
  l ≠ [] → (∀ c, c ∈ l → ∃ v, score c = Some v ∧ (0 ≤ v)%Qc) →
  ∃ c, best_child score l = Some c ∧ c ∈ l.
Proof.
  intros Hne Hs.
  destruct (best_child_fold_total score l Hs (- Num.FLT_MAX)%Qc None)
    as (ms' & oc' & Hf & Hnone); [done|].
  destruct oc' as [c|]; [|by destruct (Hnone eq_refl)].
  assert (Hb : best_child score l = Some c).
  { unfold best_child. by rewrite Hf. }
  exists c. split; [done|]. by apply best_child_elem in Hb.
Qed.

(** What the scan holds after the children [seen]: nothing before the
    first child, and afterwards a child whose score is the largest seen,
    and larger than the scores of the children before it. *)
Definition first_max (score : nat → option Qc) (seen : list nat) (ms : Qc)
  (oc : option nat) : Prop :=
  match oc with
  | None => seen = [] ∧ ms = (- Num.FLT_MAX)%Qc
  | Some c =>
      ∃ l1 l2, seen = l1 ++ c :: l2 ∧ score c = Some ms
               ∧ (∀ c' v', c' ∈ l1 → score c' = Some v' → (v' < ms)%Qc)
               ∧ (∀ c' v', c' ∈ l2 → score c' = Some v' → (v' ≤ ms)%Qc)
  end.

Lemma best_child_fold_max (score : nat → option Qc) (l : list nat) :
  (∀ c, c ∈ l → ∃ v, score c = Some v ∧ (0 ≤ v)%Qc) →
  ∀ seen ms oc,
    first_max score seen ms oc →
    ∃ ms' oc',
      foldl (λ acc ci,
               '(max_score, c) ← acc;
               tmp ← score ci;
               Some (if Num.flt max_score tmp then (tmp, Some ci)
                     else (max_score, c)))
            (Some (ms, oc)) l = Some (ms', oc')
      ∧ first_max score (seen ++ l) ms' oc'.
Proof.
  induction l as [|x l IH]; intros Hs seen ms oc Hinv; cbn [foldl].
  - exists ms, oc. by rewrite app_nil_r.
  - destruct (Hs x) as (v & Hv & Hv0); [constructor|].
    assert (Hl : ∀ c, c ∈ l → ∃ v, score c = Some v ∧ (0 ≤ v)%Qc).
    { intros c Hc. apply Hs. by constructor. }
    cbn [mbind option_bind]. rewrite Hv. cbn [mbind option_bind].
    replace (seen ++ x :: l) with ((seen ++ [x]) ++ l)
      by (by rewrite <- app_assoc).
    destruct (Num.flt ms v) eqn:E.
    + apply Expectimax.flt_lt in E. apply (IH Hl). simpl.
      exists seen, []. split; [done|]. split; [done|]. split.
      * intros c' v' Hc' Hv'. destruct oc as [c|].
        -- destruct Hinv as (l1 & l2 & -> & Hc & Hlt & Hle).
           apply elem_of_app in Hc' as [Hc'|Hc'].
           { by apply (Qclt_trans _ ms); [apply (Hlt c')|]. }
           apply elem_of_cons in Hc' as [->|Hc'].
           { assert (v' = ms) as -> by congruence. done. }
           by apply (Qcle_lt_trans _ ms); [apply (Hle c')|].
        -- destruct Hinv as [-> _]. by apply elem_of_nil in Hc'.
      * intros c' v' Hc'. by apply elem_of_nil in Hc'.
    + destruct oc as [c|].
      * apply flt_ge in E. apply (IH Hl). simpl.
        destruct Hinv as (l1 & l2 & -> & Hc & Hlt & Hle).
        exists l1, (l2 ++ [x]). split; [by rewrite <- app_assoc|].
        split; [done|]. split; [done|].
        intros c' v' Hc' Hv'. apply elem_of_app in Hc' as [Hc'|Hc'].
        -- by apply (Hle c').
        -- apply list_elem_of_singleton in Hc' as ->.
           assert (v' = v) as -> by congruence. done.
      * destruct Hinv as [_ ->]. rewrite flt_floor in E by done. done.
Qed.

(** The child the scan returns is the first one with the largest
    score. *)
Lemma best_child_first_max (score : nat → option Qc) (l : list nat)
  (c : nat) :
  (∀ c, c ∈ l → ∃ v, score c = Some v ∧ (0 ≤ v)%Qc) →
  best_child score l = Some c →
  ∃ l1 l2 v, l = l1 ++ c :: l2 ∧ score c = Some v
             ∧ (∀ c' v', c' ∈ l1 → score c' = Some v' → (v' < v)%Qc)
             ∧ (∀ c' v', c' ∈ l2 → score c' = Some v' → (v' ≤ v)%Qc).
Proof.
  intros Hs Hbest.
  destruct (best_child_fold_max score l Hs [] (- Num.FLT_MAX)%Qc None)
    as (ms' & oc' & Hf & Hinv); [done|].
  unfold best_child in Hbest. rewrite Hf in Hbest. simpl in Hbest.
  subst oc'. destruct Hinv as (l1 & l2 & Hl & Hrest).
  exists l1, l2, ms'. done.
Qed.

Section Lemmas.
Context {board : Type} `{NoGoBoard board}.
Context {engine : Type} `{Engine engine}.
Context `{LibmLaws}.

Abbreviation tree := (list (node board)).

(** The walk from the root ends: a child comes later in the arena than
    its parent, so [length t] steps are enough. *)
Lemma select_from_total (ucb ucb_opponent : tree → nat → option Qc)
  (t : tree) (who : Z) :
  children_ok t →
  (∀ id n c, t !! id = Some n → c ∈ child n →
     (∃ v, ucb t c = Some v ∧ (0 ≤ v)%Qc)
     ∧ (∃ v, ucb_opponent t c = Some v ∧ (0 ≤ v)%Qc)) →
  ∀ fuel curr vec,
    (curr < length t)%nat → (length t - curr ≤ fuel)%nat →
    is_Some (select_from ucb ucb_opponent fuel t who curr vec).
Proof.
  intros Hch Hs. induction fuel as [|fuel IH]; intros curr vec Hcurr Hfuel;
    [lia|].
  destruct (lookup_lt_is_Some_2 t curr Hcurr) as [n Hn].
  cbn [select_from]. rewrite Hn. cbn [mbind option_bind].
  destruct (is_leaf n); [by eexists|].
  destruct (child n) as [|c0 cs] eqn:Hc; [by eexists|].
  destruct (best_child_total
              (λ ci, if decide (who = who_take_turns (nboard n))
                     then ucb t ci else ucb_opponent t ci) (c0 :: cs))
    as (c & Hbest & Hin); [done| |].
  { intros c Hin. rewrite <- Hc in Hin.
    destruct (Hs curr n c Hn Hin) as [Hu Ho]. by case_decide. }
  rewrite Hbest. cbn [mbind option_bind].
  rewrite <- Hc in Hin. pose proof (Hch curr n Hn c Hin).
  apply IH; lia.
Qed.

(** A leaf without children ends the walk where it starts. *)
Lemma select_at_leaf (ucb ucb_opponent : tree → nat → option Qc)
  (t : tree) (who : Z) (this : nat) (n : node board) :
  t !! this = Some n → child n = [] →
  select_root_to_leaf ucb ucb_opponent t this who = Some [this].
Proof.
  intros Hn Hc. unfold select_root_to_leaf.
  pose proof (FirstTurn.is_leaf_no_child n Hc) as Hleaf.
  destruct (length t); cbn [select_from]; rewrite Hn;
    cbn [mbind option_bind]; by rewrite Hleaf.
Qed.

Lemma expand_total (t : tree) (leaf : nat) (e : engine) :
  (leaf < length t)%nat →
  ∃ t1 x e1, expand_from_leaf t leaf e = Some (t1, x, e1)
             ∧ (length t ≤ length t1)%nat ∧ (x < length t1)%nat
             ∧ (x = leaf ∨ x = length t).
Proof.
  intros Hlt. destruct (lookup_lt_is_Some_2 t leaf Hlt) as [n Hn].
  unfold expand_from_leaf. rewrite Hn. cbn [mbind option_bind].
  destruct (all_space e) as [vec e1].
  destruct (first_legal (nboard n) vec) as [[pos b]|].
  - eexists _, _, _. split; [done|].
    rewrite length_app, length_insert. simpl. split; [lia|].
    split; [lia|by right].
  - eexists _, _, _. split; [done|]. split; [lia|]. split; [lia|by left].
Qed.

(** The walk goes down the arena: the nodes it adds to the path come after
    the node it is at, each after the one before. *)
Lemma select_from_increasing (ucb ucb_opponent : tree → nat → option Qc)
  (fuel : nat) :
  ∀ (t : tree) (who : Z) (curr : nat) (vec path : list nat),
    children_ok t →
    select_from ucb ucb_opponent fuel t who curr vec = Some path →
    ∃ more, path = vec ++ more ∧ Forall (λ id, (curr < id)%nat) more
            ∧ NoDup more.
Proof.
  induction fuel as [|fuel IH]; intros t who curr vec path Hch; simpl.
  - destruct (t !! curr) as [n|]; [simpl|done].
    destruct (is_leaf n); [|done].
    intros [= <-]. exists []. rewrite app_nil_r.
    split; [done|]. split; [done|constructor].
  - destruct (t !! curr) as [n|] eqn:Hn; [simpl|done].
    destruct (is_leaf n).
    { intros [= <-]. exists []. rewrite app_nil_r.
      split; [done|]. split; [done|constructor]. }
    destruct (child n) as [|c0 cs] eqn:Hc.
    { intros [= <-]. exists []. rewrite app_nil_r.
      split; [done|]. split; [done|constructor]. }
    destruct (best_child _ (c0 :: cs)) as [c|] eqn:Hbest; [simpl|done].
    intros Hrest.
    destruct (IH _ _ _ _ _ Hch Hrest) as (more & -> & Hmore & Hnd).
    apply best_child_elem in Hbest. rewrite <- Hc in Hbest.
    pose proof (Hch curr n Hn c Hbest) as Hlt.
    exists (c :: more). split; [by rewrite <- app_assoc|]. split.
    + apply Forall_cons. split; [lia|].
      eapply Forall_impl; [exact Hmore|]. intros i Hi. simpl in *. lia.
    + apply NoDup_cons. split; [|done]. intros Hin.
      pose proof (proj1 (Forall_forall _ _) Hmore c Hin). simpl in *. lia.
Qed.

(** The nodes [more] that follow [curr] on a path of the walk: each is a
    child of the one before, which is not a leaf, and the last is a
    leaf. *)
Fixpoint descends (t : tree) (curr : nat) (more : list nat) : Prop :=
  ∃ n, t !! curr = Some n
       ∧ match more with
         | [] => is_leaf n = true
         | c :: more' =>
             is_leaf n = false ∧ c ∈ child n ∧ descends t c more'
         end.

Lemma select_from_descends (ucb ucb_opponent : tree → nat → option Qc)
  (fuel : nat) :
  ∀ (t : tree) (who : Z) (curr : nat) (vec path : list nat),
    select_from ucb ucb_opponent fuel t who curr vec = Some path →
    ∃ more, path = vec ++ more ∧ descends t curr more.
Proof.
  induction fuel as [|fuel IH]; intros t who curr vec path; simpl.
  - destruct (t !! curr) as [n|] eqn:Hn; [simpl|done].
    destruct (is_leaf n) eqn:Hleaf; [|done].
    intros [= <-]. exists []. rewrite app_nil_r. split; [done|].
    simpl. by exists n.
  - destruct (t !! curr) as [n|] eqn:Hn; [simpl|done].
    destruct (is_leaf n) eqn:Hleaf.
    { intros [= <-]. exists []. rewrite app_nil_r. split; [done|].
      simpl. by exists n. }
    destruct (child n) as [|c0 cs] eqn:Hc.
    { by rewrite (FirstTurn.is_leaf_no_child n Hc) in Hleaf. }
    destruct (best_child _ (c0 :: cs)) as [c|] eqn:Hbest; [simpl|done].
    intros Hrest. destruct (IH _ _ _ _ _ Hrest) as (more & -> & Hmore).
    apply best_child_elem in Hbest. rewrite <- Hc in Hbest.
    exists (c :: more). split; [by rewrite <- app_assoc|].
    simpl. by exists n.
Qed.

(** No node stands twice on the path that is backed up, and the root
    stands on it. *)
Lemma path_once (ucb ucb_opponent : tree → nat → option Qc) (t : tree)
  (who : Z) (path : list nat) (leaf x : nat) :
  children_ok t →
  select_root_to_leaf ucb ucb_opponent t 0 who = Some path →
  Forall (λ id, (id < length t)%nat) path →
  x = leaf ∨ x = length t →
  let path' := if decide (x = leaf) then path else path ++ [x] in
  NoDup path' ∧ 0%nat ∈ path'.
Proof.
  intros Hch Hsel Hvalid Hx path'.
  destruct (select_from_increasing _ _ _ _ _ _ _ _ Hch Hsel)
    as (more & -> & Hmore & Hnd).
  assert (Hpath : NoDup ([0%nat] ++ more)).
  { simpl. apply NoDup_cons. split; [|done]. intros Hin.
    pose proof (proj1 (Forall_forall _ _) Hmore _ Hin). simpl in *. lia. }
  unfold path'. case_decide as E.
  - split; [done|]. constructor.
  - split; [|constructor].
    destruct Hx as [Hx| ->]; [done|].
    apply NoDup_app. split; [done|]. split; [|apply NoDup_singleton].
    intros i Hi Hi'. apply list_elem_of_singleton in Hi' as ->.
    pose proof (proj1 (Forall_forall _ _) Hvalid _ Hi). simpl in *. lia.
Qed.

(** The path after [if(expand_node != leaf) path.push_back(expand_node)]
    stays in the arena and has a last node. *)
Lemma path_extended (t t1 : tree) (path : list nat) (leaf x : nat) :
  Forall (λ id, (id < length t)%nat) path → last path = Some leaf →
  (length t ≤ length t1)%nat → (x < length t1)%nat →
  let path' := if decide (x = leaf) then path else path ++ [x] in
  Forall (λ id, (id < length t1)%nat) path'
  ∧ ∃ back n, last path' = Some back ∧ t1 !! back = Some n.
Proof.
  intros Hpath Hlast Hlen Hx path'.
  assert (Hv : Forall (λ id, (id < length t1)%nat) path').
  { unfold path'. case_decide.
    - eapply Forall_impl; [exact Hpath|]. intros i Hi. simpl in *. lia.
    - apply Forall_app. split; [|by apply Forall_singleton].
      eapply Forall_impl; [exact Hpath|]. intros i Hi. simpl in *. lia. }
  split; [done|].
  assert (Hl : ∃ back, last path' = Some back).
  { unfold path'. case_decide; [by exists leaf|].
    exists x. by rewrite last_snoc. }
  destruct Hl as [back Hback]. exists back.
  assert (Hin : back ∈ path').
  { apply last_Some in Hback as [l' ->]. apply elem_of_app. right.
    constructor. }
  pose proof (proj1 (Forall_forall _ _) Hv back Hin) as Hlt.
  destruct (lookup_lt_is_Some_2 t1 back Hlt) as [n Hn]. by exists n.
Qed.

(** *** The scores of the parallel player *)

Lemma par_win_rate_range (n : node board) :
  0 ≤ win_cnt n ≤ total_cnt n →
  ∃ v, Par.win_rate n = Some v ∧ (0 ≤ v ≤ 1)%Qc.
Proof.
  intros Hc. unfold Par.win_rate.
  destruct ((win_cnt n =? 0) && (total_cnt n =? 0)) eqn:E.
  - exists 0%Qc. done.
  - assert (Ht : 0 < total_cnt n).
    { apply andb_false_iff in E as [E|E].
      - apply Z.eqb_neq in E. lia.
      - apply Z.eqb_neq in E. lia. }
    rewrite WinRate.fdiv_ne_0 by lia. eexists. split; [done|].
    apply ratio_range;
      [apply of_int_nonneg; lia|apply of_int_le; lia|by apply of_int_pos].
Qed.

Lemma par_win_rate_binary32_nonneg (n : node board) :
  0 ≤ win_cnt n ≤ total_cnt n →
  ∃ v, Par.win_rate_binary32 n = Some v ∧ (0 ≤ v)%Qc.
Proof.
  intros Hc. unfold Par.win_rate_binary32.
  destruct ((win_cnt n =? 0) && (total_cnt n =? 0)) eqn:E.
  - exists 0%Qc. done.
  - assert (Ht : 0 < total_cnt n).
    { apply andb_false_iff in E as [E|E].
      - apply Z.eqb_neq in E. lia.
      - apply Z.eqb_neq in E. lia. }
    apply div_int_nonneg; lia.
Qed.

Lemma exploration_nonneg (t : tree) (n pn : node board) (p : nat) :
  parent n = Some p → t !! p = Some pn →
  1 ≤ total_cnt pn → 1 ≤ total_cnt n →
  ∃ x, exploration t n = Some x ∧ (0 ≤ x)%Qc.
Proof.
  intros Hp Hpn Htp Htn. unfold exploration.
  rewrite Hp. cbn [mbind option_bind]. rewrite Hpn. cbn [mbind option_bind].
  rewrite (proj2 (Z.leb_gt (total_cnt pn) 0)) by lia.
  unfold Num.fdiv. case_decide as E0.
  { by apply WinRate.of_int_ne_0 in E0; [|lia]. }
  cbn [mbind option_bind]. eexists. split; [done|].
  apply Qcmult_nonneg_nonneg; [apply c15_nonneg|].
  apply fsqrt_nonneg. apply ratio_nonneg.
  - by apply flog_nonneg.
  - apply of_int_pos. lia.
Qed.

Lemma par_scores (t : tree) (id c : nat) (n : node board) :
  tree_ok t → counters_ok t → t !! id = Some n → c ∈ child n →
  (∃ v, Par.ucb t c = Some v ∧ (0 ≤ v)%Qc)
  ∧ (∃ v, Par.ucb_opponent t c = Some v ∧ (0 ≤ v)%Qc).
Proof.
  intros (_ & Hch & _) Hcnt Hn Hc.
  destruct (Hch id n c Hn Hc) as (_ & cn & Hcn & Hp).
  pose proof (Hcnt c cn Hcn) as Hcc. pose proof (Hcnt id n Hn) as Hcp.
  destruct (par_win_rate_range cn Hcc) as (wr & Hwr & Hwr0 & Hwr1).
  destruct (one_minus_range wr (conj Hwr0 Hwr1)) as [Hm0 _].
  unfold Par.ucb, Par.ucb_opponent.
  rewrite Hcn. cbn [mbind option_bind]. rewrite Hp. cbn [mbind option_bind].
  rewrite Hn. cbn [mbind option_bind]. rewrite Hwr.
  destruct ((total_cnt n =? 0) || (total_cnt cn =? 0)) eqn:E.
  - cbn [mbind option_bind]. split; eexists; done.
  - apply orb_false_iff in E as [E1 E2].
    apply Z.eqb_neq in E1. apply Z.eqb_neq in E2.
    destruct (exploration_nonneg t cn n id Hp Hn) as (x & Hx & Hx0);
      [lia|lia|].
    rewrite Hx. cbn [mbind option_bind].
    split; eexists; (split; [done|]); by apply Qcplus_nonneg_nonneg.
Qed.

(** *** The root during the search *)

(** The root holds the board [state], has the children [cs] and, built
    by [node(state)], the position -1. *)
Definition root_of (t : tree) (state : board) (cs : list nat) : Prop :=
  ∃ root, t !! 0%nat = Some root ∧ nboard root = state ∧ child root = cs
          ∧ place_pos root = -1.

Lemma root_of_after_backup (t : tree) (id : nat) (n : node board)
  (w : bool) (state : board) (cs : list nat) :
  root_of t state cs → t !! id = Some n →
  root_of (<[id := after_backup w 1 n]> t) state cs.
Proof.
  intros (root & Hroot & Hb & Hc & Hpp) Hn.
  destruct (decide (id = 0%nat)) as [->|Hne].
  - exists (after_backup w 1 n).
    rewrite list_lookup_insert_eq by (by apply lookup_lt_Some in Hn).
    assert (n = root) as -> by congruence. done.
  - exists root. by rewrite list_lookup_insert_ne.
Qed.

(** Expansion keeps the board of the root; the root is without children
    afterwards only if it was before, and if it was the node expanded then
    its board refuses every position. *)
Lemma root_of_expand (t t1 : tree) (leaf x : nat) (e e1 : engine)
  (state : board) (cs : list nat) :
  expand_from_leaf t leaf e = Some (t1, x, e1) → root_of t state cs →
  ∃ cs1, root_of t1 state cs1
         ∧ (cs1 = [] →
            cs = [] ∧ (leaf = 0%nat →
                       ∀ pos, 0 ≤ pos < 81 → place state pos = None)).
Proof.
  intros Hx (root & Hroot & Hb & Hc & Hpp).
  destruct (expand_from_leaf_cases _ _ _ _ _ _ Hx) as (n & Hn & Hcase).
  destruct Hcase as [(-> & -> & Hnone)|(pos & b & Hpos & Hplace & -> & ->)].
  - exists cs. split; [by exists root|]. intros E. split; [done|].
    intros ->. assert (n = root) as -> by congruence. by rewrite <- Hb.
  - pose proof (lookup_lt_Some _ _ _ Hn) as Hlt.
    destruct (decide (leaf = 0%nat)) as [->|Hne].
    + assert (n = root) as -> by congruence.
      exists (cs ++ [length t]). split.
      * exists (add_child root (length t)).
        rewrite lookup_app_l by (by rewrite length_insert).
        rewrite list_lookup_insert_eq by done. simpl. by rewrite Hc.
      * intros E. by destruct cs.
    + exists cs. split; [|done]. exists root.
      rewrite lookup_app_l
        by (rewrite length_insert; by apply lookup_lt_Some in Hroot).
      by rewrite list_lookup_insert_ne.
Qed.

Lemma root_of_inj (t : tree) (state state' : board) (cs cs' : list nat) :
  root_of t state cs → root_of t state' cs' → cs = cs'.
Proof. intros (r & Hr & _ & <- & _) (r' & Hr' & _ & <- & _). congruence. Qed.

(** A child of the root sits at a position that the board of the root
    accepts. *)
Lemma root_child_legal (t : tree) (state : board) (cs : list nat)
  (c : nat) :
  tree_ok t → root_of t state cs → c ∈ cs →
  ∃ cn, t !! c = Some cn ∧ 0 ≤ place_pos cn < 81
        ∧ place state (place_pos cn) = Some (nboard cn).
Proof.
  intros (_ & Hch & Hpar) (root & Hroot & Hb & Hc & _) Hin.
  rewrite <- Hc in Hin.
  destruct (Hch 0%nat root c Hroot Hin) as (Hlt & cn & Hcn & Hp).
  destruct (Hpar c cn Hcn) as (p & pn & Hp' & Hpn & _ & Hr & Hpl); [lia|].
  assert (p = 0%nat) as -> by congruence.
  assert (pn = root) as -> by congruence.
  exists cn. by rewrite <- Hb.
Qed.

(** *** The number of visits *)

(** The root has been visited [k] times and no node more often. *)
Definition visited_at_most (t : tree) (k : Z) : Prop :=
  0 ≤ k
  ∧ (∃ root, t !! 0%nat = Some root ∧ total_cnt root = k)
  ∧ ∀ id n, t !! id = Some n → total_cnt n ≤ k.

Lemma visited_start (state : board) :
  visited_at_most [new_node state (-1)] 0.
Proof.
  split; [done|]. split; [by eexists|].
  intros [|id] n Hn; simpl in Hn; [|done]. by injection Hn as <-.
Qed.

Lemma visited_expand (t t1 : tree) (leaf x : nat) (e e1 : engine) (k : Z) :
  expand_from_leaf t leaf e = Some (t1, x, e1) →
  visited_at_most t k → visited_at_most t1 k.
Proof.
  intros Hx (Hk & (root & Hroot & Htot) & Hall).
  destruct (expand_from_leaf_cases _ _ _ _ _ _ Hx) as (n & Hn & Hcase).
  destruct Hcase as [(-> & _)|(pos & b & _ & _ & _ & ->)].
  { split; [done|]. split; [by exists root|done]. }
  split; [done|]. split.
  - destruct (expanded_keeps t leaf 0 n (set_parent (new_node b pos) leaf)
                root Hn Hroot) as (r' & Hr' & _ & _ & _ & Ht & _).
    exists r'. split; [done|]. lia.
  - intros id m Hm.
    destruct (lookup_expanded _ _ _ _ _ _ Hn Hm)
      as [[_ ->]|[[-> ->]|[_ Hold]]]; simpl.
    + done.
    + by apply (Hall leaf n).
    + by apply (Hall id m).
Qed.

(** A backup along a path on which the root stands, and no node twice,
    counts one more visit. *)
Lemma visited_backup (w : bool) (path : list nat) (t t' : tree) (k : Z) :
  backed_up w path t t' → NoDup path → 0%nat ∈ path →
  visited_at_most t k → visited_at_most t' (k + 1).
Proof.
  intros Hback Hnd Hin (Hk & (root & Hroot & Htot) & Hall).
  split; [lia|]. split.
  - exists (after_backup w (visits 0 path) root).
    split; [by apply (proj2 Hback)|]. simpl.
    rewrite (visits_NoDup 0 path Hnd Hin). lia.
  - intros id n' Hn'.
    destruct (backed_up_inv _ _ _ _ _ _ Hback Hn') as (n & Hn & ->).
    simpl. pose proof (Hall id n Hn).
    destruct (decide (id ∈ path)) as [Hid|Hid].
    + rewrite (visits_NoDup id path Hnd Hid). lia.
    + rewrite (visits_not_elem id path Hid). lia.
Qed.

(** *** A turn of the parallel search *)

(** What the loop of [MCTS] keeps, in the parallel player. *)
Definition par_inv (t : tree) (state : board) (cs : list nat) : Prop :=
  tree_ok t ∧ counters_ok t ∧ root_of t state cs.

Lemma par_inv_start (state : board) :
  par_inv [new_node state (-1)] state [].
Proof.
  split; [apply tree_ok_start|]. split; [apply counters_start|].
  by eexists.
Qed.

Lemma par_iteration_ok (s : Par.search) (state : board) (cs : list nat) :
  par_inv (Par.nodes s) state cs →
  ∃ s' cs', Par.iteration 0 s = Some s'
            ∧ par_inv (Par.nodes s') state cs'
            ∧ (cs' = [] → ∀ pos, 0 ≤ pos < 81 → place state pos = None)
            ∧ (∀ k, visited_at_most (Par.nodes s) k →
                    visited_at_most (Par.nodes s') (k + 1))
            ∧ (children_once (Par.nodes s) → children_once (Par.nodes s')).
Proof.
  intros (Htree & Hcnt & Hroot). set (t := Par.nodes s) in *.
  pose proof Hroot as (root & Hr & Hb & Hc & _).
  pose proof (lookup_lt_Some _ _ _ Hr) as Hlt0.
  pose proof (tree_ok_children t Htree) as Hch.
  destruct (select_from_total Par.ucb Par.ucb_opponent t
              (who_take_turns (nboard root)) Hch
              (λ id n c Hn Hin, par_scores t id c n Htree Hcnt Hn Hin)
              (length t) 0%nat [0%nat]) as [path Hsel]; [done|lia|].
  change (select_root_to_leaf Par.ucb Par.ucb_opponent t 0
            (who_take_turns (nboard root)) = Some path) in Hsel.
  destruct (select_root_to_leaf_valid _ _ _ _ _ _ Hch Hlt0 Hsel)
    as (Hpath & _ & leaf & Hlast).
  assert (Hleaf : (leaf < length t)%nat).
  { apply (proj1 (Forall_forall _ _) Hpath).
    apply last_Some in Hlast as [l' ->]. apply elem_of_app. right.
    constructor. }
  destruct (expand_total t leaf (Par.eng s) Hleaf)
    as (t1 & x & e1 & Hx & Hlen & Hxlt & Hxcase).
  pose proof (tree_ok_expand _ _ _ _ _ _ Hx Htree) as Htree1.
  pose proof (counters_expand _ _ _ _ _ _ Hx Hcnt) as Hcnt1.
  destruct (root_of_expand _ _ _ _ _ _ state cs Hx Hroot)
    as (cs1 & Hroot1 & Hcs1).
  destruct (path_extended t t1 path leaf x Hpath Hlast Hlen Hxlt)
    as (Hv1 & back & n & Hback & Hn).
  destruct (Playout.simulate_winner_total n e1) as (winner & Hsim & _).
  pose proof Hroot1 as (root1 & Hr1 & _).
  destruct (par_back_propagate_spec 0 winner _ t1 root1 Hr1 Hv1)
    as (t' & Hbp & Hbk).
  destruct (path_once _ _ t _ path leaf x Hch Hsel Hpath Hxcase)
    as (Hnd & H0in).
  exists (Par.Search t' (all_space e1).2), cs1.
  split; [|split; [|split; [|split]]].
  - unfold Par.iteration, Par.simulate_and_backup, Par.extend_path.
    fold t. rewrite Hr. cbn [mbind option_bind].
    rewrite Hsel. cbn [mbind option_bind].
    rewrite Hlast. cbn [mbind option_bind].
    rewrite Hx. cbn [mbind option_bind].
    rewrite Hback. cbn [mbind option_bind].
    rewrite Hn. cbn [mbind option_bind].
    rewrite Hsim. cbn [mbind option_bind].
    rewrite Hbp. done.
  - apply (par_back_propagate_ind
             (λ t, par_inv t state cs1) 0 winner
             (λ t0 root0 n0 id0 HP _ Hn0,
                conj (tree_ok_after_backup t0 id0 n0 _ (proj1 HP) Hn0)
                  (conj (counters_after_backup t0 id0 n0 _
                           (proj1 (proj2 HP)) Hn0)
                        (root_of_after_backup t0 id0 n0 _ state cs1
                           (proj2 (proj2 HP)) Hn0)))
             _ t1 t' Hbp).
    done.
  - intros E. destruct (Hcs1 E) as [-> Hnone]. apply Hnone.
    rewrite (select_at_leaf _ _ t _ 0%nat root Hr Hc) in Hsel.
    injection Hsel as <-. simpl in Hlast. congruence.
  - intros k Hk. apply (visited_backup _ _ t1 t' k Hbk Hnd H0in).
    by apply (visited_expand t t1 leaf x (Par.eng s) e1).
  - intros Honce.
    apply (par_back_propagate_ind children_once 0 winner
             (λ t0 root0 n0 id0 HP _ Hn0,
                children_once_after_backup t0 id0 n0 _ HP Hn0)
             _ t1 t' Hbp).
    by apply (children_once_expand t t1 leaf x (Par.eng s) e1).
Qed.

Lemma par_iterations_ok (N : nat) (state : board) :
  ∀ (s : Par.search) (cs : list nat),
    par_inv (Par.nodes s) state cs →
    ∃ s' cs', Par.iterations N 0 s = Some s'
              ∧ par_inv (Par.nodes s') state cs'
              ∧ (N = 0%nat → cs' = cs)
              ∧ (N ≠ 0%nat → cs' = [] →
                 ∀ pos, 0 ≤ pos < 81 → place state pos = None)
              ∧ (∀ k, visited_at_most (Par.nodes s) k →
                      visited_at_most (Par.nodes s') (k + Z.of_nat N))
              ∧ (children_once (Par.nodes s) →
                 children_once (Par.nodes s')).
Proof.
  induction N as [|N IH]; intros s cs Hinv; cbn [Par.iterations].
  - exists s, cs. split; [done|]. split; [done|]. split; [done|].
    split; [done|]. split; [|done]. intros k Hk. by rewrite Z.add_0_r.
  - destruct (par_iteration_ok s state cs Hinv)
      as (s1 & cs1 & Hit & Hinv1 & Hnone1 & Hvis1 & Honce1).
    rewrite Hit. cbn [mbind option_bind].
    destruct (IH s1 cs1 Hinv1)
      as (s' & cs' & Hits & Hinv' & Hsame & Hnone & Hvis & Honce).
    exists s', cs'. split; [done|]. split; [done|]. split; [done|].
    split; [|split].
    + intros _ E. destruct N as [|N].
      * apply Hnone1. by rewrite <- (Hsame eq_refl).
      * by apply Hnone.
    + intros k Hk.
      replace (k + Z.of_nat (S N)) with (k + 1 + Z.of_nat N) by lia.
      by apply Hvis, Hvis1.
    + intros Hstart. by apply Honce, Honce1.
Qed.

(** The scan of [select_action] over the children of the root. *)
Lemma par_select_action_ok (s : @Par.search board engine) (state : board)
  (cs : list nat) :
  par_inv (Par.nodes s) state cs →
  ∃ r, Par.select_action 0 s = Some r
       ∧ ((cs = [] ∧ r = -1)
          ∨ (cs ≠ [] ∧ 0 ≤ r < 81 ∧ is_Some (place state r))).
Proof.
  intros (Htree & Hcnt & Hroot).
  pose proof Hroot as (root & Hr & Hb & Hc & _).
  unfold Par.select_action. rewrite Hr. cbn [mbind option_bind].
  rewrite Hc. destruct cs as [|c0 cs'] eqn:Ecs.
  { exists (-1). split; [done|]. by left. }
  rewrite <- Ecs in *.
  destruct (best_child_total
              (λ ci, n ← Par.nodes s !! ci; Par.win_rate_binary32 n) cs)
    as (c & Hbest & Hin); [by rewrite Ecs| |].
  { intros c Hin.
    destruct (root_child_legal _ state cs c Htree Hroot Hin)
      as (cn & Hcn & _).
    rewrite Hcn. cbn [mbind option_bind].
    destruct (par_win_rate_binary32_nonneg cn (Hcnt c cn Hcn))
      as (v & Hv & Hv0).
    by exists v. }
  destruct (root_child_legal _ state cs c Htree Hroot Hin)
    as (cn & Hcn & Hrange & Hpl).
  exists (place_pos cn). split.
  { rewrite Hbest. cbn [mbind option_bind]. by rewrite Hcn. }
  right. split; [by rewrite Ecs|]. split; [done|]. by eexists.
Qed.

(** What a search of the parallel player returns. *)
Lemma par_MCTS_cases (N : Z) (state : board) (e : engine) :
  ∃ r, Par.MCTS N 0 (Par.start state e) = Some r
       ∧ ((r = -1
           ∧ (N ≤ 0 ∨ ∀ pos, 0 ≤ pos < 81 → place state pos = None))
          ∨ (0 < N ∧ 0 ≤ r < 81 ∧ is_Some (place state r))).
Proof.
  destruct (par_iterations_ok (Z.to_nat N) state (Par.start state e) []
              (par_inv_start state))
    as (s' & cs' & Hits & Hinv & Hsame & Hnone & _).
  destruct (par_select_action_ok s' state cs' Hinv) as (r & Hsel & Hr).
  exists r. split.
  { unfold Par.MCTS. rewrite Hits. exact Hsel. }
  destruct Hr as [[-> ->]|(Hne & Hrange & Hlegal)].
  - left. split; [done|]. destruct (decide (N ≤ 0)) as [HN|HN]; [by left|].
    right. apply Hnone; [lia|done].
  - right. split; [|done]. destruct (decide (N ≤ 0)) as [HN|HN]; [|lia].
    destruct Hne. apply Hsame. lia.
Qed.

(** X1: a search of the parallel player, started on the root
    [node(state)] with any [int] [N], completes its turns and returns -1
    or a position; it returns -1 exactly when [N] is zero or negative (no
    turn is run) or the board refuses every position, and a position it
    returns is one that [state] accepts. *)
Theorem par_MCTS_legal (N : Z) (state : board) (e : engine) :
  ∃ r, Par.MCTS N 0 (Par.start state e) = Some r
       ∧ (r = -1 ↔
          N ≤ 0 ∨ ∀ pos, 0 ≤ pos < 81 → place state pos = None)
       ∧ (r ≠ -1 → 0 ≤ r < 81 ∧ is_Some (place state r)).
Proof.
  destruct (par_MCTS_cases N state e) as (r & Hr & Hcase).
  exists r. split; [done|].
  destruct Hcase as [[-> Hnone]|(HN & Hrange & Hlegal)].
  - split; [done|]. done.
  - split; [|done]. split; [lia|].
    intros [HN'|Hnone]; [lia|].
    destruct Hlegal as [b Hb]. rewrite Hnone in Hb by done. done.
Qed.

(** *** The tables and the scores of the RAVE player *)

(** At every position the wins counted do not exceed the visits
    counted. *)
Definition wins_ok (tb : Rave.tables) : Prop :=
  ∀ p rw rt,
    lookupZ (Rave.rave_win tb) p = Some rw →
    lookupZ (Rave.rave_total tb) p = Some rt → 0 ≤ rw ≤ rt.

Lemma rave_bump_win (w : bool) (tb : Rave.tables) (pos : Z) :
  Rave.rave_win (rave_bump w tb pos)
  = if w then (bump (Rave.rave_win tb) [] pos).1 else Rave.rave_win tb.
Proof.
  unfold rave_bump, bump.
  destruct (lookupZ (Rave.rave_total tb) pos); destruct w;
    try destruct (lookupZ (Rave.rave_win tb) pos); done.
Qed.

Lemma tables_ok_bump (w : bool) (tb : Rave.tables) (pos : Z) :
  tables_ok tb → tables_ok (rave_bump w tb pos).
Proof.
  intros (Hlt & Hlw & Hnn). split; [|split].
  - by rewrite rave_bump_total, bump_length.
  - by rewrite rave_bump_win_length.
  - rewrite rave_bump_total. by apply bump_nonneg.
Qed.

Lemma wins_ok_bump (w : bool) (tb : Rave.tables) (pos : Z) :
  tables_ok tb → wins_ok tb → wins_ok (rave_bump w tb pos).
Proof.
  intros (Hlt & Hlw & _) Hw p rw' rt' Hrw' Hrt'.
  destruct (lookupZ_Some _ _ _ Hrw') as [Hp Hp'].
  apply lookup_lt_Some in Hp'. rewrite rave_bump_win_length in Hp'.
  destruct (lookupZ_in_range (Rave.rave_win tb) p) as [rw Hrw]; [done..|].
  destruct (lookupZ_in_range (Rave.rave_total tb) p) as [rt Hrt];
    [done|lia|].
  pose proof (Hw p rw rt Hrw Hrt) as Hle.
  rewrite rave_bump_total,
    (bump_lookup _ (Rave.oob tb) pos _ _ Hrt) in Hrt'.
  injection Hrt' as <-.
  rewrite rave_bump_win in Hrw'. destruct w.
  - rewrite (bump_lookup _ [] pos _ _ Hrw) in Hrw'. injection Hrw' as <-.
    case_decide; lia.
  - rewrite Hrw in Hrw'. injection Hrw' as <-. case_decide; lia.
Qed.

Lemma wins_ok_start :
  wins_ok (Rave.Tables (replicate 81 0) (replicate 81 0) []).
Proof.
  intros p rw rt Hrw Hrt.
  apply lookupZ_Some in Hrw as [_ Hrw]. apply lookupZ_Some in Hrt as [_ Hrt].
  cbn [Rave.rave_total Rave.rave_win] in *.
  apply lookup_replicate_1 in Hrw as [-> _].
  apply lookup_replicate_1 in Hrt as [-> _]. lia.
Qed.

(** The blended rate of a node under the root lies between 0 and 1. *)
Lemma rave_win_rate_range (s : @Rave.search board engine) (id : nat)
  (n : node board) :
  rave_inv s → wins_ok (Rave.tabs s) →
  Rave.nodes s !! id = Some n → id ≠ 0%nat →
  ∃ v, Rave.win_rate n (Rave.tabs s) = Some v ∧ (0 ≤ v ≤ 1)%Qc.
Proof.
  intros [_ (Hlt & Hlw & _) _ Hcnt Hcov Hvis] Hw Hn Hid.
  destruct (Hcov id n Hn Hid) as (Hr & rt & Hrt & Hle).
  destruct (Hvis id n Hn Hid) as (Hv & _).
  pose proof (Hcnt id n Hn) as Hc.
  destruct (lookupZ_in_range (Rave.rave_win (Rave.tabs s)) (place_pos n))
    as [rw Hrw]; [lia|lia|].
  pose proof (Hw _ rw rt Hrw Hrt) as Hwr.
  unfold Rave.win_rate.
  rewrite (proj2 (Z.eqb_neq (total_cnt n) 0)), andb_false_r by lia.
  rewrite WinRate.fdiv_ne_0 by lia. cbn [mbind option_bind].
  rewrite Hrw, Hrt. cbn [mbind option_bind].
  rewrite WinRate.fdiv_ne_0 by lia. cbn [mbind option_bind].
  eexists. split; [done|].
  apply blend_range; apply ratio_range;
    try (apply of_int_nonneg; lia); try (apply of_int_le; lia);
    apply of_int_pos; lia.
Qed.

Lemma rave_win_rate_binary32_nonneg (s : @Rave.search board engine)
  (id : nat) (n : node board) :
  rave_inv s → wins_ok (Rave.tabs s) →
  Rave.nodes s !! id = Some n → id ≠ 0%nat →
  ∃ v, Rave.win_rate_binary32 n (Rave.tabs s) = Some v ∧ (0 ≤ v)%Qc.
Proof.
  intros [_ (Hlt & Hlw & _) _ Hcnt Hcov Hvis] Hw Hn Hid.
  destruct (Hcov id n Hn Hid) as (Hr & rt & Hrt & Hle).
  destruct (Hvis id n Hn Hid) as (Hv & _).
  pose proof (Hcnt id n Hn) as Hc.
  destruct (lookupZ_in_range (Rave.rave_win (Rave.tabs s)) (place_pos n))
    as [rw Hrw]; [lia|lia|].
  pose proof (Hw _ rw rt Hrw Hrt) as Hwr.
  unfold Rave.win_rate_binary32.
  rewrite (proj2 (Z.eqb_neq (total_cnt n) 0)), andb_false_r by lia.
  destruct (div_int_nonneg (win_cnt n) (total_cnt n)) as (q & Hq & Hq0);
    [lia|lia|].
  destruct (div_int_nonneg rw rt) as (rq & Hrq & Hrq0); [lia|lia|].
  rewrite Hq. cbn [mbind option_bind].
  rewrite Hrw, Hrt. cbn [mbind option_bind].
  rewrite Hrq. cbn [mbind option_bind].
  eexists. split; [done|].
  assert (Hb : (0 ≤ Rave.RAVE_Beta)%Qc) by (by vm_compute).
  assert (Hb' : (0 ≤ 1 - Rave.RAVE_Beta)%Qc) by (by vm_compute).
  apply nearest_nonneg, Qcplus_nonneg_nonneg;
    apply nearest_nonneg; by apply Qcmult_nonneg_nonneg.
Qed.

Lemma rave_scores (s : @Rave.search board engine) (id c : nat)
  (n : node board) :
  rave_inv s → tree_ok (Rave.nodes s) → wins_ok (Rave.tabs s) →
  Rave.nodes s !! id = Some n → c ∈ child n →
  (∃ v, Rave.ucb (Rave.tabs s) (Rave.nodes s) c = Some v ∧ (0 ≤ v)%Qc)
  ∧ (∃ v, Rave.ucb_opponent (Rave.tabs s) (Rave.nodes s) c = Some v
          ∧ (0 ≤ v)%Qc).
Proof.
  intros Hinv (_ & Hch & _) Hw Hn Hc.
  destruct (Hch id n c Hn Hc) as (Hlt & cn & Hcn & Hp).
  assert (Hc0 : c ≠ 0%nat) by lia.
  destruct (rave_win_rate_range s c cn Hinv Hw Hcn Hc0)
    as (wr & Hwr & Hwr0 & Hwr1).
  destruct (one_minus_range wr (conj Hwr0 Hwr1)) as [Hm0 _].
  destruct (inv_visited s Hinv c cn Hcn Hc0)
    as (Hv & p & pn & Hp' & Hpn & Hpv).
  destruct (exploration_nonneg (Rave.nodes s) cn pn p Hp' Hpn Hpv Hv)
    as (x & Hx & Hx0).
  unfold Rave.ucb, Rave.ucb_opponent.
  rewrite Hcn. cbn [mbind option_bind]. rewrite Hwr. cbn [mbind option_bind].
  rewrite Hx. cbn [mbind option_bind].
  split; eexists; (split; [done|]); by apply Qcplus_nonneg_nonneg.
Qed.

(** No index but -1 has fallen outside the tables. *)
Definition oob_ok (tb : Rave.tables) : Prop :=
  ∀ i, i ∈ Rave.oob tb → i = -1.

Lemma oob_ok_bump (w : bool) (tb : Rave.tables) (pos : Z) :
  tables_ok tb → oob_ok tb → pos = -1 ∨ 0 ≤ pos < 81 →
  oob_ok (rave_bump w tb pos).
Proof.
  intros (Hlt & Hlw & _) Ho Hpos. unfold oob_ok, rave_bump, bump.
  intros i. destruct Hpos as [->|Hr].
  - change (lookupZ (Rave.rave_total tb) (-1)) with (@None Z).
    change (lookupZ (Rave.rave_win tb) (-1)) with (@None Z).
    destruct w; simpl; intros Hin;
      repeat (apply elem_of_app in Hin as [Hin|Hin]);
      try (apply list_elem_of_singleton in Hin); auto.
  - destruct (lookupZ_in_range (Rave.rave_total tb) pos) as [x Hx];
      [lia|lia|].
    destruct (lookupZ_in_range (Rave.rave_win tb) pos) as [y Hy];
      [lia|lia|].
    rewrite Hx. destruct w; [rewrite Hy|]; simpl; apply Ho.
Qed.

(** A node sits at -1, the root, or at a position of the board. *)
Lemma place_pos_cases (t : tree) (state : board) (cs : list nat) (id : nat)
  (n : node board) :
  tree_ok t → root_of t state cs → t !! id = Some n →
  place_pos n = -1 ∨ 0 ≤ place_pos n < 81.
Proof.
  intros (_ & _ & Hpar) (root & Hroot & _ & _ & Hpp) Hn.
  destruct (decide (id = 0%nat)) as [->|Hne].
  - left. congruence.
  - right. by destruct (Hpar id n Hn Hne) as (p & pn & _ & _ & _ & Hr & _).
Qed.

(** What the loop of [MCTS] keeps, in the RAVE player. *)
Definition rave_full (s : @Rave.search board engine) (state : board)
  (cs : list nat) : Prop :=
  rave_inv s ∧ tree_ok (Rave.nodes s) ∧ wins_ok (Rave.tabs s)
  ∧ oob_ok (Rave.tabs s) ∧ root_of (Rave.nodes s) state cs.

Lemma rave_full_start (state : board) (e : engine) :
  rave_full (Rave.start state e) state [].
Proof.
  split; [apply rave_inv_start|]. split; [apply tree_ok_start|].
  split; [apply wins_ok_start|].
  split; [intros i Hi; by apply elem_of_nil in Hi|]. by eexists.
Qed.

Lemma rave_iteration_ok (s : Rave.search) (state : board) (cs : list nat) :
  rave_full s state cs →
  ∃ s' cs', Rave.iteration 0 s = Some s'
            ∧ rave_full s' state cs'
            ∧ (cs' = [] → ∀ pos, 0 ≤ pos < 81 → place state pos = None)
            ∧ ∀ k, visited_at_most (Rave.nodes s) k →
                   visited_at_most (Rave.nodes s') (k + 1).
Proof.
  intros (Hinv & Htree & Hw & Hoob & Hroot).
  set (t := Rave.nodes s) in *. set (tb := Rave.tabs s) in *.
  pose proof Hroot as (root & Hr & Hb & Hc & _).
  pose proof (lookup_lt_Some _ _ _ Hr) as Hlt0.
  pose proof (tree_ok_children t Htree) as Hch.
  destruct (select_from_total (Rave.ucb tb) (Rave.ucb_opponent tb) t
              (who_take_turns (nboard root)) Hch
              (λ id n c Hn Hin, rave_scores s id c n Hinv Htree Hw Hn Hin)
              (length t) 0%nat [0%nat]) as [path Hsel]; [done|lia|].
  change (select_root_to_leaf (Rave.ucb tb) (Rave.ucb_opponent tb) t 0
            (who_take_turns (nboard root)) = Some path) in Hsel.
  destruct (select_root_to_leaf_valid _ _ _ _ _ _ Hch Hlt0 Hsel)
    as (Hpath & _ & leaf & Hlast).
  assert (Hleaf : (leaf < length t)%nat).
  { apply (proj1 (Forall_forall _ _) Hpath).
    apply last_Some in Hlast as [l' ->]. apply elem_of_app. right.
    constructor. }
  destruct (expand_total t leaf (Rave.eng s) Hleaf)
    as (t1 & x & e1 & Hx & Hlen & Hxlt & Hxcase).
  pose proof (tree_ok_expand _ _ _ _ _ _ Hx Htree) as Htree1.
  destruct (root_of_expand _ _ _ _ _ _ state cs Hx Hroot)
    as (cs1 & Hroot1 & Hcs1).
  destruct (path_extended t t1 path leaf x Hpath Hlast Hlen Hxlt)
    as (Hv1 & back & n & Hback & Hn).
  destruct (Playout.simulate_winner_total n e1) as (winner & Hsim & _).
  pose proof Hroot1 as (root1 & Hr1 & _).
  destruct (rave_back_propagate_spec 0 winner _ t1 tb root1 Hr1 Hv1)
    as (t' & tb' & Hbp & Hbk).
  destruct (path_once _ _ t _ path leaf x Hch Hsel Hpath Hxcase)
    as (Hnd & H0in).
  assert (Hit : Rave.iteration 0 s
                = Some (Rave.Search t' tb' (all_space e1).2)).
  { unfold Rave.iteration, Rave.simulate_and_backup, Rave.extend_path.
    fold t tb. rewrite Hr. cbn [mbind option_bind].
    rewrite Hsel. cbn [mbind option_bind].
    rewrite Hlast. cbn [mbind option_bind].
    rewrite Hx. cbn [mbind option_bind].
    rewrite Hback. cbn [mbind option_bind].
    rewrite Hn. cbn [mbind option_bind].
    rewrite Hsim. cbn [mbind option_bind].
    rewrite Hbp. done. }
  exists (Rave.Search t' tb' (all_space e1).2), cs1.
  split; [done|]. split; [|split].
  - split; [by apply (rave_inv_iteration s)|].
    pose proof (rave_back_propagate_ind
             (λ t tb, (tree_ok t ∧ root_of t state cs1)
                      ∧ tables_ok tb ∧ wins_ok tb ∧ oob_ok tb) 0 winner
             (λ t0 tb0 root0 n0 id0 HP _ Hn0,
                conj (conj (tree_ok_after_backup t0 id0 n0 _
                              (proj1 (proj1 HP)) Hn0)
                           (root_of_after_backup t0 id0 n0 _ state cs1
                              (proj2 (proj1 HP)) Hn0))
                  (conj (tables_ok_bump _ tb0 (place_pos n0)
                           (proj1 (proj2 HP)))
                     (conj (wins_ok_bump _ tb0 (place_pos n0)
                              (proj1 (proj2 HP))
                              (proj1 (proj2 (proj2 HP))))
                           (oob_ok_bump _ tb0 (place_pos n0)
                              (proj1 (proj2 HP))
                              (proj2 (proj2 (proj2 HP)))
                              (place_pos_cases t0 state cs1 id0 n0
                                 (proj1 (proj1 HP)) (proj2 (proj1 HP))
                                 Hn0)))))
             _ t1 tb t' tb' Hbp
             (conj (conj Htree1 Hroot1)
                   (conj (inv_tables s Hinv) (conj Hw Hoob))))
      as ((Ht' & Hroot') & _ & Hw' & Hoob').
    done.
  - intros E. destruct (Hcs1 E) as [-> Hnone]. apply Hnone.
    rewrite (select_at_leaf _ _ t _ 0%nat root Hr Hc) in Hsel.
    injection Hsel as <-. simpl in Hlast. congruence.
  - intros k Hk. apply (visited_backup _ _ t1 t' k Hbk Hnd H0in).
    by apply (visited_expand t t1 leaf x (Rave.eng s) e1).
Qed.

Lemma rave_iterations_ok (N : nat) (state : board) :
  ∀ (s : Rave.search) (cs : list nat),
    rave_full s state cs →
    ∃ s' cs', Rave.iterations N 0 s = Some s'
              ∧ rave_full s' state cs'
              ∧ (N = 0%nat → cs' = cs)
              ∧ (N ≠ 0%nat → cs' = [] →
                 ∀ pos, 0 ≤ pos < 81 → place state pos = None)
              ∧ ∀ k, visited_at_most (Rave.nodes s) k →
                     visited_at_most (Rave.nodes s') (k + Z.of_nat N).
Proof.
  induction N as [|N IH]; intros s cs Hinv; cbn [Rave.iterations].
  - exists s, cs. split; [done|]. split; [done|]. split; [done|].
    split; [done|]. intros k Hk. by rewrite Z.add_0_r.
  - destruct (rave_iteration_ok s state cs Hinv)
      as (s1 & cs1 & Hit & Hinv1 & Hnone1 & Hvis1).
    rewrite Hit. cbn [mbind option_bind].
    destruct (IH s1 cs1 Hinv1)
      as (s' & cs' & Hits & Hinv' & Hsame & Hnone & Hvis).
    exists s', cs'. split; [done|]. split; [done|]. split; [done|]. split.
    + intros _ E. destruct N as [|N].
      * apply Hnone1. by rewrite <- (Hsame eq_refl).
      * by apply Hnone.
    + intros k Hk.
      replace (k + Z.of_nat (S N)) with (k + 1 + Z.of_nat N) by lia.
      by apply Hvis, Hvis1.
Qed.

(** The scan of [select_action] over the children of the root. *)
Lemma rave_select_action_ok (s : @Rave.search board engine) (state : board)
  (cs : list nat) :
  rave_full s state cs →
  ∃ a, Rave.select_action 0 s = Some a
       ∧ ((cs = [] ∧ a = action_null)
          ∨ (cs ≠ []
             ∧ ∃ pos, a = action_place pos (who_take_turns state)
                      ∧ 0 ≤ pos < 81 ∧ is_Some (place state pos))).
Proof.
  intros (Hinv & Htree & Hw & _ & Hroot).
  pose proof Hroot as (root & Hr & Hb & Hc & _).
  unfold Rave.select_action. rewrite Hr. cbn [mbind option_bind].
  rewrite Hc. destruct cs as [|c0 cs'] eqn:Ecs.
  { exists action_null. split; [done|]. by left. }
  rewrite <- Ecs in *.
  assert (Hneq : ∀ c, c ∈ cs → c ≠ 0%nat).
  { intros c Hin. destruct Htree as (_ & Hch & _). rewrite <- Hc in Hin.
    destruct (Hch 0%nat root c Hr Hin) as [Hlt _]. lia. }
  destruct (best_child_total
              (λ ci, n ← Rave.nodes s !! ci;
                     Rave.win_rate_binary32 n (Rave.tabs s))
              cs)
    as (c & Hbest & Hin); [by rewrite Ecs| |].
  { intros c Hin.
    destruct (root_child_legal _ state cs c Htree Hroot Hin)
      as (cn & Hcn & _).
    rewrite Hcn. cbn [mbind option_bind].
    destruct (rave_win_rate_binary32_nonneg s c cn Hinv Hw Hcn (Hneq c Hin))
      as (v & Hv & Hv0).
    by exists v. }
  destruct (root_child_legal _ state cs c Htree Hroot Hin)
    as (cn & Hcn & Hrange & Hpl).
  exists (action_place (place_pos cn) (who_take_turns state)). split.
  { rewrite Hbest. cbn [mbind option_bind]. rewrite Hcn.
    cbn [mbind option_bind]. by rewrite Hb. }
  right. split; [by rewrite Ecs|]. exists (place_pos cn).
  split; [done|]. split; [done|]. by eexists.
Qed.

(** X2: with [N], an [int], not zero, the RAVE player completes its
    turns and returns an action.  It returns the null action exactly when
    [N] is negative (no turn is run) or the board refuses every position;
    otherwise it places for the side to move at a position that [state]
    accepts.  (An increment at an index outside a table is recorded and
    leaves the table as it is.) *)
Theorem rave_take_action_legal (N : Z) (state : board) (e : engine) :
  N ≠ 0 →
  ∃ a, Rave.take_action N state e = Some a
       ∧ (a = action_null ↔
          N < 0 ∨ ∀ pos, 0 ≤ pos < 81 → place state pos = None)
       ∧ (∀ pos who, a = action_place pos who →
            who = who_take_turns state ∧ 0 ≤ pos < 81
            ∧ is_Some (place state pos)).
Proof.
  intros HN.
  destruct (rave_iterations_ok (Z.to_nat N) state (Rave.start state e) []
              (rave_full_start state e))
    as (s' & cs' & Hits & Hinv & Hsame & Hnone & _).
  destruct (rave_select_action_ok s' state cs' Hinv) as (a & Hsel & Ha).
  exists a. split.
  { unfold Rave.take_action, Rave.MCTS. rewrite Hits. exact Hsel. }
  destruct Ha as [[-> ->]|(Hne & pos & -> & Hrange & Hlegal)].
  - split; [|done]. split; [|done]. intros _.
    destruct (decide (N < 0)) as [Hneg|Hpos]; [by left|].
    right. apply Hnone; [lia|done].
  - split.
    + split; [done|]. intros [Hneg|Hno].
      * destruct Hne. apply Hsame. lia.
      * destruct Hlegal as [b Hb]. rewrite Hno in Hb by done. done.
    + by intros pos' who [= <- <-].
Qed.

(** X3: during a search of the RAVE player both tables keep their 81
    entries, at every position the wins counted lie between zero and the
    visits counted, and the only index that ever falls outside a table is
    -1, the position of the root. *)
Theorem rave_tables_sound (N : nat) (state : board) (e : engine) :
  ∃ s', Rave.iterations N 0 (Rave.start state e) = Some s'
        ∧ length (Rave.rave_total (Rave.tabs s')) = 81%nat
        ∧ length (Rave.rave_win (Rave.tabs s')) = 81%nat
        ∧ (∀ p, 0 ≤ p < 81 →
             ∃ rw rt, lookupZ (Rave.rave_win (Rave.tabs s')) p = Some rw
                      ∧ lookupZ (Rave.rave_total (Rave.tabs s')) p = Some rt
                      ∧ 0 ≤ rw ≤ rt)
        ∧ (∀ i, i ∈ Rave.oob (Rave.tabs s') → i = -1).
Proof.
  destruct (rave_iterations_ok N state (Rave.start state e) []
              (rave_full_start state e))
    as (s' & cs' & Hits & (Hinv & _ & Hw & Hoob & _) & _).
  exists s'. split; [done|].
  destruct (inv_tables s' Hinv) as (Hlt & Hlw & _).
  split; [done|]. split; [done|]. split; [|done].
  intros p Hp.
  destruct (lookupZ_in_range (Rave.rave_win (Rave.tabs s')) p) as [rw Hrw];
    [lia|lia|].
  destruct (lookupZ_in_range (Rave.rave_total (Rave.tabs s')) p)
    as [rt Hrt]; [lia|lia|].
  exists rw, rt. split; [done|]. split; [done|]. by apply (Hw p).
Qed.

(** X11: in both players every turn of the search counts one visit of
    the root and at most one of any node: after [N] turns the root's
    [total_cnt] is [N], and at every node
    [0 <= win_cnt <= total_cnt <= N]. *)
Theorem visits_count_turns (N : nat) (state : board) (e : engine) :
  (∃ s root,
     Par.iterations N 0 (Par.start state e) = Some s
     ∧ Par.nodes s !! 0%nat = Some root ∧ total_cnt root = Z.of_nat N
     ∧ ∀ id n, Par.nodes s !! id = Some n →
         0 ≤ win_cnt n ≤ total_cnt n ∧ total_cnt n ≤ Z.of_nat N)
  ∧ (∃ s root,
       Rave.iterations N 0 (Rave.start state e) = Some s
       ∧ Rave.nodes s !! 0%nat = Some root ∧ total_cnt root = Z.of_nat N
       ∧ ∀ id n, Rave.nodes s !! id = Some n →
           0 ≤ win_cnt n ≤ total_cnt n ∧ total_cnt n ≤ Z.of_nat N).
Proof.
  split.
  - destruct (par_iterations_ok N state (Par.start state e) []
                (par_inv_start state))
      as (s & cs & Hits & (_ & Hcnt & _) & _ & _ & Hvis & _).
    destruct (Hvis 0 (visited_start state))
      as (_ & (root & Hroot & Htot) & Hall).
    exists s, root. split; [done|]. split; [done|]. split; [lia|].
    intros id n Hn. split; [by apply (Hcnt id)|].
    pose proof (Hall id n Hn). lia.
  - destruct (rave_iterations_ok N state (Rave.start state e) []
                (rave_full_start state e))
      as (s & cs & Hits & (Hinv & _) & _ & _ & Hvis).
    destruct (Hvis 0 (visited_start state))
      as (_ & (root & Hroot & Htot) & Hall).
    exists s, root. split; [done|]. split; [done|]. split; [lia|].
    intros id n Hn. split; [by apply (inv_counters _ Hinv id)|].
    pose proof (Hall id n Hn). lia.
Qed.

(** X14: after any number of turns, in both players, the arena is a tree
    rooted at node 0: a child is a later node whose parent link points
    back, and every node but the root sits at a position of the board
    that the board of its parent accepts, and holds the board after that
    placement. *)
Theorem search_tree_links (N : nat) (state : board) (e : engine) :
  (∃ s, Par.iterations N 0 (Par.start state e) = Some s
        ∧ tree_ok (Par.nodes s))
  ∧ (∃ s, Rave.iterations N 0 (Rave.start state e) = Some s
          ∧ tree_ok (Rave.nodes s)).
Proof.
  split.
  - destruct (par_iterations_ok N state (Par.start state e) []
                (par_inv_start state))
      as (s & cs & Hits & (Htree & _) & _).
    by exists s.
  - destruct (rave_iterations_ok N state (Rave.start state e) []
                (rave_full_start state e))
      as (s & cs & Hits & (_ & Htree & _) & _).
    by exists s.
Qed.

(** X18: in both players, after any number of turns,
    [select_root_to_leaf] returns a path that starts at the root, goes
    from each node, which is not a leaf, to one of its children, and ends
    at a leaf. *)
Theorem select_path_descends (N : nat) (state : board) (e : engine) :
  (∃ s more,
     Par.iterations N 0 (Par.start state e) = Some s
     ∧ select_root_to_leaf Par.ucb Par.ucb_opponent (Par.nodes s) 0
         (who_take_turns state) = Some (0%nat :: more)
     ∧ descends (Par.nodes s) 0 more)
  ∧ (∃ s more,
       Rave.iterations N 0 (Rave.start state e) = Some s
       ∧ select_root_to_leaf (Rave.ucb (Rave.tabs s))
           (Rave.ucb_opponent (Rave.tabs s)) (Rave.nodes s) 0
           (who_take_turns state) = Some (0%nat :: more)
       ∧ descends (Rave.nodes s) 0 more).
Proof.
  split.
  - destruct (par_iterations_ok N state (Par.start state e) []
                (par_inv_start state))
      as (s & cs & Hits & (Htree & Hcnt & Hroot) & _).
    pose proof Hroot as (root & Hr & _).
    destruct (select_from_total Par.ucb Par.ucb_opponent (Par.nodes s)
                (who_take_turns state) (tree_ok_children _ Htree)
                (λ id n c Hn Hin,
                   par_scores (Par.nodes s) id c n Htree Hcnt Hn Hin)
                (length (Par.nodes s)) 0%nat [0%nat]) as [path Hsel];
      [by apply lookup_lt_Some in Hr|lia|].
    destruct (select_from_descends _ _ _ _ _ _ _ _ Hsel)
      as (more & -> & Hmore).
    by exists s, more.
  - destruct (rave_iterations_ok N state (Rave.start state e) []
                (rave_full_start state e))
      as (s & cs & Hits & (Hinv & Htree & Hw & _ & Hroot) & _).
    pose proof Hroot as (root & Hr & _).
    destruct (select_from_total (Rave.ucb (Rave.tabs s))
                (Rave.ucb_opponent (Rave.tabs s)) (Rave.nodes s)
                (who_take_turns state) (tree_ok_children _ Htree)
                (λ id n c Hn Hin, rave_scores s id c n Hinv Htree Hw Hn Hin)
                (length (Rave.nodes s)) 0%nat [0%nat]) as [path Hsel];
      [by apply lookup_lt_Some in Hr|lia|].
    destruct (select_from_descends _ _ _ _ _ _ _ _ Hsel)
      as (more & -> & Hmore).
    by exists s, more.
Qed.

(** X12: what [select_action] of the parallel player returns after [N]
    turns: -1 when the root has no child, and otherwise the position of
    the first child of the root whose win rate, as the [float] the code
    computes and compares, is the highest: the children before it have a
    smaller [float] rate, those after it none greater. *)
Theorem par_select_action_best (N : nat) (state : board) (e : engine) :
  ∃ s root,
    Par.iterations N 0 (Par.start state e) = Some s
    ∧ Par.nodes s !! 0%nat = Some root
    ∧ (child root = [] → Par.select_action 0 s = Some (-1))
    ∧ (child root ≠ [] →
       ∃ l1 c l2 cn v,
         child root = l1 ++ c :: l2
         ∧ Par.nodes s !! c = Some cn ∧ Par.win_rate_binary32 cn = Some v
         ∧ Par.select_action 0 s = Some (place_pos cn)
         ∧ (∀ c' n' v', c' ∈ l1 → Par.nodes s !! c' = Some n' →
              Par.win_rate_binary32 n' = Some v' → (v' < v)%Qc)
         ∧ (∀ c' n' v', c' ∈ l2 → Par.nodes s !! c' = Some n' →
              Par.win_rate_binary32 n' = Some v' → (v' ≤ v)%Qc)).
Proof.
  destruct (par_iterations_ok N state (Par.start state e) []
              (par_inv_start state))
    as (s & cs & Hits & (Htree & Hcnt & Hroot) & _).
  pose proof Hroot as (root & Hr & Hb & Hc & _).
  exists s, root. split; [done|]. split; [done|].
  unfold Par.select_action. rewrite Hr. cbn [mbind option_bind].
  split; [by intros ->|]. intros Hne.
  set (score := λ ci, n ← Par.nodes s !! ci; Par.win_rate_binary32 n).
  assert (Hs : ∀ c, c ∈ child root →
                    ∃ v, score c = Some v ∧ (0 ≤ v)%Qc).
  { intros c Hin. rewrite Hc in Hin.
    destruct (root_child_legal _ state cs c Htree Hroot Hin)
      as (cn & Hcn & _).
    unfold score. rewrite Hcn. cbn [mbind option_bind].
    destruct (par_win_rate_binary32_nonneg cn (Hcnt c cn Hcn))
      as (v & Hv & Hv0).
    by exists v. }
  destruct (best_child_total score (child root) Hne Hs)
    as (c & Hbest & Hin).
  destruct (best_child_first_max score (child root) c Hs Hbest)
    as (l1 & l2 & v & Hl & Hv & Hlt & Hle).
  rewrite Hc in Hin.
  destruct (root_child_legal _ state cs c Htree Hroot Hin)
    as (cn & Hcn & _).
  assert (Hwr : Par.win_rate_binary32 cn = Some v).
  { unfold score in Hv. by rewrite Hcn in Hv. }
  exists l1, c, l2, cn, v. split; [done|]. split; [done|]. split; [done|].
  split.
  { destruct (child root) as [|c0 cs0]; [done|].
    fold score. rewrite Hbest. cbn [mbind option_bind]. by rewrite Hcn. }
  split.
  - intros c' n' v' Hc' Hn' Hv'. apply (Hlt c' v' Hc').
    unfold score. by rewrite Hn'.
  - intros c' n' v' Hc' Hn' Hv'. apply (Hle c' v' Hc').
    unfold score. by rewrite Hn'.
Qed.

End Lemmas.
End Progress.

(** ** [take_action] of the parallel player *)

Module ParMove.
Import NoGo Vote Progress ParTurn.

Lemma votes_for_elem (p : Z) (votes : list Z) :
  0 < votes_for p votes → p ∈ votes.
Proof.
  induction votes as [|v votes IH]; [done|].
  rewrite votes_for_cons. case_decide as E.
  - intros _. rewrite E. constructor.
  - intros Hp. constructor. apply IH. lia.
Qed.

(** The vote returns the null action when every worker returned -1, and
    otherwise a position that a worker returned. *)
Lemma vote_cases (votes : list Z) (who : Z) :
  Forall worker_result votes →
  (Par.vote votes who = action_null ∧ Forall (λ v, v = -1) votes)
  ∨ (∃ pos, Par.vote votes who = action_place pos who
            ∧ pos ∈ votes ∧ 0 ≤ pos < 81).
Proof.
  intros Hall. destruct (tally_spec votes Hall) as (_ & Hlen & Hcount).
  destruct (max_element_spec (Par.tally votes).1) as (mv & Hm & Hmax & _).
  { intros E. rewrite E in Hlen. done. }
  set (m := Par.max_element (Par.tally votes).1) in *.
  assert (Hmlt : (m < 81)%nat).
  { apply lookup_lt_Some in Hm. lia. }
  assert (Hmv : mv = votes_for (Z.of_nat m) votes).
  { specialize (Hcount (Z.of_nat m) ltac:(lia)).
    unfold lookupZ in Hcount.
    rewrite (proj2 (Z.leb_le 0 (Z.of_nat m))), Nat2Z.id in Hcount by lia.
    congruence. }
  unfold Par.vote. fold m. rewrite Hm. simpl.
  destruct (Z.eqb_spec mv 0) as [E0|E0].
  - left. split; [done|]. apply Forall_forall. intros v Hv.
    destruct (proj1 (Forall_forall _ _) Hall v Hv) as [?|Hr]; [done|].
    pose proof (votes_for_pos v votes Hv) as Hpos.
    specialize (Hcount v Hr). unfold lookupZ in Hcount.
    rewrite (proj2 (Z.leb_le 0 v)) in Hcount by lia.
    pose proof (Hmax _ _ Hcount). lia.
  - right. exists (Z.of_nat m). split; [done|]. split; [|lia].
    apply votes_for_elem. pose proof (votes_for_nonneg (Z.of_nat m) votes).
    lia.
Qed.

(** The writes of the team fill the first slots of [majority_vote] and
    leave the others at 0. *)
Lemma store_all (results : list Z) :
  ∀ (written : list Z) (unwritten : nat),
    foldl (λ acc '(id, vote_move), mv ← acc; store mv id vote_move)
          (Some (written ++ replicate (length results + unwritten) 0))
          (zip (seq (length written) (length results)) results)
    = Some (written ++ results ++ replicate unwritten 0).
Proof.
  induction results as [|r results IH]; intros written unwritten; [done|].
  cbn [length seq zip zip_with foldl mbind option_bind].
  unfold store at 2. rewrite decide_True.
  2:{ rewrite length_app, length_replicate. simpl. lia. }
  replace (<[length written:=r]>
             (written ++ replicate (S (length results) + unwritten) 0))
    with ((written ++ [r]) ++ replicate (length results + unwritten) 0).
  2:{ rewrite insert_app_r_alt, Nat.sub_diag by lia.
      by rewrite <- app_assoc. }
  replace (S (length written)) with (length (written ++ [r]))
    by (rewrite length_app; simpl; lia).
  rewrite IH. by rewrite <- app_assoc.
Qed.

Section Laws.
Context {board : Type} `{NoGoBoard board}.
Context {engine : Type} `{Engine engine}.
Context `{LibmLaws}.

(** X4: [take_action] of the parallel player on the branch [if(N)], with
    a team of at most [thread_num] threads, returns an action.  When the
    team has [thread_num] threads, so that every slot of [majority_vote] is
    written, the action is null exactly when [N] is negative (no turn is
    run) or the board refuses every position, and otherwise a placement for
    the side to move at a position that [state] accepts.  When the team is
    smaller, the slots left at 0 vote for position 0: the action is a
    placement, at position 0 or at a position that [state] accepts. *)
Theorem par_take_action_legal (N : Z) (state : board) (thread_num : nat)
  (workers : list engine) :
  N ≠ 0 → (length workers ≤ thread_num)%nat →
  ∃ a, take_action N state thread_num workers = Some a
       ∧ (length workers = thread_num → workers ≠ [] →
          (a = action_null ↔
           N < 0 ∨ ∀ pos, 0 ≤ pos < 81 → place state pos = None)
          ∧ (∀ pos who, a = action_place pos who →
               who = who_take_turns state ∧ 0 ≤ pos < 81
               ∧ is_Some (place state pos)))
       ∧ ((length workers < thread_num)%nat →
          ∃ pos, a = action_place pos (who_take_turns state)
                 ∧ (pos = 0 ∨ (0 ≤ pos < 81 ∧ is_Some (place state pos)))).
Proof.
  intros HN Hteam.
  destruct (mapM_is_Some_2 (λ e, Par.MCTS N 0 (Par.start state e)) workers)
    as [results Hresults].
  { apply Forall_forall. intros e _. simpl.
    destruct (par_MCTS_cases N state e) as (r & Hr & _). by eexists. }
  pose proof (mapM_Some_1 _ _ _ Hresults) as Hall.
  pose proof (Forall2_length _ _ _ Hall) as Hlen.
  assert (Hcase : Forall (λ r,
            (r = -1
             ∧ (N < 0 ∨ ∀ pos, 0 ≤ pos < 81 → place state pos = None))
            ∨ (0 < N ∧ 0 ≤ r < 81 ∧ is_Some (place state r))) results).
  { eapply Forall2_Forall_r; [exact Hall|].
    apply Forall_forall. intros e _ r Hr.
    destruct (par_MCTS_cases N state e) as (r' & Hr' & Hc).
    assert (r' = r) as -> by congruence.
    destruct Hc as [[-> [HN'|Hno]]|Hc]; [left|left|by right].
    - split; [done|]. left. lia.
    - split; [done|]. by right. }
  set (votes := results ++ replicate (thread_num - length results) 0).
  assert (Hvotes : take_action N state thread_num workers
                   = Some (Par.vote votes (who_take_turns state))).
  { unfold take_action. rewrite Hresults. cbn [mbind option_bind].
    pose proof (store_all results [] (thread_num - length results)) as Hst.
    replace (length results + (thread_num - length results))%nat
      with thread_num in Hst by lia.
    cbn [app length] in Hst. rewrite Hst. done. }
  assert (Hres : Forall worker_result votes).
  { apply Forall_app. split.
    - eapply Forall_impl; [exact Hcase|]. intros r [[-> _]|(_ & Hr & _)].
      + by left.
      + by right.
    - apply Forall_replicate. right. lia. }
  exists (Par.vote votes (who_take_turns state)). split; [done|]. split.
  - intros Hfull Hw.
    assert (votes = results) as ->.
    { unfold votes. replace (thread_num - length results)%nat with 0%nat
        by lia. apply app_nil_r. }
    destruct (vote_cases results (who_take_turns state) Hres)
      as [[-> Hnull]|(pos & -> & Hin & Hrange)].
    + split; [|done]. split; [intros _|done].
      destruct results as [|v results]; [by destruct workers|].
      apply Forall_cons in Hnull as [-> _].
      apply Forall_cons in Hcase as [[[_ Hno]|(_ & Hr & _)] _]; [done|lia].
    + pose proof (proj1 (Forall_forall _ _) Hcase pos Hin)
        as [[-> _]|(HN' & _ & Hlegal)]; [lia|].
      split.
      * split; [done|]. intros [Hneg|Hno]; [lia|].
        destruct Hlegal as [b Hb]. rewrite Hno in Hb by done. done.
      * by intros pos' who [= <- <-].
  - intros Hsmall.
    assert (Hzero : 0 ∈ votes).
    { apply elem_of_app. right. apply elem_of_replicate. split; [done|lia]. }
    destruct (vote_cases votes (who_take_turns state) Hres)
      as [[_ Hnull]|(pos & -> & Hin & Hrange)].
    { by pose proof (proj1 (Forall_forall _ _) Hnull 0 Hzero). }
    exists pos. split; [done|].
    apply elem_of_app in Hin as [Hin|Hin].
    + pose proof (proj1 (Forall_forall _ _) Hcase pos Hin)
        as [[-> _]|(_ & _ & Hlegal)]; [lia|]. by right.
    + apply elem_of_replicate in Hin as [-> _]. by left.
Qed.

End Laws.
End ParMove.

(** ** [delete_tree] of the parallel player *)

Module Delete.
Import NoGo RaveInv Structure Progress ParTurn.

Lemma elem_of_concat {A} (x : A) (ls : list (list A)) :
  x ∈ concat ls ↔ ∃ l, x ∈ l ∧ l ∈ ls.
Proof.
  induction ls as [|l0 ls IH]; cbn [concat].
  - split; [intros Hx; by apply elem_of_nil in Hx|].
    intros (l & _ & Hl). by apply elem_of_nil in Hl.
  - rewrite elem_of_app, IH. split.
    + intros [Hx|(l & Hx & Hl)].
      * exists l0. split; [done|constructor].
      * exists l. split; [done|by constructor].
    + intros (l & Hx & Hl). apply elem_of_cons in Hl as [->|Hl].
      * by left.
      * right. by exists l.
Qed.

Section Lemmas.
Context {board : Type} `{NoGoBoard board}.
Context {engine : Type} `{Engine engine}.

Abbreviation tree := (list (node board)).

(** [j] is [id] or lies below it. *)
Inductive below (t : tree) : nat → nat → Prop :=
  | below_refl id : (id < length t)%nat → below t id id
  | below_step id n c j :
      t !! id = Some n → c ∈ child n → below t c j → below t id j.

Lemma delete_tree_unfold (fuel : nat) (t : tree) (root : nat)
  (n : node board) :
  t !! root = Some n →
  delete_tree (S fuel) t root
  = deleted ← mapM (delete_tree fuel t) (child n);
    Some (concat deleted ++ [root]).
Proof.
  intros Hn. cbn [delete_tree]. rewrite Hn. cbn [mbind option_bind].
  by destruct (child n).
Qed.

Lemma delete_tree_inv (fuel : nat) (t : tree) (root : nat) (l : list nat) :
  delete_tree fuel t root = Some l →
  ∃ fuel' n ls,
    fuel = S fuel' ∧ t !! root = Some n
    ∧ Forall2 (λ c l', delete_tree fuel' t c = Some l') (child n) ls
    ∧ l = concat ls ++ [root].
Proof.
  destruct fuel as [|fuel']; [done|]. intros Hd.
  destruct (t !! root) as [n|] eqn:Hn.
  2:{ cbn [delete_tree] in Hd. by rewrite Hn in Hd. }
  rewrite (delete_tree_unfold fuel' t root n Hn) in Hd.
  destruct (mapM _ (child n)) as [ls|] eqn:Hm; [|done].
  injection Hd as <-. exists fuel', n, ls.
  split; [done|]. split; [done|]. split; [|done]. by apply mapM_Some_1.
Qed.

Section Tree.
Variable t : tree.
Hypothesis Htree : tree_ok t.
Hypothesis Honce : children_once t.

Lemma below_le (a j : nat) : below t a j → (a ≤ j < length t)%nat.
Proof.
  induction 1 as [id Hid|id n c j Hn Hc _ IH]; [lia|].
  pose proof (tree_ok_children t Htree id n Hn c Hc). lia.
Qed.

Lemma below_snoc (a p j : nat) (pn : node board) :
  below t a p → t !! p = Some pn → j ∈ child pn → below t a j.
Proof.
  intros Hb Hpn Hj. induction Hb as [id Hid|id n c p Hn Hc _ IH].
  - apply (below_step t id pn j j Hpn Hj). apply below_refl.
    by apply (tree_ok_children t Htree id pn Hpn j Hj).
  - apply (below_step t id n c j Hn Hc). by apply IH.
Qed.

(** Every node lies below the root. *)
Lemma below_root (j : nat) : (j < length t)%nat → below t 0 j.
Proof.
  induction j as [j IH] using lt_wf_ind. intros Hj.
  destruct (decide (j = 0%nat)) as [->|Hne]; [by apply below_refl|].
  destruct (lookup_lt_is_Some_2 t j Hj) as [n Hn].
  destruct Htree as (_ & Hch & Hpar).
  destruct (Hpar j n Hn Hne) as (p & pn & _ & Hpn & Hin & _).
  destruct (Hch p pn j Hpn Hin) as [Hlt _].
  apply (below_snoc 0 p j pn); [|done..].
  apply IH; lia.
Qed.

(** A node that lies properly below [a] has a parent that lies below
    [a]. *)
Lemma below_parent (a j : nat) :
  below t a j → a ≠ j →
  ∃ jn p, t !! j = Some jn ∧ parent jn = Some p ∧ (p < j)%nat
          ∧ below t a p.
Proof.
  induction 1 as [id Hid|id n c j Hn Hc Hb IH]; [done|]. intros _.
  destruct Htree as (_ & Hch & _).
  destruct (Hch id n c Hn Hc) as (Hlt & cn & Hcn & Hp).
  destruct (decide (c = j)) as [->|Hne].
  - exists cn, id. split; [done|]. split; [done|]. split; [lia|].
    apply below_refl. by apply lookup_lt_Some in Hn.
  - destruct (IH Hne) as (jn & p & Hjn & Hpj & Hpl & Hbp).
    exists jn, p. split; [done|]. split; [done|]. split; [done|].
    by apply (below_step t id n c p).
Qed.

(** The nodes above a node form a chain. *)
Lemma below_chain (j : nat) :
  ∀ a b, below t a j → below t b j → below t a b ∨ below t b a.
Proof.
  induction j as [j IH] using lt_wf_ind. intros a b Ha Hb.
  destruct (decide (a = j)) as [->|Haj]; [by right|].
  destruct (decide (b = j)) as [->|Hbj]; [by left|].
  destruct (below_parent a j Ha Haj) as (jn & p & Hjn & Hp & Hlt & Hap).
  destruct (below_parent b j Hb Hbj) as (jn' & p' & Hjn' & Hp' & _ & Hbp).
  assert (p' = p) as -> by congruence.
  by apply (IH p Hlt).
Qed.

(** Two children of a node have no node below both. *)
Lemma below_apart (id c1 c2 j : nat) (n : node board) :
  t !! id = Some n → c1 ∈ child n → c2 ∈ child n → c1 ≠ c2 →
  below t c1 j → below t c2 j → False.
Proof.
  intros Hn H1 H2 Hne Hb1 Hb2.
  destruct Htree as (_ & Hch & _).
  destruct (Hch id n c1 Hn H1) as (Hlt1 & cn1 & Hcn1 & Hp1).
  destruct (Hch id n c2 Hn H2) as (Hlt2 & cn2 & Hcn2 & Hp2).
  destruct (below_chain j c1 c2 Hb1 Hb2) as [Hb|Hb].
  - destruct (below_parent c1 c2 Hb Hne) as (jn & p & Hjn & Hp & _ & Hbp).
    assert (p = id) as -> by congruence.
    pose proof (below_le _ _ Hbp). lia.
  - destruct (below_parent c2 c1 Hb (not_eq_sym Hne))
      as (jn & p & Hjn & Hp & _ & Hbp).
    assert (p = id) as -> by congruence.
    pose proof (below_le _ _ Hbp). lia.
Qed.

(** [delete_tree] deletes the nodes below the one it is called on. *)
Lemma delete_tree_elem (fuel : nat) :
  ∀ id l, delete_tree fuel t id = Some l → ∀ j, j ∈ l ↔ below t id j.
Proof.
  induction fuel as [|fuel IH]; intros id l Hd j; [done|].
  destruct (delete_tree_inv _ _ _ _ Hd) as (fuel' & n & ls & E & Hn & Hall & ->).
  injection E as <-. split.
  - intros Hj. apply elem_of_app in Hj as [Hj|Hj].
    + apply elem_of_concat in Hj as (l' & Hj & Hl').
      apply list_elem_of_lookup_1 in Hl' as [i Hi].
      destruct (Forall2_lookup_r _ _ _ _ _ Hall Hi) as (c & Hc & Hdc).
      apply (below_step t id n c j Hn).
      * by apply list_elem_of_lookup_2 in Hc.
      * by apply (IH c l').
    + apply list_elem_of_singleton in Hj as ->. apply below_refl.
      by apply lookup_lt_Some in Hn.
  - intros Hb. inversion Hb as [id' Hid|id' n' c j' Hn' Hc Hbc]; subst.
    + apply elem_of_app. right. constructor.
    + assert (n' = n) as -> by congruence.
      apply list_elem_of_lookup_1 in Hc as [i Hi].
      destruct (Forall2_lookup_l _ _ _ _ _ Hall Hi) as (l' & Hl' & Hdc).
      apply elem_of_app. left. apply elem_of_concat.
      exists l'. split; [by apply (IH c l')|].
      by apply list_elem_of_lookup_2 in Hl'.
Qed.

(** It deletes no node twice. *)
Lemma delete_tree_NoDup (fuel : nat) :
  ∀ id l, delete_tree fuel t id = Some l → NoDup l.
Proof.
  induction fuel as [|fuel IH]; intros id l Hd; [done|].
  destruct (delete_tree_inv _ _ _ _ Hd) as (fuel' & n & ls & E & Hn & Hall & ->).
  injection E as <-.
  assert (Haux : ∀ cs ls,
            (∀ c, c ∈ cs → c ∈ child n) → NoDup cs →
            Forall2 (λ c l', delete_tree fuel t c = Some l') cs ls →
            NoDup (concat ls)).
  2:{ apply NoDup_app. split; [|split; [|apply NoDup_singleton]].
      - by apply (Haux (child n) ls); [|apply (Honce id n Hn)|].
      - intros j Hj Hj'. apply list_elem_of_singleton in Hj' as ->.
        apply elem_of_concat in Hj as (l' & Hj & Hl').
        apply list_elem_of_lookup_1 in Hl' as [i Hi].
        destruct (Forall2_lookup_r _ _ _ _ _ Hall Hi) as (c & Hc & Hdc).
        apply list_elem_of_lookup_2 in Hc.
        pose proof (tree_ok_children t Htree id n Hn c Hc).
        apply (delete_tree_elem fuel c l' Hdc) in Hj.
        pose proof (below_le _ _ Hj). lia. }
  clear Hall ls Hd. intros cs ls Hin Hnd Hall.
  - revert Hin Hnd.
    induction Hall as [|c l' cs ls Hdc Hall IHall]; intros Hin Hnd;
      [constructor|].
    apply NoDup_cons in Hnd as [Hc Hnd]. cbn [concat].
    apply NoDup_app. split; [by apply (IH c)|]. split.
    + intros j Hj Hj'.
      apply elem_of_concat in Hj' as (l2 & Hj' & Hl2).
      apply list_elem_of_lookup_1 in Hl2 as [i Hi].
      destruct (Forall2_lookup_r _ _ _ _ _ Hall Hi) as (c2 & Hc2 & Hdc2).
      apply list_elem_of_lookup_2 in Hc2.
      apply (below_apart id c c2 j n Hn).
      * apply Hin. constructor.
      * apply Hin. by constructor.
      * intros ->. done.
      * by apply (delete_tree_elem fuel c l').
      * by apply (delete_tree_elem fuel c2 l2).
    + apply IHall; [|done]. intros c' Hc'. apply Hin. by constructor.
Qed.

(** The recursion ends: a child comes later in the arena. *)
Lemma delete_tree_total (fuel : nat) :
  ∀ id, (id < length t)%nat → (length t - id ≤ fuel)%nat →
        is_Some (delete_tree fuel t id).
Proof.
  induction fuel as [|fuel IH]; intros id Hid Hfuel; [lia|].
  destruct (lookup_lt_is_Some_2 t id Hid) as [n Hn].
  rewrite (delete_tree_unfold fuel t id n Hn).
  destruct (mapM_is_Some_2 (delete_tree fuel t) (child n)) as [ls Hls].
  - apply Forall_forall. intros c Hc. simpl.
    pose proof (tree_ok_children t Htree id n Hn c Hc).
    apply IH; lia.
  - rewrite Hls. by eexists.
Qed.

Lemma delete_tree_all :
  ∃ l, delete_tree (length t) t 0 = Some l ∧ l ≡ₚ seq 0 (length t).
Proof.
  destruct Htree as ((root & Hroot & _) & _).
  pose proof (lookup_lt_Some _ _ _ Hroot) as Hlt.
  destruct (delete_tree_total (length t) 0%nat Hlt) as [l Hl]; [lia|].
  exists l. split; [done|].
  apply NoDup_Permutation.
  - by apply (delete_tree_NoDup (length t) 0%nat).
  - apply NoDup_seq.
  - intros j. rewrite (delete_tree_elem _ _ _ Hl j), elem_of_seq. split.
    + intros Hb. pose proof (below_le _ _ Hb). lia.
    + intros Hj. apply below_root. lia.
Qed.

End Tree.
End Lemmas.

Section Laws.
Context {board : Type} `{NoGoBoard board}.
Context {engine : Type} `{Engine engine}.
Context `{LibmLaws}.

(** X19: [delete_tree], called on the root after a search of the
    parallel player, returns, and deletes every node of the tree exactly
    once: none is left and none is deleted twice. *)
Theorem delete_tree_once (N : nat) (state : board) (e : engine) :
  ∃ s l,
    Par.iterations N 0 (Par.start state e) = Some s
    ∧ delete_tree (length (Par.nodes s)) (Par.nodes s) 0 = Some l
    ∧ l ≡ₚ seq 0 (length (Par.nodes s)).
Proof.
  destruct (par_iterations_ok N state (Par.start state e) []
              (par_inv_start state))
    as (s & cs & Hits & (Htree & _) & _ & _ & _ & Honce).
  destruct (delete_tree_all (Par.nodes s) Htree
              (Honce (children_once_start state))) as (l & Hl & Hperm).
  by exists s, l.
Qed.

End Laws.
End Delete.

(** ** The searches on a board with three cells left *)

Module SearchRun.
Import NoGo.

Lemma coarse_libm_laws : @LibmLaws coarse_libm.
Proof.
  split.
  - intros z _. apply Scores.of_int_nonneg. apply Z.log2_nonneg.
  - intros x _. apply Scores.of_int_nonneg. apply Z.sqrt_nonneg.
Qed.

#[local] Existing Instance coarse_libm.
#[local] Existing Instance coarse_libm_laws.

Lemma par_MCTS_legal_witness :
  ∃ r, Par.MCTS 4 0 (Par.start RaveSafe.three_left RaveSafe.eight_turns)
       = Some r
       ∧ (r = -1 ↔
          4 ≤ 0
          ∨ ∀ pos, 0 ≤ pos < 81 → place RaveSafe.three_left pos = None)
       ∧ (r ≠ -1 → 0 ≤ r < 81 ∧ is_Some (place RaveSafe.three_left r)).
Proof.
  exact (Progress.par_MCTS_legal 4 RaveSafe.three_left RaveSafe.eight_turns).
Defined.

Lemma rave_take_action_legal_witness :
  4 ≠ 0
  ∧ ∃ a, Rave.take_action 4 RaveSafe.three_left RaveSafe.eight_turns = Some a
         ∧ (a = action_null ↔
            4 < 0
            ∨ ∀ pos, 0 ≤ pos < 81 → place RaveSafe.three_left pos = None)
         ∧ (∀ pos who, a = action_place pos who →
              who = who_take_turns RaveSafe.three_left ∧ 0 ≤ pos < 81
              ∧ is_Some (place RaveSafe.three_left pos)).
Proof.
  split; [lia|].
  apply (Progress.rave_take_action_legal 4 RaveSafe.three_left
           RaveSafe.eight_turns).
  lia.
Defined.

Lemma rave_tables_sound_witness :
  ∃ s', Rave.iterations 4 0
          (Rave.start RaveSafe.three_left RaveSafe.eight_turns) = Some s'
        ∧ length (Rave.rave_total (Rave.tabs s')) = 81%nat
        ∧ length (Rave.rave_win (Rave.tabs s')) = 81%nat
        ∧ (∀ p, 0 ≤ p < 81 →
             ∃ rw rt, lookupZ (Rave.rave_win (Rave.tabs s')) p = Some rw
                      ∧ lookupZ (Rave.rave_total (Rave.tabs s')) p = Some rt
                      ∧ 0 ≤ rw ≤ rt)
        ∧ (∀ i, i ∈ Rave.oob (Rave.tabs s') → i = -1).
Proof.
  exact (Progress.rave_tables_sound 4 RaveSafe.three_left
           RaveSafe.eight_turns).
Defined.

(** Two threads, each with an engine of its own. *)
Definition two_workers : list Script.engine := [[78; 0]; [79; 3]]%nat.

Lemma par_take_action_legal_witness :
  2 ≠ 0 ∧ (length two_workers ≤ 2)%nat
  ∧ ∃ a, ParTurn.take_action 2 RaveSafe.three_left 2 two_workers = Some a
         ∧ (length two_workers = 2%nat → two_workers ≠ [] →
            (a = action_null ↔
             2 < 0
             ∨ ∀ pos, 0 ≤ pos < 81 → place RaveSafe.three_left pos = None)
            ∧ (∀ pos who, a = action_place pos who →
                 who = who_take_turns RaveSafe.three_left ∧ 0 ≤ pos < 81
                 ∧ is_Some (place RaveSafe.three_left pos)))
         ∧ ((length two_workers < 2)%nat →
            ∃ pos, a = action_place pos (who_take_turns RaveSafe.three_left)
                   ∧ (pos = 0
                      ∨ (0 ≤ pos < 81
                         ∧ is_Some (place RaveSafe.three_left pos)))).
Proof.
  split; [lia|]. split; [simpl; lia|].
  apply (ParMove.par_take_action_legal 2 RaveSafe.three_left 2 two_workers);
    [lia|simpl; lia].
Defined.

(** A board without an empty cell, and a team of one thread where
    [majority_vote] has two slots: the search returns -1, the slot that is
    not written votes for position 0, and [take_action] places there
    although the board refuses it. *)
Definition full_board : Open81.board :=
  Open81.Board (replicate 81 1) NoGo.black.

Lemma unwritten_slot_votes :
  place full_board 0 = None
  ∧ Par.MCTS 1 0 (Par.start full_board ([] : Script.engine)) = Some (-1)
  ∧ ParTurn.take_action 1 full_board 2 [([] : Script.engine)]
    = Some (action_place 0 NoGo.black)
  ∧ ParTurn.take_action 1 full_board 1 [([] : Script.engine)]
    = Some action_null.
Proof. repeat split; by vm_compute. Qed.

(** A negative [N] runs no turn: the search returns -1 and the RAVE
    player the null action, on a board with empty cells. *)
Lemma negative_N_no_turn :
  is_Some (place RaveSafe.three_left 78)
  ∧ Par.MCTS (-1) 0 (Par.start RaveSafe.three_left RaveSafe.eight_turns)
    = Some (-1)
  ∧ Rave.take_action (-1) RaveSafe.three_left RaveSafe.eight_turns
    = Some action_null.
Proof. split; [vm_compute; by eexists|]. split; by vm_compute. Qed.

(** Two children visited 4141 and 4142 times, with one loss each: the
    second has the higher rate, both rates are the same [float], and
    [select_action] keeps the first. *)
Definition close_rates : list (node Open81.board) :=
  [ Node RaveSafe.three_left 8281 8283 (-1) [1; 2]%nat None;
    Node RaveSafe.three_left 4140 4141 78 [] (Some 0%nat);
    Node RaveSafe.three_left 4141 4142 79 [] (Some 0%nat) ].

Lemma binary32_rates_coincide :
  (∃ v1 v2, (close_rates !! 1%nat) ≫= Par.win_rate = Some v1
            ∧ (close_rates !! 2%nat) ≫= Par.win_rate = Some v2
            ∧ (v1 < v2)%Qc)
  ∧ (close_rates !! 1%nat) ≫= Par.win_rate_binary32
    = (close_rates !! 2%nat) ≫= Par.win_rate_binary32
  ∧ Par.select_action 0 (Par.Search close_rates ([] : Script.engine))
    = Some 78.
Proof.
  split; [|split; by vm_compute].
  eexists _, _. split; [by vm_compute|]. split; [by vm_compute|].
  by vm_compute.
Qed.

Lemma visits_count_turns_witness :
  (∃ s root,
     Par.iterations 4 0 (Par.start RaveSafe.three_left RaveSafe.eight_turns)
     = Some s
     ∧ Par.nodes s !! 0%nat = Some root ∧ total_cnt root = 4
     ∧ ∀ id n, Par.nodes s !! id = Some n →
         0 ≤ win_cnt n ≤ total_cnt n ∧ total_cnt n ≤ 4)
  ∧ (∃ s root,
       Rave.iterations 4 0
         (Rave.start RaveSafe.three_left RaveSafe.eight_turns) = Some s
       ∧ Rave.nodes s !! 0%nat = Some root ∧ total_cnt root = 4
       ∧ ∀ id n, Rave.nodes s !! id = Some n →
           0 ≤ win_cnt n ≤ total_cnt n ∧ total_cnt n ≤ 4).
Proof.
  exact (Progress.visits_count_turns 4 RaveSafe.three_left
           RaveSafe.eight_turns).
Defined.

Lemma search_tree_links_witness :
  (∃ s, Par.iterations 4 0
          (Par.start RaveSafe.three_left RaveSafe.eight_turns) = Some s
        ∧ Structure.tree_ok (Par.nodes s))
  ∧ (∃ s, Rave.iterations 4 0
            (Rave.start RaveSafe.three_left RaveSafe.eight_turns) = Some s
          ∧ Structure.tree_ok (Rave.nodes s)).
Proof.
  exact (Progress.search_tree_links 4 RaveSafe.three_left
           RaveSafe.eight_turns).
Defined.

Lemma select_path_descends_witness :
  (∃ s more,
     Par.iterations 4 0 (Par.start RaveSafe.three_left RaveSafe.eight_turns)
     = Some s
     ∧ select_root_to_leaf Par.ucb Par.ucb_opponent (Par.nodes s) 0
         (who_take_turns RaveSafe.three_left) = Some (0%nat :: more)
     ∧ Progress.descends (Par.nodes s) 0 more)
  ∧ (∃ s more,
       Rave.iterations 4 0
         (Rave.start RaveSafe.three_left RaveSafe.eight_turns) = Some s
       ∧ select_root_to_leaf (Rave.ucb (Rave.tabs s))
           (Rave.ucb_opponent (Rave.tabs s)) (Rave.nodes s) 0
           (who_take_turns RaveSafe.three_left) = Some (0%nat :: more)
       ∧ Progress.descends (Rave.nodes s) 0 more).
Proof.
  exact (Progress.select_path_descends 4 RaveSafe.three_left
           RaveSafe.eight_turns).
Defined.

Lemma delete_tree_once_witness :
  ∃ s l,
    Par.iterations 4 0 (Par.start RaveSafe.three_left RaveSafe.eight_turns)
    = Some s
    ∧ ParTurn.delete_tree (length (Par.nodes s)) (Par.nodes s) 0 = Some l
    ∧ l ≡ₚ seq 0 (length (Par.nodes s)).
Proof.
  exact (Delete.delete_tree_once 4 RaveSafe.three_left
           RaveSafe.eight_turns).
Defined.

Lemma par_select_action_best_witness :
  ∃ s root,
    Par.iterations 4 0 (Par.start RaveSafe.three_left RaveSafe.eight_turns)
    = Some s
    ∧ Par.nodes s !! 0%nat = Some root
    ∧ (child root = [] → Par.select_action 0 s = Some (-1))
    ∧ (child root ≠ [] →
       ∃ l1 c l2 cn v,
         child root = l1 ++ c :: l2
         ∧ Par.nodes s !! c = Some cn ∧ Par.win_rate_binary32 cn = Some v
         ∧ Par.select_action 0 s = Some (place_pos cn)
         ∧ (∀ c' n' v', c' ∈ l1 → Par.nodes s !! c' = Some n' →
              Par.win_rate_binary32 n' = Some v' → (v' < v)%Qc)
         ∧ (∀ c' n' v', c' ∈ l2 → Par.nodes s !! c' = Some n' →
              Par.win_rate_binary32 n' = Some v' → (v' ≤ v)%Qc)).
Proof.
  exact (Progress.par_select_action_best 4 RaveSafe.three_left
           RaveSafe.eight_turns).
Defined.

End SearchRun.

(** ** The direction [take_action] of the 2048 player chooses *)

Module BestMove.
Import G2048.

Section Scan.
Context {board : Type} `{Board2048 board}.
Context {F : Type} `{Weight F} `{Arith F} `{!ArithLaws F}.
Variable net : Z → Z → F.

(** What the loop of [take_action] computes for direction [i]: nothing
    when [before] does not slide that way, otherwise [reward] and
    [v = reward + expectation(b)]. *)
Definition slide_value (before : board) (i : Z) : option (Z * F) :=
  let '(reward, b) := slide before i in
  if reward =? -1 then None
  else Some (reward, fadd (float_of_int reward) (expectation net b)).

(** The values the scan compares: [-FLT_MAX] and the values of the
    directions 0 to 3 that slide. *)
Definition values (before : board) : list F :=
  float_lowest :: omap (λ i, snd <$> slide_value before i) [0; 1; 2; 3].

(** [<] orders the numbers of [l] as it orders numbers: of three of them,
    the first is below the third when it is not the case that the second
    is at most the first or the third at most the second.  This holds of
    rationals, and of [float]s none of which is a NaN. *)
Definition weakly_ordered (l : list F) : Prop :=
  ∀ a b c, a ∈ l → b ∈ l → c ∈ l →
    float_lt a b = false → float_lt b c = false → float_lt a c = false.

Lemma value_at_hand (before : board) (j r : Z) (v : F) :
  0 ≤ j < 4 → slide_value before j = Some (r, v) → v ∈ values before.
Proof.
  intros Hj Hv. unfold values. apply elem_of_cons. right.
  apply list_elem_of_omap. exists j. split.
  - change [0; 1; 2; 3] with (seqZ 0 4). apply elem_of_seqZ. lia.
  - by rewrite Hv.
Qed.

(** [acc] after the directions [seen]: either nothing has been chosen and
    no value seen is above [-FLT_MAX], or [acc] holds a direction seen
    whose value is above [-FLT_MAX]; no value seen is above it, and the
    directions below it have other values, which are below it when [<]
    orders the values. *)
Definition best_so_far (before : board) (acc : choice F) (seen : list Z)
  : Prop :=
  (acc = Choice float_lowest (-2147483648) (-1)
   ∧ ∀ j r v, j ∈ seen → slide_value before j = Some (r, v) →
       float_lt float_lowest v = false)
  ∨ (op acc ∈ seen
     ∧ slide_value before (op acc) = Some (r_max acc, val_max acc)
     ∧ float_lt float_lowest (val_max acc) = true
     ∧ ∀ j r v, j ∈ seen → slide_value before j = Some (r, v) →
         float_lt (val_max acc) v = false
         ∧ (j < op acc →
            v ≠ val_max acc
            ∧ (weakly_ordered (values before) →
               float_lt v (val_max acc) = true))).

Lemma scan_step (before : board) (acc : choice F) (seen : list Z) (i : Z) :
  best_so_far before acc seen → (∀ j, j ∈ seen → 0 ≤ j < i) → i < 4 →
  best_so_far before (Choose.scan net before acc [i]) (seen ++ [i]).
Proof.
  intros Hinv Hlt Hi4. unfold Choose.scan. cbn [foldl].
  destruct (slide before i) as [reward b] eqn:Es.
  assert (Hval : slide_value before i
                 = if reward =? -1 then None
                   else Some (reward,
                              fadd (float_of_int reward) (expectation net b))).
  { unfold slide_value. by rewrite Es. }
  destruct (reward =? -1) eqn:Er.
  { destruct Hinv as [[-> Hlow]|(Hin & Hop & Hgt & Hmax)].
    - left. split; [done|]. intros j r v Hj Hv.
      apply elem_of_app in Hj as [Hj|Hj]; [by apply (Hlow j r)|].
      apply list_elem_of_singleton in Hj as ->. congruence.
    - right. split; [apply elem_of_app; by left|]. split; [done|].
      split; [done|]. intros j r v Hj Hv.
      apply elem_of_app in Hj as [Hj|Hj]; [by apply (Hmax j r)|].
      apply list_elem_of_singleton in Hj as ->. congruence. }
  set (v := fadd (float_of_int reward) (expectation net b)) in *.
  set (M := val_max acc).
  assert (HM : M ∈ values before
               ∧ (M = float_lowest ∨ float_lt float_lowest M = true)
               ∧ ∀ j r v', j ∈ seen → slide_value before j = Some (r, v') →
                   float_lt M v' = false).
  { destruct Hinv as [[-> Hlow]|(Hin & Hop & Hgt & Hmax)].
    - split; [constructor|]. split; [by left|]. done.
    - split; [|split; [by right|]].
      + apply (value_at_hand before (op acc) (r_max acc)); [|done].
        pose proof (Hlt _ Hin). lia.
      + intros j r v' Hj Hv. by apply (Hmax j r v'). }
  destruct HM as (HMin & HMlow & HMmax).
  destruct (float_lt M v) eqn:Ef.
  - right. cbn [op r_max val_max].
    split; [apply elem_of_app; right; constructor|]. split; [done|].
    split.
    { destruct HMlow as [<-|HMlow]; [done|].
      by apply (float_lt_trans float_lowest M v). }
    intros j r v' Hj Hv.
    apply elem_of_app in Hj as [Hj|Hj].
    + pose proof (HMmax j r v' Hj Hv) as Hle.
      split; [|intros _; split].
      * destruct (float_lt v v') eqn:E; [|done].
        by rewrite (float_lt_trans M v v' Ef E) in Hle.
      * intros ->. by rewrite Ef in Hle.
      * intros Hwo. destruct (float_lt v' v) eqn:E; [done|].
        rewrite (Hwo M v' v) in Ef; [done|done| | |done|done].
        -- apply (value_at_hand before j r); [|done].
           pose proof (Hlt _ Hj). lia.
        -- apply (value_at_hand before i reward); [|done].
           destruct seen as [|j0 seen'];
             [by apply elem_of_nil in Hj|].
           pose proof (Hlt j0 ltac:(constructor)). lia.
    + apply list_elem_of_singleton in Hj as ->.
      rewrite Hval in Hv. injection Hv as <- <-.
      split; [apply float_lt_irrefl|lia].
  - destruct Hinv as [[-> Hlow]|(Hin & Hop & Hgt & Hmax)].
    + left. split; [done|]. intros j r v' Hj Hv.
      apply elem_of_app in Hj as [Hj|Hj]; [by apply (Hlow j r)|].
      apply list_elem_of_singleton in Hj as ->.
      rewrite Hval in Hv. by injection Hv as <- <-.
    + right. split; [apply elem_of_app; by left|]. split; [done|].
      split; [done|]. intros j r v' Hj Hv.
      apply elem_of_app in Hj as [Hj|Hj]; [by apply (Hmax j r)|].
      apply list_elem_of_singleton in Hj as ->.
      rewrite Hval in Hv. injection Hv as <- <-.
      split; [done|]. intros Hbelow. pose proof (Hlt _ Hin). lia.
Qed.

(** The directions are scanned in increasing order. *)
Fixpoint increasing (ds : list Z) : Prop :=
  match ds with
  | [] => True
  | i :: ds' => Forall (λ k, i < k) ds' ∧ increasing ds'
  end.

Lemma scan_inv (before : board) (ds : list Z) :
  ∀ (acc : choice F) (seen : list Z),
    best_so_far before acc seen →
    increasing ds → (∀ j i, j ∈ seen → i ∈ ds → j < i) →
    (∀ j, j ∈ seen ++ ds → 0 ≤ j < 4) →
    best_so_far before (Choose.scan net before acc ds) (seen ++ ds).
Proof.
  induction ds as [|i ds IH]; intros acc seen Hinv Hsort Hlt Hrange.
  - by rewrite app_nil_r.
  - destruct Hsort as [Hi Hsort].
    change (Choose.scan net before acc (i :: ds))
      with (Choose.scan net before (Choose.scan net before acc [i]) ds).
    replace (seen ++ i :: ds) with ((seen ++ [i]) ++ ds) in *
      by (by rewrite <- app_assoc).
    apply IH; [|done| |done].
    + apply scan_step; [done| |].
      * intros j Hj. split.
        -- apply Hrange. apply elem_of_app. left. apply elem_of_app.
           by left.
        -- apply Hlt; [done|constructor].
      * apply Hrange. apply elem_of_app. left. apply elem_of_app. right.
        constructor.
    + intros j k Hj Hk. apply elem_of_app in Hj as [Hj|Hj].
      * apply Hlt; [done|by constructor].
      * apply list_elem_of_singleton in Hj as ->.
        by apply (proj1 (Forall_forall _ _) Hi).
Qed.

(** X5: [take_action] looks at the directions 0 to 3 that slide, each
    worth the [float] [reward + expectation].  When none is worth more
    than [-FLT_MAX] it leaves [op] at -1, [vs] at [-FLT_MAX] and [r] at
    -2147483648.  Otherwise [op] is a direction that slides, [r] and [vs]
    are its reward and value, no direction is worth more, and no direction
    below [op] has the same value; the directions below [op] are worth
    less when [<] orders the values compared (as it does unless one of
    them is a NaN).  This holds in every arithmetic whose [<] is
    irreflexive and transitive: without rounding, and in [float]. *)
Theorem take_action_first_max (before : board) :
  let c := take_action net before in
  (c = Choice float_lowest (-2147483648) (-1)
   ∧ ∀ j r v, 0 ≤ j < 4 → slide_value before j = Some (r, v) →
       float_lt float_lowest v = false)
  ∨ (0 ≤ op c < 4
     ∧ slide_value before (op c) = Some (r_max c, val_max c)
     ∧ float_lt float_lowest (val_max c) = true
     ∧ ∀ j r v, 0 ≤ j < 4 → slide_value before j = Some (r, v) →
         float_lt (val_max c) v = false
         ∧ (j < op c →
            v ≠ val_max c
            ∧ (weakly_ordered (values before) →
               float_lt v (val_max c) = true))).
Proof.
  cbv zeta. rewrite Choose.take_action_scan.
  assert (Hds : ∀ j, j ∈ [0; 1; 2; 3] ↔ 0 ≤ j < 4).
  { intros j. change [0; 1; 2; 3] with (seqZ 0 4). rewrite elem_of_seqZ.
    lia. }
  destruct (scan_inv before [0; 1; 2; 3]
              (Choice float_lowest (-2147483648) (-1)) [])
    as [[Hc Hlow]|(Hin & Hop & Hgt & Hmax)].
  - left. split; [done|]. intros j r v Hj. by apply elem_of_nil in Hj.
  - cbn. repeat split; repeat constructor; lia.
  - intros j i Hj. by apply elem_of_nil in Hj.
  - intros j Hj. by apply Hds.
  - left. split; [done|]. intros j r v Hj. apply Hlow. by apply Hds.
  - right. split; [by apply Hds|]. split; [done|]. split; [done|].
    intros j r v Hj. apply Hmax. by apply Hds.
Qed.

End Scan.

(** [<] orders the rationals, and the [float]s other than NaN. *)
Lemma Qc_weakly_ordered (l : list Qc) : weakly_ordered l.
Proof.
  intros a b c _ _ _ Hab Hbc. simpl in *.
  apply Scores.flt_ge in Hab, Hbc.
  destruct (Num.flt a c) eqn:E; [|done].
  apply Expectimax.flt_lt in E.
  destruct (Qclt_not_le _ _ E). by apply (Qcle_trans _ b).
Qed.

Lemma float_weakly_ordered (l : list SpecFloat.spec_float) :
  Forall (λ x, x ≠ SpecFloat.S754_nan) l → weakly_ordered l.
Proof.
  intros Hl a b c Ha Hb Hc.
  pose proof (proj1 (Forall_forall _ _) Hl a Ha) as Hna.
  pose proof (proj1 (Forall_forall _ _) Hl b Hb) as Hnb.
  pose proof (proj1 (Forall_forall _ _) Hl c Hc) as Hnc.
  clear Hl Ha Hb Hc. simpl.
  unfold SpecFloat.SFltb, SpecFloat.SFcompare.
  destruct a as [[]|[]| |[] ma ea], b as [[]|[]| |[] mb eb],
    c as [[]|[]| |[] mc ec]; try done.
  - change (Pos.compare_cont Eq mb ma) with (mb ?= ma)%positive.
    change (Pos.compare_cont Eq mc mb) with (mc ?= mb)%positive.
    change (Pos.compare_cont Eq mc ma) with (mc ?= ma)%positive.
    change (Pos.compare_cont Eq ma mb) with (ma ?= mb)%positive.
    change (Pos.compare_cont Eq mb mc) with (mb ?= mc)%positive.
    change (Pos.compare_cont Eq ma mc) with (ma ?= mc)%positive.
    destruct (Z.compare_spec ea eb), (Z.compare_spec eb ec),
      (Z.compare_spec ea ec); try done; try lia;
      destruct (Pos.compare_spec ma mb), (Pos.compare_spec mb mc),
        (Pos.compare_spec ma mc); simpl; try done; lia.
  - change (Pos.compare_cont Eq ma mb) with (ma ?= mb)%positive.
    change (Pos.compare_cont Eq mb mc) with (mb ?= mc)%positive.
    change (Pos.compare_cont Eq ma mc) with (ma ?= mc)%positive.
    destruct (Z.compare_spec ea eb), (Z.compare_spec eb ec),
      (Z.compare_spec ea ec); try done; try lia;
      destruct (Pos.compare_spec ma mb), (Pos.compare_spec mb mc),
        (Pos.compare_spec ma mc); simpl; try done; lia.
Qed.

Lemma take_action_first_max_witness :
  let c := take_action Expectimax.float_net D4.sample_board in
  (c = Choice float_lowest (-2147483648) (-1)
   ∧ ∀ j r v, 0 ≤ j < 4 →
       slide_value Expectimax.float_net D4.sample_board j = Some (r, v) →
       float_lt float_lowest v = false)
  ∨ (0 ≤ op c < 4
     ∧ slide_value Expectimax.float_net D4.sample_board (op c)
       = Some (r_max c, val_max c)
     ∧ float_lt float_lowest (val_max c) = true
     ∧ ∀ j r v, 0 ≤ j < 4 →
         slide_value Expectimax.float_net D4.sample_board j = Some (r, v) →
         float_lt (val_max c) v = false
         ∧ (j < op c →
            v ≠ val_max c
            ∧ (weakly_ordered (values Expectimax.float_net D4.sample_board) →
               float_lt v (val_max c) = true))).
Proof.
  exact (take_action_first_max Expectimax.float_net D4.sample_board).
Defined.

End BestMove.

(** ** The index of a 6-tuple and the tables [estimate_value] reads *)

Module Feature.
Import G2048.

Section Index.
Context {board : Type} `{Board2048 board}.

Lemma extract_feature6_range (after : board) (a b c d e f : Z) :
  (∀ pos, pos ∈ [a; b; c; d; e; f] → 0 ≤ cell after pos < 16) →
  0 ≤ extract_feature6 after a b c d e f < 16 ^ 6.
Proof.
  intros Hc. unfold extract_feature6.
  pose proof (Hc a ltac:(repeat constructor)).
  pose proof (Hc b ltac:(repeat constructor)).
  pose proof (Hc c ltac:(repeat constructor)).
  pose proof (Hc d ltac:(repeat constructor)).
  pose proof (Hc e ltac:(repeat constructor)).
  pose proof (Hc f ltac:(repeat constructor)).
  lia.
Qed.

(** X6: when the six cells hold tiles below 16, [extract_feature6] is
    their number in base 16: it lies in [0, 16^6), the range of a table
    of [init_weights], and each cell is read back from it as a digit. *)
Theorem extract_feature6_digits (after : board) (a b c d e f : Z) :
  (∀ pos, pos ∈ [a; b; c; d; e; f] → 0 ≤ cell after pos < 16) →
  let idx := extract_feature6 after a b c d e f in
  0 ≤ idx < 16 ^ 6
  ∧ idx / 16 ^ 5 = cell after a
  ∧ (idx / 16 ^ 4) mod 16 = cell after b
  ∧ (idx / 16 ^ 3) mod 16 = cell after c
  ∧ (idx / 16 ^ 2) mod 16 = cell after d
  ∧ (idx / 16) mod 16 = cell after e
  ∧ idx mod 16 = cell after f.
Proof.
  intros Hc idx.
  pose proof (extract_feature6_range after a b c d e f Hc) as Hr.
  split; [exact Hr|]. unfold idx, extract_feature6 in *.
  pose proof (Hc a ltac:(repeat constructor)).
  pose proof (Hc b ltac:(repeat constructor)).
  pose proof (Hc c ltac:(repeat constructor)).
  pose proof (Hc d ltac:(repeat constructor)).
  pose proof (Hc e ltac:(repeat constructor)).
  pose proof (Hc f ltac:(repeat constructor)).
  generalize dependent (cell after a). generalize dependent (cell after b).
  generalize dependent (cell after c). generalize dependent (cell after d).
  generalize dependent (cell after e). generalize dependent (cell after f).
  intros x6 ? x5 ? x4 ? x3 ? x2 ? x1 ? ?.
  change (16 ^ 5) with 1048576. change (16 ^ 4) with 65536.
  change (16 ^ 3) with 4096. change (16 ^ 2) with 256.
  repeat split; Z.div_mod_to_equations; lia.
Qed.

End Index.

Section Tables.
Context {board : Type} `{Board2048Laws board}.
Context {F : Type} `{Weight F}.

Lemma tuple_sum_in_range (net net' : Z → Z → F) (b : board) :
  (∀ pos, 0 ≤ pos < 16 → 0 ≤ cell b pos < 16) →
  (∀ t idx, 0 ≤ t < 4 → 0 ≤ idx < 16 ^ 6 → net t idx = net' t idx) →
  tuple_sum net b = tuple_sum net' b.
Proof.
  intros Hc Heq. unfold tuple_sum.
  assert (Hr : ∀ a b0 c d e f,
            Forall (λ pos, 0 ≤ pos < 16) [a; b0; c; d; e; f] →
            0 ≤ extract_feature6 b a b0 c d e f < 16 ^ 6).
  { intros a b0 c d e f Hall. apply extract_feature6_range.
    intros pos Hpos. apply Hc.
    by apply (proj1 (Forall_forall _ _) Hall). }
  rewrite !Heq; [done|lia|apply Hr|lia|apply Hr|lia|apply Hr|lia|apply Hr];
    repeat constructor; lia.
Qed.

(** X7: on a board whose tiles are all below 16, [estimate_value] reads
    only the entries 0 to [16^6 - 1] of the tables 0 to 3: two
    networks that agree there give the same estimate. *)
Theorem estimate_value_in_range (net net' : Z → Z → F) (after : board) :
  (∀ pos, 0 ≤ pos < 16 → 0 ≤ cell after pos < 16) →
  (∀ t idx, 0 ≤ t < 4 → 0 ≤ idx < 16 ^ 6 → net t idx = net' t idx) →
  estimate_value net after = estimate_value net' after.
Proof.
  intros Hc Heq. rewrite !D4.estimate_value_views. f_equal.
  unfold D4.view_sums. apply list_fmap_ext. intros _ w _.
  apply tuple_sum_in_range; [|done].
  intros pos Hpos. rewrite D4.act_cell by done.
  apply Hc. by apply D4.src_range.
Qed.

End Tables.

(** A network that agrees with [D4.sample_net] inside the tables and is
    zero outside. *)
Definition clipped_net : Z → Z → Qc := λ t idx,
  if (0 <=? idx) && (idx <? 16 ^ 6) then D4.sample_net t idx else 0%Qc.

Lemma sample_board_cells (pos : Z) :
  0 ≤ pos < 16 → 0 ≤ cell D4.sample_board pos < 16.
Proof.
  intros Hpos.
  assert (Hin : pos ∈ seqZ 0 16) by (apply elem_of_seqZ; lia).
  revert Hin. generalize pos. apply Forall_forall.
  set (l := seqZ 0 16). vm_compute in l. subst l.
  repeat (apply Forall_cons_2; [by vm_compute|]). apply Forall_nil_2.
Qed.

Lemma extract_feature6_digits_witness :
  extract_feature6 D4.sample_board 4 5 6 8 9 10 = 3294226
  ∧ 3294226 / 16 ^ 5 = cell D4.sample_board 4
  ∧ (3294226 / 16) mod 16 = cell D4.sample_board 9.
Proof.
  destruct (extract_feature6_digits D4.sample_board 4 5 6 8 9 10)
    as (_ & Ha & _ & _ & _ & He & _).
  { intros pos Hpos. apply sample_board_cells.
    repeat (apply elem_of_cons in Hpos as [->|Hpos]; [lia|]).
    by apply elem_of_nil in Hpos. }
  split; [reflexivity|]. split; [exact Ha|exact He].
Defined.

Lemma estimate_value_in_range_witness :
  estimate_value D4.sample_net D4.sample_board
  = estimate_value clipped_net D4.sample_board.
Proof.
  apply (estimate_value_in_range D4.sample_net clipped_net D4.sample_board).
  - apply sample_board_cells.
  - intros t idx _ Hidx. unfold clipped_net.
    rewrite (proj2 (Z.leb_le 0 idx)), (proj2 (Z.ltb_lt idx (16 ^ 6))) by lia.
    done.
Defined.

End Feature.

(** ** Where the playout of [simulate_winner] stops *)

Module PlayoutEnd.
Import NoGo.

Section Lemmas.
Context {board : Type} `{NoGoBoard board}.
Context {engine : Type} `{Engine engine}.

(** The board after the placements [played], made in order, when the
    board accepts each of them. *)
Definition place_all (b : board) (played : list Z) : option board :=
  foldl (λ ob i, b ← ob; place b i) (Some b) played.

Lemma place_all_cons (b b1 : board) (i : Z) (played : list Z) :
  place b i = Some b1 → place_all b (i :: played) = place_all b1 played.
Proof.
  intros Hp. unfold place_all. cbn [foldl mbind option_bind]. by rewrite Hp.
Qed.

(** The loop keeps at the back of the queue the [cnt] positions refused
    since the last placement; when it stops they are the whole queue. *)
Lemma playout_ends (fuel : nat) :
  ∀ (b b' : board) (q q1 q2 : list Z) (cnt : nat),
    q = q1 ++ q2 → length q2 = cnt →
    (∀ i, i ∈ q2 → place b i = None) →
    playout fuel b q cnt = Some b' →
    ∃ played rest,
      q ≡ₚ played ++ rest ∧ place_all b played = Some b'
      ∧ ∀ i, i ∈ rest → place b' i = None.
Proof.
  induction fuel as [|fuel IH]; intros b b' q q1 q2 cnt Hq Hlen Hnone;
    cbn [playout]; case_decide as Hcnt.
  - intros [= <-]. exists [], q. split; [done|]. split; [done|].
    assert (q1 = []) as ->.
    { apply nil_length_inv. rewrite Hq, length_app in Hcnt. lia. }
    by rewrite Hq.
  - done.
  - intros [= <-]. exists [], q. split; [done|]. split; [done|].
    assert (q1 = []) as ->.
    { apply nil_length_inv. rewrite Hq, length_app in Hcnt. lia. }
    by rewrite Hq.
  - destruct q as [|i q']; [done|].
    destruct q1 as [|i1 q1'].
    { simpl in Hq. rewrite Hq in Hcnt. done. }
    simpl in Hq. injection Hq as <- ->.
    destruct (place b i) as [b1|] eqn:Hp.
    + intros Hrest.
      destruct (IH b1 b' (q1' ++ q2) (q1' ++ q2) [] 0%nat) as
        (played & rest & Hperm & Hall & Hrefuse);
        [by rewrite app_nil_r|done| |done|].
      { intros j Hj. by apply elem_of_nil in Hj. }
      exists (i :: played), rest. split; [by rewrite Hperm|].
      split; [by rewrite (place_all_cons b b1)|done].
    + intros Hrest.
      destruct (IH b b' ((q1' ++ q2) ++ [i]) q1' (q2 ++ [i]) (S cnt)) as
        (played & rest & Hperm & Hall & Hrefuse);
        [by rewrite <- app_assoc|rewrite length_app; simpl; lia| |done|].
      { intros j Hj. apply elem_of_app in Hj as [Hj|Hj]; [by apply Hnone|].
        by apply list_elem_of_singleton in Hj as ->. }
      exists played, rest. split; [|done].
      rewrite <- Hperm. apply Permutation_cons_append.
Qed.

(** X8: [simulate_winner] returns.  Its playout places, each time on a
    board that accepts it, positions [played] that are pairwise different,
    and stops at a board that refuses every other position of the 81; the
    winner is black when white is to move on that board, and white
    otherwise. *)
Theorem simulate_winner_plays (n : node board) (e : engine) :
  ∃ played rest b',
    played ++ rest ≡ₚ seqZ 0 81
    ∧ place_all (nboard n) played = Some b'
    ∧ (∀ i, i ∈ rest → place b' i = None)
    ∧ simulate_winner n e
      = Some (if decide (who_take_turns b' = white) then black else white,
              (all_space e).2).
Proof.
  unfold simulate_winner.
  pose proof (shuffle_perm e (seqZ 0 81)) as Hperm.
  change (shuffle e (seqZ 0 81)) with (all_space e) in Hperm.
  destruct (all_space e) as [vec e'] eqn:E. simpl in Hperm.
  destruct (Playout.playout_total (playout_fuel (length vec)) (nboard n)
              vec 0) as [b' Hb]; [lia|unfold playout_fuel; lia|].
  destruct (playout_ends (playout_fuel (length vec)) (nboard n) b' vec vec
              [] 0%nat)
    as (played & rest & Hq & Hall & Hrefuse);
    [by rewrite app_nil_r|done| |done|].
  { intros j Hj. by apply elem_of_nil in Hj. }
  exists played, rest, b'. split; [by rewrite <- Hq|].
  split; [done|]. split; [done|]. by rewrite Hb.
Qed.

End Lemmas.
End PlayoutEnd.

(** ** The random environment and the dummy player *)

Module Moves2048.
Import Agents.

Section Lemmas.
Context {board : Type} `{Board2048 board}.
Context {engine : Type} `{Engine engine} `{Popup engine}.

Lemma first_empty_Some (after : board) (space : list Z) (pos : Z) :
  first_empty after space = Some pos → pos ∈ space ∧ cell after pos = 0.
Proof.
  induction space as [|p space IH]; simpl; [done|].
  destruct (Z.eqb_spec (cell after p) 0) as [E|E]; simpl.
  - intros [= <-]. split; [constructor|done].
  - intros Hf. destruct (IH Hf) as [Hin Hc]. split; [by constructor|done].
Qed.

Lemma first_empty_None (after : board) (space : list Z) :
  first_empty after space = None → ∀ pos, pos ∈ space → cell after pos ≠ 0.
Proof.
  induction space as [|p space IH]; simpl; intros Hf pos Hpos.
  - by apply elem_of_nil in Hpos.
  - destruct (Z.eqb_spec (cell after p) 0) as [E|E]; simpl in Hf; [done|].
    apply elem_of_cons in Hpos as [->|Hpos]; [done|]. by apply IH.
Qed.

Lemma first_slide_Some (before : board) (opcode : list Z) (op : Z) :
  first_slide before opcode = Some op →
  op ∈ opcode ∧ (slide before op).1 ≠ -1.
Proof.
  induction opcode as [|p opcode IH]; simpl; [done|].
  destruct (Z.eqb_spec (slide before p).1 (-1)) as [E|E]; simpl.
  - intros Hf. destruct (IH Hf) as [Hin Hc]. split; [by constructor|done].
  - intros [= <-]. split; [constructor|done].
Qed.

Lemma first_slide_None (before : board) (opcode : list Z) :
  first_slide before opcode = None →
  ∀ op, op ∈ opcode → (slide before op).1 = -1.
Proof.
  induction opcode as [|p opcode IH]; simpl; intros Hf op Hop.
  - by apply elem_of_nil in Hop.
  - destruct (Z.eqb_spec (slide before p).1 (-1)) as [E|E]; simpl in Hf;
      [|done].
    apply elem_of_cons in Hop as [->|Hop]; [done|]. by apply IH.
Qed.

(** X9: as long as [space] holds the sixteen positions, which it does
    from the start and after every call, [rndenv::take_action] returns
    the null action exactly when no cell of the board is empty, and
    otherwise places a tile 1 or 2 on an empty cell. *)
Theorem rndenv_take_action_empty (env : @agent_state engine) (after : board) :
  array env ≡ₚ seqZ 0 16 →
  let '(a, env') := rndenv_take_action env after in
  array env' ≡ₚ seqZ 0 16
  ∧ (a = action_null ↔ ∀ pos, 0 ≤ pos < 16 → cell after pos ≠ 0)
  ∧ (∀ pos tile, a = action_place pos tile →
       0 ≤ pos < 16 ∧ cell after pos = 0 ∧ (tile = 1 ∨ tile = 2))
  ∧ (∀ op, a ≠ action_slide op).
Proof.
  intros Hperm. unfold rndenv_take_action.
  pose proof (shuffle_perm (eng env) (array env)) as Hsh.
  destruct (shuffle (eng env) (array env)) as [space e]. simpl in Hsh.
  assert (Hspace : space ≡ₚ seqZ 0 16) by (by rewrite Hsh).
  assert (Hin : ∀ pos, pos ∈ space ↔ 0 ≤ pos < 16).
  { intros pos. rewrite Hspace, elem_of_seqZ. lia. }
  destruct (first_empty after space) as [pos|] eqn:Ef.
  - destruct (popup e) as [x e2].
    apply first_empty_Some in Ef as [Hpos Hc]. apply Hin in Hpos.
    split; [done|]. split; [|split; [|done]].
    + split; [done|]. intros Hfull. by destruct (Hfull pos Hpos).
    + intros pos' tile [= <- <-]. split; [done|]. split; [done|].
      destruct (negb (x =? 0)); auto.
  - split; [done|]. split; [|done]. split; [|done].
    intros _ pos Hpos. apply (first_empty_None after space Ef).
    by apply Hin.
Qed.

(** X10: as long as [opcode] holds the four directions,
    [dummy_player::take_action] returns the null action exactly when the
    board slides in no direction, and otherwise a slide in a direction in
    which the board slides. *)
Theorem dummy_take_action_slides (pl : @agent_state engine) (before : board) :
  array pl ≡ₚ seqZ 0 4 →
  let '(a, pl') := dummy_take_action pl before in
  array pl' ≡ₚ seqZ 0 4
  ∧ (a = action_null ↔ ∀ op, 0 ≤ op < 4 → (slide before op).1 = -1)
  ∧ (∀ op, a = action_slide op → 0 ≤ op < 4 ∧ (slide before op).1 ≠ -1)
  ∧ (∀ pos tile, a ≠ action_place pos tile).
Proof.
  intros Hperm. unfold dummy_take_action.
  pose proof (shuffle_perm (eng pl) (array pl)) as Hsh.
  destruct (shuffle (eng pl) (array pl)) as [opcode e]. simpl in Hsh.
  assert (Hopcode : opcode ≡ₚ seqZ 0 4) by (by rewrite Hsh).
  assert (Hin : ∀ op, op ∈ opcode ↔ 0 ≤ op < 4).
  { intros op. rewrite Hopcode, elem_of_seqZ. lia. }
  destruct (first_slide before opcode) as [op|] eqn:Ef.
  - apply first_slide_Some in Ef as [Hop Hs]. apply Hin in Hop.
    split; [done|]. split; [|split; [|done]].
    + split; [done|]. intros Hnone. by destruct (Hs (Hnone op Hop)).
    + by intros op' [= <-].
  - split; [done|]. split; [|done]. split; [|done].
    intros _ op Hop. apply (first_slide_None before opcode Ef).
    by apply Hin.
Qed.

End Lemmas.

(** A scripted engine draws the numbers of its script. *)
#[local] Instance script_popup : Popup Script.engine :=
  {| popup := λ e, match e with
                   | [] => (0, [])
                   | k :: e' => (Z.of_nat k `mod` 10, e')
                   end |}.

Lemma rndenv_take_action_empty_witness :
  (rndenv_take_action (rndenv_start [3; 7]%nat) D4.sample_board).1
  = action_place 0 1
  ∧ cell D4.sample_board 0 = 0.
Proof.
  pose proof (rndenv_take_action_empty (rndenv_start [3; 7]%nat)
                D4.sample_board (reflexivity _)) as Hw.
  destruct (rndenv_take_action (rndenv_start [3; 7]%nat) D4.sample_board)
    as [a env'] eqn:E.
  destruct Hw as (_ & _ & Hplace & _).
  assert (Ea : a = action_place 0 1).
  { apply (f_equal fst) in E. simpl in E. rewrite <- E. by vm_compute. }
  destruct (Hplace 0 1 Ea) as (_ & Hc & _).
  exact (conj Ea Hc).
Defined.

Lemma dummy_take_action_slides_witness :
  (dummy_take_action (dummy_start [1]%nat) D4.sample_board).1
  = action_slide 3
  ∧ (slide D4.sample_board 3).1 ≠ -1.
Proof.
  pose proof (dummy_take_action_slides (dummy_start [1]%nat)
                D4.sample_board (reflexivity _)) as Hw.
  destruct (dummy_take_action (dummy_start [1]%nat) D4.sample_board)
    as [a pl'] eqn:E.
  destruct Hw as (_ & _ & Hslide & _).
  assert (Ea : a = action_slide 3).
  { apply (f_equal fst) in E. simpl in E. rewrite <- E. by vm_compute. }
  destruct (Hslide 3 Ea) as (_ & Hs).
  exact (conj Ea Hs).
Defined.

End Moves2048.

(** ** [adjust_value]: the update of the weight tables *)

Module Learn.
Import G2048 Adjust.

Section Lemmas.
Context {board : Type} `{Board2048 board}.

(** The four indices that a loop body reads on [b]. *)
Definition lookups (b : board) : list Z :=
  [extract_feature6 b 0 1 2 3 4 5; extract_feature6 b 4 5 6 7 8 9;
   extract_feature6 b 0 1 2 4 5 6; extract_feature6 b 4 5 6 8 9 10].

(** [b] and [b'] read different entries in each of the four tables. *)
Definition apart (b b' : board) : Prop :=
  Forall2 (λ i i', i ≠ i') (lookups b) (lookups b').

(** No two boards of [vs] read the same entry of a table. *)
Fixpoint all_apart (vs : list board) : Prop :=
  match vs with
  | [] => True
  | b :: vs' => Forall (apart b) vs' ∧ all_apart vs'
  end.

(** The loops of [adjust_value] over the boards they visit. *)
Definition adjust_views (net : Z → Z → Qc) (sum : Qc) (vs : list board)
  (u_split : Qc) : (Z → Z → Qc) * Qc :=
  foldl (λ acc b,
           let '(net, s) := adjust_tuple acc.1 b u_split in
           (net, (acc.2 + s)%Qc))
        (net, sum) vs.

Definition views (after : board) : list board :=
  (λ w, D4.act w after) <$> D4.view_words.

Lemma adjust_value_views (net : Z → Z → Qc) (after : board) (target : Qc) :
  adjust_value net after target
  = adjust_views net 0%Qc (views after) (target / Num.of_int 32)%Qc.
Proof. reflexivity. Qed.

Lemma estimate_value_tuple_sums (net : Z → Z → Qc) (after : board) :
  estimate_value net after
  = foldl Qcplus 0%Qc (tuple_sum net <$> views after).
Proof. reflexivity. Qed.

Lemma apart_sym (b b' : board) : apart b b' → apart b' b.
Proof.
  unfold apart. intros Hf. apply Forall2_flip.
  eapply Forall2_impl; [exact Hf|]. intros i i' Hi E. by apply Hi.
Qed.

Lemma apart_inv (b b' : board) :
  apart b b' →
  extract_feature6 b 0 1 2 3 4 5 ≠ extract_feature6 b' 0 1 2 3 4 5
  ∧ extract_feature6 b 4 5 6 7 8 9 ≠ extract_feature6 b' 4 5 6 7 8 9
  ∧ extract_feature6 b 0 1 2 4 5 6 ≠ extract_feature6 b' 0 1 2 4 5 6
  ∧ extract_feature6 b 4 5 6 8 9 10 ≠ extract_feature6 b' 4 5 6 8 9 10.
Proof.
  unfold apart, lookups. intros Hf.
  apply Forall2_cons in Hf as [H0 Hf]. apply Forall2_cons in Hf as [H1 Hf].
  apply Forall2_cons in Hf as [H2 Hf]. apply Forall2_cons in Hf as [H3 _].
  done.
Qed.

Lemma of_int_4 : Num.of_int 4 = (1 + 1 + 1 + 1)%Qc.
Proof.
  unfold Num.of_int. change 4 with (1 + 1 + 1 + 1).
  by rewrite !Z2Qc_inj_add, Z2Qc_inj_1.
Qed.

Lemma add_weight_same (net : Z → Z → Qc) (t idx : Z) (u : Qc) :
  add_weight net t idx u t idx = (net t idx + u)%Qc.
Proof. unfold add_weight. by rewrite decide_True. Qed.

Lemma add_weight_other (net : Z → Z → Qc) (t idx : Z) (u : Qc)
  (t' idx' : Z) :
  t' ≠ t ∨ idx' ≠ idx → add_weight net t idx u t' idx' = net t' idx'.
Proof.
  intros Hne. unfold add_weight. rewrite decide_False; [done|].
  intros [-> ->]. by destruct Hne.
Qed.

(** A loop body on [b] adds [u] to the four entries that [b] reads, and
    its term is their sum afterwards; the entries that a board apart from
    [b] reads stay as they are. *)
Lemma adjust_tuple_spec (net : Z → Z → Qc) (b : board) (u : Qc) :
  let '(net1, s) := adjust_tuple net b u in
  s = (tuple_sum net b + Num.of_int 4 * u)%Qc
  ∧ tuple_sum net1 b = s
  ∧ ∀ b', apart b b' → tuple_sum net1 b' = tuple_sum net b'.
Proof.
  unfold adjust_tuple, tuple_sum. cbn [fadd Qc_weight]. cbv zeta.
  split; [|split].
  - repeat first [rewrite add_weight_same
                 |rewrite add_weight_other by (left; lia)].
    rewrite of_int_4. ring.
  - done.
  - intros b' Hb'. destruct (apart_inv b b' Hb') as (H0 & H1 & H2 & H3).
    repeat first [rewrite add_weight_other by (left; lia)
                 |rewrite add_weight_other by (right; congruence)].
    done.
Qed.

Lemma foldl_Qcplus_acc (a : Qc) (l : list Qc) :
  foldl Qcplus a l = (a + foldl Qcplus 0 l)%Qc.
Proof.
  revert a. induction l as [|x l IH]; intros a; cbn [foldl].
  - ring.
  - rewrite (IH (a + x)%Qc), (IH (0 + x)%Qc). ring.
Qed.

Lemma foldl_Qcplus_shift {A} (g : A → Qc) (c : Qc) (l : list A) (a : Qc) :
  foldl Qcplus a ((λ v, g v + c)%Qc <$> l)
  = (foldl Qcplus a (g <$> l) + Num.of_int (Z.of_nat (length l)) * c)%Qc.
Proof.
  revert a. induction l as [|x l IH]; intros a.
  - rewrite !fmap_nil. cbn [foldl length]. unfold Num.of_int.
    change (Z.of_nat 0) with 0. rewrite Z2Qc_inj_0. ring.
  - rewrite !fmap_cons. cbn [foldl length]. rewrite IH.
    rewrite (foldl_Qcplus_acc (a + (g x + c))),
      (foldl_Qcplus_acc (a + g x)).
    rewrite Nat2Z.inj_succ. unfold Num.of_int, Z.succ.
    rewrite Z2Qc_inj_add, Z2Qc_inj_1. ring.
Qed.

(** The loops over boards that are apart: every term is the sum that
    [estimate_value] read on that board plus [4 * u], and afterwards each
    board reads that much more than before. *)
Lemma adjust_views_spec (u : Qc) (vs : list board) :
  all_apart vs →
  ∀ (net : Z → Z → Qc) (sum : Qc),
    let '(net', sum') := adjust_views net sum vs u in
    sum' = foldl Qcplus sum
             ((λ v, tuple_sum net v + Num.of_int 4 * u)%Qc <$> vs)
    ∧ (∀ v, v ∈ vs →
         tuple_sum net' v = (tuple_sum net v + Num.of_int 4 * u)%Qc)
    ∧ (∀ b', Forall (λ v, apart v b') vs →
         tuple_sum net' b' = tuple_sum net b').
Proof.
  induction vs as [|b vs IH]; intros Hap net sum.
  - cbn. split; [done|]. split; [|done].
    intros v Hv. by apply elem_of_nil in Hv.
  - destruct Hap as [Hb Hap]. unfold adjust_views. cbn [foldl fst snd].
    pose proof (adjust_tuple_spec net b u) as Hspec.
    destruct (adjust_tuple net b u) as [net1 s].
    destruct Hspec as (Hs & Hself & Hframe).
    specialize (IH Hap net1 (sum + s)%Qc). unfold adjust_views in IH.
    destruct (foldl _ (net1, (sum + s)%Qc) vs) as [net' sum'].
    destruct IH as (Hsum & Hvs & Hfr).
    assert (Hsame : ∀ v, v ∈ vs → tuple_sum net1 v = tuple_sum net v).
    { intros v Hv. apply Hframe.
      by apply (proj1 (Forall_forall _ _) Hb). }
    split; [|split].
    + rewrite Hsum, fmap_cons. cbn [foldl]. rewrite Hs. f_equal.
      apply list_fmap_ext. intros i v Hv. cbv beta.
      rewrite Hsame; [done|]. by apply list_elem_of_lookup_2 in Hv.
    + intros v Hv. apply elem_of_cons in Hv as [->|Hv].
      * rewrite Hfr; [by rewrite Hself|].
        eapply Forall_impl; [exact Hb|]. intros v Hv. by apply apart_sym.
      * by rewrite Hvs, Hsame.
    + intros b' Hb'. apply Forall_cons in Hb' as [Hbb' Hb'].
      rewrite Hfr by done. by apply Hframe.
Qed.

(** X13: when no two of the eight boards that [adjust_value] visits read
    the same entry of a table, the tables after [adjust_value(after,
    target)] give an estimate of [after] that is the old estimate plus
    [target], and that estimate is the sum returned. *)
Theorem adjust_value_moves_estimate (net : Z → Z → Qc) (after : board)
  (target : Qc) :
  all_apart (views after) →
  let '(net', sum) := adjust_value net after target in
  sum = (estimate_value net after + target)%Qc
  ∧ estimate_value net' after = (estimate_value net after + target)%Qc.
Proof.
  intros Hap. rewrite adjust_value_views.
  pose proof (adjust_views_spec (target / Num.of_int 32)%Qc (views after)
                Hap net 0%Qc) as Hspec.
  destruct (adjust_views net 0 (views after) (target / Num.of_int 32))
    as [net' sum].
  destruct Hspec as (Hsum & Hvs & _).
  assert (Hshift : sum = (estimate_value net after + target)%Qc).
  { rewrite Hsum, foldl_Qcplus_shift, <- estimate_value_tuple_sums.
    f_equal. unfold views. rewrite length_fmap.
    change (Z.of_nat (length D4.view_words)) with 8.
    assert (H32 : Num.of_int 32 = (Num.of_int 8 * Num.of_int 4)%Qc).
    { unfold Num.of_int. by rewrite <- Z2Qc_inj_mul. }
    rewrite H32. field. split; by apply WinRate.of_int_ne_0. }
  split; [done|].
  rewrite (estimate_value_tuple_sums net').
  replace (tuple_sum net' <$> views after)
    with ((λ v, tuple_sum net v + Num.of_int 4 * (target / Num.of_int 32))%Qc
            <$> views after).
  - by rewrite <- Hsum.
  - apply list_fmap_ext. intros i v Hv. cbv beta. symmetry. apply Hvs.
    by apply list_elem_of_lookup_2 in Hv.
Qed.

End Lemmas.

(** On the board 0, 1, ..., 15 the eight boards are apart. *)
Lemma rounding_board_apart : all_apart (views D4.rounding_board).
Proof.
  set (vs := views D4.rounding_board). vm_compute in vs. subst vs.
  cbn [all_apart].
  repeat split; repeat (apply Forall_cons_2 || apply Forall_nil_2);
    unfold apart; vm_compute;
    repeat (apply List.Forall2_cons || apply List.Forall2_nil);
    discriminate.
Qed.

Lemma adjust_value_moves_estimate_witness :
  (adjust_value D4.sample_net D4.rounding_board (Num.of_int 64)).2
  = (estimate_value D4.sample_net D4.rounding_board + Num.of_int 64)%Qc.
Proof.
  pose proof (adjust_value_moves_estimate D4.sample_net D4.rounding_board
                (Num.of_int 64) rounding_board_apart) as Hw.
  destruct (adjust_value D4.sample_net D4.rounding_board (Num.of_int 64))
    as [net' sum].
  exact (proj1 Hw).
Defined.

End Learn.

(** ** The properties of an agent *)

Module Args.
Import Meta.
Import Ascii.AsciiSyntax String.StringSyntax.
Local Open Scope char_scope.
Delimit Scope string_scope with string.

Lemma tokens_from_app (a b cur : str) (sp : char) :
  is_space sp = true →
  tokens_from cur (a ++ sp :: b) = tokens_from cur a ++ tokens b.
Proof.
  intros Hsp. revert cur. induction a as [|c a IH]; intros cur; simpl.
  - rewrite Hsp. by destruct cur.
  - destruct (is_space c); [|apply IH].
    destruct cur; by rewrite IH.
Qed.

Lemma tokens_from_word (t cur : str) :
  cur ++ t ≠ [] → Forall (λ c, is_space c = false) t →
  tokens_from cur t = [cur ++ t].
Proof.
  revert cur. induction t as [|c t IH]; intros cur Hne Hall; simpl.
  - rewrite app_nil_r in *. by destruct cur.
  - apply Forall_cons in Hall as [Hc Hall]. rewrite Hc.
    rewrite IH; [by rewrite <- app_assoc| |done].
    rewrite <- app_assoc. by destruct cur.
Qed.

Lemma find_eq_none (t : str) : "=" ∉ t → find_eq t = None.
Proof.
  induction t as [|c t IH]; intros Hn; cbn [find_eq]; [done|].
  rewrite decide_False; [|intros ->; apply Hn; constructor].
  rewrite IH; [done|]. intros Hin. apply Hn. by constructor.
Qed.

Lemma find_eq_first (k v : str) :
  "=" ∉ k → find_eq (k ++ "=" :: v) = Some (length k).
Proof.
  induction k as [|c k IH]; intros Hn; cbn [app find_eq length].
  - by rewrite decide_True.
  - rewrite decide_False; [|intros ->; apply Hn; constructor].
    rewrite IH; [done|]. intros Hin. apply Hn. by constructor.
Qed.

Lemma key_value_of_pair (k v : str) :
  "=" ∉ k → key_of (k ++ "=" :: v) = k ∧ value_of (k ++ "=" :: v) = v.
Proof.
  intros Hk. unfold key_of, value_of. rewrite (find_eq_first k v Hk).
  split; [by rewrite take_app_length|].
  replace (k ++ "=" :: v) with ((k ++ ["="]) ++ v)
    by (by rewrite <- app_assoc).
  apply drop_app_length'. rewrite length_app. simpl. lia.
Qed.

(** X15: a pair [key=value] whose key holds no [=] is split into its
    key and its value, whatever the value holds; a pair without [=] gives
    itself as key and as value. *)
Theorem pair_round_trip (k v t : str) :
  "=" ∉ k → "=" ∉ t →
  key_of (k ++ "=" :: v) = k ∧ value_of (k ++ "=" :: v) = v
  ∧ key_of t = t ∧ value_of t = t.
Proof.
  intros Hk Ht. destruct (key_value_of_pair k v Hk) as [-> ->].
  unfold key_of, value_of. by rewrite (find_eq_none t Ht).
Qed.

Lemma parse_tokens_snoc (m : meta) (toks : list str) (t : str) :
  parse_tokens m (toks ++ [t])
  = assign (parse_tokens m toks) (key_of t) (value_of t).
Proof. unfold parse_tokens. by rewrite foldl_app. Qed.

Lemma parse_tokens_keeps (toks : list str) (m : meta) (k : str) :
  is_Some (m k) → is_Some (parse_tokens m toks k).
Proof.
  revert m. induction toks as [|t toks IH]; intros m Hm; [done|].
  apply IH. unfold assign. by case_decide.
Qed.

(** What [meta] holds at a key after the loop: the value of the last pair
    with that key, or what it held before when no pair has the key. *)
Lemma parse_tokens_lookup (toks : list str) (m : meta) (k v : str) :
  parse_tokens m toks k = Some v →
  (∃ pre t post, toks = pre ++ t :: post ∧ key_of t = k ∧ value_of t = v
                 ∧ Forall (λ t', key_of t' ≠ k) post)
  ∨ (m k = Some v ∧ Forall (λ t, key_of t ≠ k) toks).
Proof.
  induction toks as [|t toks IH] using rev_ind; [by right|].
  rewrite parse_tokens_snoc. unfold assign. case_decide as E.
  - intros [= <-]. left. by exists toks, t, [].
  - intros Hv. destruct (IH Hv) as [(pre & t' & post & -> & Hk & Hval & Hpost)
                                    |[Hm Hall]].
    + left. exists pre, t', (post ++ [t]).
      split; [by rewrite <- app_assoc|]. split; [done|]. split; [done|].
      apply Forall_app. split; [done|]. apply Forall_singleton. congruence.
    + right. split; [done|]. apply Forall_app. split; [done|].
      apply Forall_singleton. congruence.
Qed.

(** X16: an agent always has a name and a role, and a pair [key=value]
    at the end of the arguments decides what [property(key)] returns. *)
Theorem agent_last_pair_wins (args k v : str) :
  "=" ∉ k → Forall (λ c, is_space c = false) (k ++ v) →
  property (agent (args ++ " " :: k ++ "=" :: v)) k = Some v
  ∧ is_Some (name (agent args)) ∧ is_Some (role (agent args)).
Proof.
  intros Hk Hsp. split.
  - unfold property, agent.
    replace (lit "name=unknown role=unknown "%string
             ++ args ++ " " :: k ++ "=" :: v)
      with ((lit "name=unknown role=unknown "%string ++ args)
            ++ " " :: (k ++ "=" :: v)) by (by rewrite <- app_assoc).
    unfold tokens at 1. rewrite tokens_from_app by done.
    unfold tokens. rewrite (tokens_from_word (k ++ "=" :: v) []).
    + rewrite parse_tokens_snoc. unfold assign. rewrite app_nil_l.
      destruct (key_value_of_pair k v Hk) as [-> ->].
      by rewrite decide_True.
    + by destruct k.
    + apply Forall_app in Hsp as [Hk' Hv'].
      apply Forall_app. split; [done|]. by apply Forall_cons.
  - unfold name, role, property, agent.
    change (tokens (lit "name=unknown role=unknown "%string ++ args))
      with ([lit "name=unknown"%string; lit "role=unknown"%string]
            ++ tokens args).
    unfold parse_tokens. rewrite foldl_app.
    split; apply parse_tokens_keeps; vm_compute; by eexists.
Qed.

Lemma parse_tokens_found (m : meta) (pre post : list str) (t k : str) :
  key_of t = k → Forall (λ t', key_of t' ≠ k) post →
  parse_tokens m (pre ++ t :: post) k = Some (value_of t).
Proof.
  intros Hk. induction post as [|x post IH] using rev_ind; intros Hpost.
  - rewrite parse_tokens_snoc. unfold assign. by rewrite decide_True.
  - apply Forall_app in Hpost as [Hpost Hx].
    apply (proj1 (Forall_singleton _ _)) in Hx. cbv beta in Hx.
    replace (pre ++ t :: post ++ [x]) with ((pre ++ t :: post) ++ [x])
      by (by rewrite <- app_assoc).
    rewrite parse_tokens_snoc. unfold assign.
    rewrite decide_False by congruence. by apply IH.
Qed.

(** [name.find_first_of(chars) == npos]. *)
Lemma find_first_of_none (chars n : str) :
  existsb (λ c, bool_decide (c ∈ chars)) n = false
  ↔ Forall (λ c, c ∉ chars) n.
Proof.
  induction n as [|c n IH]; cbn [existsb]; [done|].
  by rewrite orb_false_iff, bool_decide_eq_false, Forall_cons, IH.
Qed.

Lemma player_tokens (args : str) :
  tokens (lit "name=unknown role=unknown "%string
          ++ lit "name=random role=unknown N=0 "%string ++ args)
  = [lit "name=unknown"%string; lit "role=unknown"%string;
     lit "name=random"%string; lit "role=unknown"%string;
     lit "N=0"%string] ++ tokens args.
Proof. reflexivity. Qed.

(** [meta] holds nothing at a key when it held nothing before and no
    pair has the key. *)
Lemma parse_tokens_none (toks : list str) (m : meta) (k : str) :
  parse_tokens m toks k = None
  ↔ m k = None ∧ Forall (λ t, key_of t ≠ k) toks.
Proof.
  induction toks as [|t toks IH] using rev_ind.
  - split; [by intros ?|by intros [? _]].
  - rewrite parse_tokens_snoc. unfold assign. case_decide as E.
    + split; [done|]. intros [_ Hall].
      apply Forall_app in Hall as [_ Hx].
      apply (proj1 (Forall_singleton _ _)) in Hx. cbv beta in Hx.
      congruence.
    + rewrite IH. split.
      * intros [Hm Hall]. split; [done|]. apply Forall_app. split; [done|].
        apply Forall_singleton. congruence.
      * intros [Hm Hall]. by apply Forall_app in Hall as [Hall _].
Qed.

(** X17: the constructor of the NoGo player returns, without an exception
    and without undefined behaviour, exactly when three conditions hold.
    The arguments hold no pair with the key [seed], or the value of the
    last such pair is a string that [std::stod] converts to a [double]
    whose integer part fits an [int], which is then the seed; otherwise the
    constructor of [random_agent] fails before the body of [player] runs.
    The name holds none of the characters [[]():; ].  The last pair with
    the key [role] has the value [black] or [white], and [who] is that
    side; with no such pair the role stays [unknown] and the constructor
    throws. *)
Theorem player_role `{Stod} (args : str) (m : meta) (seed : option Z)
  (who : piece_type) :
  player args = Some (m, seed, who) ↔
  m = agent (lit "name=random role=unknown N=0 "%string ++ args)
  ∧ ((Forall (λ t, key_of t ≠ lit "seed"%string) (tokens args)
      ∧ seed = None)
     ∨ (∃ pre t post z,
          tokens args = pre ++ t :: post
          ∧ key_of t = lit "seed"%string
          ∧ Forall (λ t', key_of t' ≠ lit "seed"%string) post
          ∧ to_int (value_of t) = Some z ∧ seed = Some z))
  ∧ (∃ n, name m = Some n ∧ Forall (λ c, c ∉ lit "[]():; "%string) n)
  ∧ ∃ pre t post,
      tokens args = pre ++ t :: post
      ∧ key_of t = lit "role"%string
      ∧ Forall (λ t', key_of t' ≠ lit "role"%string) post
      ∧ ((value_of t = lit "black"%string ∧ who = black)
         ∨ (value_of t = lit "white"%string ∧ who = white)).
Proof.
  unfold player, random_agent. cbv zeta.
  set (m0 := agent (lit "name=random role=unknown N=0 "%string ++ args)).
  set (defaults := parse_tokens (λ _, None)
                     [lit "name=unknown"%string;
                      lit "role=unknown"%string;
                      lit "name=random"%string;
                      lit "role=unknown"%string; lit "N=0"%string]).
  assert (Hm0 : ∀ k, m0 k = parse_tokens defaults (tokens args) k).
  { intros k. unfold m0, agent. rewrite player_tokens.
    unfold defaults, parse_tokens. by rewrite foldl_app. }
  assert (Hrole : role m0
                  = parse_tokens defaults (tokens args) (lit "role"%string))
    by apply Hm0.
  assert (Hnoseed : defaults (lit "seed"%string) = None) by (by vm_compute).
  split.
  - intros Hp.
    assert (Hseed : ∃ seed0,
              (match m0 (lit "seed"%string) with
               | Some value => seed1 ← to_int value; Some (m0, Some seed1)
               | None => Some (m0, None)
               end) = Some (m0, seed0)
              ∧ ((Forall (λ t, key_of t ≠ lit "seed"%string) (tokens args)
                  ∧ seed0 = None)
                 ∨ (∃ pre t post z,
                      tokens args = pre ++ t :: post
                      ∧ key_of t = lit "seed"%string
                      ∧ Forall (λ t', key_of t' ≠ lit "seed"%string) post
                      ∧ to_int (value_of t) = Some z ∧ seed0 = Some z))).
    { destruct (m0 (lit "seed"%string)) as [value|] eqn:Hv.
      - destruct (to_int value) as [z|] eqn:Hz; [|done].
        exists (Some z). split; [done|]. right.
        rewrite Hm0 in Hv.
        apply parse_tokens_lookup in Hv
          as [(pre & t & post & Htok & Hkey & Hval & Hpost)|[Hdef _]];
          [|congruence].
        exists pre, t, post, z. by rewrite Hval.
      - exists None. split; [done|]. left. split; [|done].
        rewrite Hm0 in Hv. by apply parse_tokens_none in Hv as [_ Hall]. }
    destruct Hseed as (seed0 & Hra & Hseed). rewrite Hra in Hp.
    cbn [mbind option_bind] in Hp.
    destruct (name m0) as [n|] eqn:Hn; [cbn [mbind option_bind] in Hp|done].
    destruct (existsb _ n) eqn:Hname; [done|].
    apply find_first_of_none in Hname.
    destruct (role m0) as [r|] eqn:Hr; [cbn [mbind option_bind] in Hp|done].
    assert (Hwho : m = m0 ∧ seed = seed0
                   ∧ ((r = lit "black"%string ∧ who = black)
                      ∨ (r = lit "white"%string ∧ who = white))).
    { repeat case_decide; simplify_eq; auto. }
    destruct Hwho as (-> & -> & Hwho). split; [done|]. split; [done|].
    split; [by exists n|]. symmetry in Hrole.
    apply parse_tokens_lookup in Hrole
      as [(pre & t & post & Htok & Hkey & Hval & Hpost)|[Hdef _]].
    + exists pre, t, post. rewrite Hval. done.
    + exfalso. vm_compute in Hdef. injection Hdef as <-.
      destruct Hwho as [[E _]|[E _]]; discriminate E.
  - intros (-> & Hseed & (n & Hn & Hname) & pre & t & post
            & Htok & Hkey & Hpost & Hwho).
    assert (Hra : (match m0 (lit "seed"%string) with
                   | Some value => seed1 ← to_int value; Some (m0, Some seed1)
                   | None => Some (m0, None)
                   end) = Some (m0, seed)).
    { destruct Hseed as [[Hall ->]|(pre' & t' & post' & z & Htok' & Hkey'
                                    & Hpost' & Hz & ->)].
      - rewrite Hm0, (proj2 (parse_tokens_none _ _ _) (conj Hnoseed Hall)).
        done.
      - rewrite Hm0, Htok',
          (parse_tokens_found _ pre' post' t' _ Hkey' Hpost').
        by rewrite Hz. }
    rewrite Hra. cbn [mbind option_bind].
    rewrite Hn. cbn [mbind option_bind].
    apply find_first_of_none in Hname. rewrite Hname.
    rewrite Hrole, Htok, (parse_tokens_found _ pre post t _ Hkey Hpost).
    cbn [mbind option_bind].
    destruct Hwho as [[-> ->]|[-> ->]].
    + rewrite decide_False by (by vm_compute).
      by rewrite decide_True by done.
    + by rewrite decide_True by done.
Qed.

Lemma pair_round_trip_witness :
  key_of (lit "role=black=1"%string) = lit "role"%string
  ∧ value_of (lit "role=black=1"%string) = lit "black=1"%string
  ∧ key_of (lit "verbose"%string) = lit "verbose"%string
  ∧ value_of (lit "verbose"%string) = lit "verbose"%string.
Proof.
  apply (pair_round_trip (lit "role"%string) (lit "black=1"%string)
           (lit "verbose"%string));
    apply (bool_decide_unpack _); by vm_compute.
Defined.

Lemma agent_last_pair_wins_witness :
  property (agent (lit "name=a role=white N=10 role=black"%string))
    (lit "role"%string) = Some (lit "black"%string)
  ∧ is_Some (name (agent (lit "name=a role=white N=10"%string)))
  ∧ is_Some (role (agent (lit "name=a role=white N=10"%string))).
Proof.
  apply (agent_last_pair_wins (lit "name=a role=white N=10"%string)
           (lit "role"%string) (lit "black"%string)).
  - apply (bool_decide_unpack _). by vm_compute.
  - repeat constructor.
Defined.

#[local] Existing Instance Decimal.decimal_stod.

Lemma player_role_witness :
  ∃ pre t post,
    tokens (lit "N=100 role=white seed=7 name=mcts"%string)
    = pre ++ t :: post
    ∧ key_of t = lit "role"%string
    ∧ Forall (λ t', key_of t' ≠ lit "role"%string) post
    ∧ ((value_of t = lit "black"%string ∧ white = black)
       ∨ (value_of t = lit "white"%string ∧ white = white)).
Proof.
  apply (proj1 (player_role
                  (lit "N=100 role=white seed=7 name=mcts"%string)
                  (agent (lit "name=random role=unknown N=0 "%string
                          ++ lit "N=100 role=white seed=7 name=mcts"%string))
                  (Some 7) white)).
  by vm_compute.
Defined.

(** A seed that is no number: the constructor of [random_agent] ends in
    the exception of [std::stod], whatever the name and the role. *)
Lemma player_seed_not_a_number :
  player (lit "role=black seed=abc"%string) = None
  ∧ ∃ m, player (lit "role=black seed=12"%string) = Some (m, Some 12, black).
Proof. split; [by vm_compute|]. eexists. by vm_compute. Qed.

End Args.
